(** * LiftLog clubs: a shallow embedding of the club client code

    The development follows the TypeScript sources of the club feature:
    - [app/services/club-api.ts]      (ClubApiService, base64 helpers),
    - [models/club-models.ts]         (Club, ClubSettings, ClubMember, feed items),
    - [models/club-api-models.ts]     (request and response shapes),
    - [app/store/clubs/index.ts]      (the clubs reducer),
    - [app/store/clubs/effects.ts]    (create-club and load-my-clubs effects).

    Byte arrays ([Uint8Array]) are lists of [byte]; JavaScript objects used
    as dictionaries are [gmap string _]; exceptions are explicit results. *)

From Stdlib Require Import ZArith Lia List Ascii String.
From Stdlib Require Import Strings.Byte.
From stdpp Require Import gmap strings list fin_maps.

Local Open Scope Z_scope.

(** ** Bytes *)

Module Bytes.

(** The numeric value of an element of a [Uint8Array]. *)
Definition byte_val (b : byte) : Z := Z.of_N (Byte.to_N b).

(** Storing a number into a [Uint8Array] keeps its low eight bits. *)
Definition byte_of_Z (z : Z) : byte :=
  match Byte.of_N (Z.to_N (Z.land z 255)) with
  | Some b => b
  | None => x00
  end.

#[global] Instance byte_eq_decision : EqDecision byte := Byte.byte_eq_dec.

(** Bitwise exclusive or of two bytes. *)
Definition byte_xor (a b : byte) : byte :=
  byte_of_Z (Z.lxor (byte_val a) (byte_val b)).

Lemma byte_val_range (b : byte) : 0 <= byte_val b < 256.
Proof.
  unfold byte_val. pose proof (Byte.to_N_bounded b). lia.
Qed.

Lemma land_255 (z : Z) : Z.land z 255 = z mod 256.
Proof. exact (Z.land_ones z 8 ltac:(lia)). Qed.

Lemma byte_of_Z_val (b : byte) : byte_of_Z (byte_val b) = b.
Proof.
  unfold byte_of_Z. rewrite land_255.
  rewrite Z.mod_small by apply byte_val_range.
  unfold byte_val. rewrite N2Z.id. now rewrite Byte.of_to_N.
Qed.

Lemma byte_val_of_Z (z : Z) : byte_val (byte_of_Z z) = z mod 256.
Proof.
  unfold byte_of_Z. rewrite land_255.
  assert (Hr : 0 <= z mod 256 < 256) by (apply Z.mod_pos_bound; lia).
  destruct (Byte.of_N (Z.to_N (z mod 256))) as [b|] eqn:E.
  - apply Byte.to_of_N in E. unfold byte_val. rewrite E. lia.
  - apply Byte.of_N_None_iff in E. lia.
Qed.

Lemma byte_val_inj (a b : byte) : byte_val a = byte_val b -> a = b.
Proof.
  intros H. rewrite <- (byte_of_Z_val a), <- (byte_of_Z_val b). now rewrite H.
Qed.

Lemma lxor_byte_range (x y : Z) :
  0 <= x < 256 -> 0 <= y < 256 -> 0 <= Z.lxor x y < 256.
Proof.
  intros Hx Hy. split.
  - apply Z.lxor_nonneg. lia.
  - destruct (Z.eq_dec (Z.lxor x y) 0) as [->|Hne]; [lia|].
    assert (Hpos : 0 < Z.lxor x y).
    { assert (0 <= Z.lxor x y) by (apply Z.lxor_nonneg; lia). lia. }
    apply (Z.log2_lt_pow2 _ 8 Hpos).
    eapply Z.le_lt_trans; [apply Z.log2_lxor; lia|].
    apply Z.max_lub_lt.
    + destruct (Z.eq_dec x 0) as [->|]; [reflexivity|].
      apply Z.log2_lt_pow2; lia.
    + destruct (Z.eq_dec y 0) as [->|]; [reflexivity|].
      apply Z.log2_lt_pow2; lia.
Qed.

Lemma byte_val_xor (a b : byte) :
  byte_val (byte_xor a b) = Z.lxor (byte_val a) (byte_val b).
Proof.
  unfold byte_xor. rewrite byte_val_of_Z. apply Z.mod_small.
  apply lxor_byte_range; apply byte_val_range.
Qed.

(** Xor-ing twice with the same byte gives the first byte back. *)
Lemma byte_xor_cancel_r (a b : byte) : byte_xor (byte_xor a b) b = a.
Proof.
  apply byte_val_inj. rewrite !byte_val_xor.
  now rewrite Z.lxor_assoc, Z.lxor_nilpotent, Z.lxor_0_r.
Qed.

Lemma byte_xor_inj_r (a b c : byte) : byte_xor a c = byte_xor b c -> a = b.
Proof.
  intros H. rewrite <- (byte_xor_cancel_r a c), H. apply byte_xor_cancel_r.
Qed.

Lemma byte_xor_comm (a b : byte) : byte_xor a b = byte_xor b a.
Proof. unfold byte_xor. now rewrite Z.lxor_comm. Qed.

End Bytes.

(** ** JavaScript completions

    A call either returns normally or throws.  [E] is the type of thrown
    values. *)

Module Js.

Inductive completion (E A : Type) : Type :=
| Normal (a : A)
| Throw (e : E).

Arguments Normal {E A} a.
Arguments Throw {E A} e.

Definition bind {E A B} (c : completion E A) (k : A -> completion E B)
  : completion E B :=
  match c with
  | Normal a => k a
  | Throw e => Throw e
  end.

Definition is_normal {E A} (c : completion E A) : bool :=
  match c with Normal _ => true | Throw _ => false end.

(** The UTF-16 code units of a JavaScript string of ASCII characters, one
    per character (base64 text is such a string). *)
Definition code_units (s : string) : list Z :=
  List.map (fun b => Z.of_N (Byte.to_N b)) (list_byte_of_string s).

End Js.

#[global] Instance completion_ret {E} : MRet (Js.completion E) :=
  fun A => @Js.Normal E A.
#[global] Instance completion_bind {E} : MBind (Js.completion E) :=
  fun A B k c => Js.bind c k.

(** ** Base64 helpers of [club-api.ts]

    [btoa] and [atob] are the platform's functions; they are written here
    after the WHATWG "forgiving-base64" encode and decode algorithms, on
    strings given as lists of code units. *)

Module Base64.

Import Bytes Js.

(** Code unit of the base64 digit with value [s] (A-Z, a-z, 0-9, +, /). *)
Definition b64_char (s : Z) : Z :=
  if s <? 26 then 65 + s
  else if s <? 52 then 97 + (s - 26)
  else if s <? 62 then 48 + (s - 52)
  else if s =? 62 then 43
  else 47.

(** Value of a base64 digit, [None] for any other code unit. *)
Definition b64_index (c : Z) : option Z :=
  if (65 <=? c) && (c <=? 90) then Some (c - 65)
  else if (97 <=? c) && (c <=? 122) then Some (c - 97 + 26)
  else if (48 <=? c) && (c <=? 57) then Some (c - 48 + 52)
  else if c =? 43 then Some 62
  else if c =? 47 then Some 63
  else None.

(** Code unit of the padding character [=]. *)
Definition pad_char : Z := 61.

Definition sextet (n k : Z) : Z := Z.land (Z.shiftr n k) 63.
Definition octet (n k : Z) : Z := Z.land (Z.shiftr n k) 255.

Definition pack3 (a b c : Z) : Z :=
  Z.lor (Z.lor (Z.shiftl a 16) (Z.shiftl b 8)) c.

Definition pack4 (s1 s2 s3 s4 : Z) : Z :=
  Z.lor (Z.lor (Z.lor (Z.shiftl s1 18) (Z.shiftl s2 12)) (Z.shiftl s3 6)) s4.

(** The digits of the encoding, three input bytes at a time, without padding. *)
Fixpoint sextets (bs : list Z) : list Z :=
  match bs with
  | [] => []
  | [a] => let n := pack3 a 0 0 in [sextet n 18; sextet n 12]
  | [a; b] => let n := pack3 a b 0 in [sextet n 18; sextet n 12; sextet n 6]
  | a :: b :: c :: rest =>
      let n := pack3 a b c in
      sextet n 18 :: sextet n 12 :: sextet n 6 :: sextet n 0 :: sextets rest
  end.

(** Number of [=] appended so that the output length is a multiple of 4. *)
Definition padding (bs : list Z) : nat :=
  match (length bs mod 3)%nat with
  | 1%nat => 2%nat
  | 2%nat => 1%nat
  | _ => 0%nat
  end.

Definition encode (bs : list Z) : list Z :=
  List.map b64_char (sextets bs) ++ repeat pad_char (padding bs).

(** [btoa(s)]: throws [InvalidCharacterError] when a code unit exceeds 0xFF. *)
Definition btoa (s : list Z) : completion string (list Z) :=
  if forallb (fun c => c <=? 255) s then Normal (encode s)
  else Throw "InvalidCharacterError"%string.

Definition is_ascii_whitespace (c : Z) : bool :=
  (c =? 9) || (c =? 10) || (c =? 12) || (c =? 13) || (c =? 32).

(** Remove one trailing [=], if there is one. *)
Definition drop_last_pad (data : list Z) : list Z :=
  match rev data with
  | c :: r => if c =? pad_char then rev r else data
  | [] => data
  end.

(** Step 2 of forgiving-base64 decode: when the length is a multiple of
    four, remove one or two trailing [=]. *)
Definition strip_padding (data : list Z) : list Z :=
  if (length data mod 4 =? 0)%nat then drop_last_pad (drop_last_pad data)
  else data.

Fixpoint indices (cs : list Z) : option (list Z) :=
  match cs with
  | [] => Some []
  | c :: r =>
      match b64_index c, indices r with
      | Some s, Some ss => Some (s :: ss)
      | _, _ => None
      end
  end.

(** The bytes carried by a sequence of digits; a trailing group of two or
    three digits carries one or two bytes, the left-over bits are dropped. *)
Fixpoint decode_sextets (ss : list Z) : list Z :=
  match ss with
  | s1 :: s2 :: s3 :: s4 :: rest =>
      let n := pack4 s1 s2 s3 s4 in
      octet n 16 :: octet n 8 :: octet n 0 :: decode_sextets rest
  | [s1; s2; s3] => let n := pack4 s1 s2 s3 0 in [octet n 16; octet n 8]
  | [s1; s2] => let n := pack4 s1 s2 0 0 in [octet n 16]
  | _ => []
  end.

(** [atob(data)]. *)
Definition atob (data : list Z) : completion string (list Z) :=
  let d := List.filter (fun c => negb (is_ascii_whitespace c)) data in
  let d := strip_padding d in
  if (length d mod 4 =? 1)%nat then Throw "InvalidCharacterError"%string
  else
    match indices d with
    | Some ss => Normal (decode_sextets ss)
    | None => Throw "InvalidCharacterError"%string
    end.

(** The string whose code units are the bytes of [value]. *)
Definition char_codes (value : list byte) : list Z := List.map byte_val value.

(** [String.fromCharCode(...value)]: the array is spread into the argument
    list of the call.  An engine accepts only so many arguments
    ([max_arguments]: the number depends on the engine and on the stack
    that is left); a longer argument list makes the call throw a
    [RangeError]. *)
Definition fromCharCode (max_arguments : Z) (value : list byte)
  : completion string (list Z) :=
  if Z.of_nat (length value) <=? max_arguments then Normal (char_codes value)
  else Throw "RangeError"%string.

(** [Uint8Array.from(s, (c) => c.charCodeAt(0))]. *)
Definition Uint8Array_from (s : list Z) : list byte := List.map byte_of_Z s.

(** [uint8ArrayToBase64] (club-api.ts, line 414). *)
Definition uint8ArrayToBase64 (max_arguments : Z) (value : list byte)
  : completion string (list Z) :=
  s ← fromCharCode max_arguments value; btoa s.

(** [base64ToUint8Array] (club-api.ts, line 418). *)
Definition base64ToUint8Array (value : list Z) : completion string (list byte) :=
  s ← atob value; Normal (Uint8Array_from s).

Definition is_octet (z : Z) : Prop := 0 <= z < 256.
Definition is_sextet (z : Z) : Prop := 0 <= z < 64.

(** The text ["dGVzdA=="] decodes to the bytes of ["test"]. *)
Example base64ToUint8Array_test :
  base64ToUint8Array (code_units "dGVzdA==") =
  Normal (list_byte_of_string "test").
Proof. reflexivity. Qed.

Example uint8ArrayToBase64_test_club :
  uint8ArrayToBase64 65535 (list_byte_of_string "test club") =
  Normal (code_units "dGVzdCBjbHVi").
Proof. reflexivity. Qed.

(** *** The helpers are mutually inverse *)

Lemma lor_shiftl_add (hi lo k : Z) :
  0 <= k -> 0 <= lo < 2 ^ k -> Z.lor (Z.shiftl hi k) lo = hi * 2 ^ k + lo.
Proof.
  intros Hk Hlo. rewrite <- Z.shiftl_mul_pow2 by lia.
  symmetry. apply Z.add_nocarry_lor.
  apply Z.bits_inj'. intros n Hn.
  rewrite Z.land_spec, Z.bits_0.
  destruct (Z.lt_ge_cases n k) as [Hlt|Hge].
  - now rewrite Z.shiftl_spec_low.
  - replace (Z.testbit lo n) with false; [apply andb_false_r|].
    symmetry. destruct (Z.eq_dec lo 0) as [->|Hne]; [apply Z.bits_0|].
    apply Z.bits_above_log2; [lia|].
    assert (Z.log2 lo < k) by (apply Z.log2_lt_pow2; lia). lia.
Qed.

Lemma pack3_arith (a b c : Z) :
  0 <= b < 256 -> 0 <= c < 256 -> pack3 a b c = a * 65536 + b * 256 + c.
Proof.
  intros Hb Hc. unfold pack3.
  replace (Z.shiftl a 16) with (Z.shiftl (Z.shiftl a 8) 8)
    by (rewrite Z.shiftl_shiftl by lia; reflexivity).
  rewrite <- Z.shiftl_lor.
  rewrite (lor_shiftl_add a b 8) by lia.
  rewrite (lor_shiftl_add _ c 8) by lia. lia.
Qed.

Lemma pack4_arith (s1 s2 s3 s4 : Z) :
  0 <= s2 < 64 -> 0 <= s3 < 64 -> 0 <= s4 < 64 ->
  pack4 s1 s2 s3 s4 = s1 * 262144 + s2 * 4096 + s3 * 64 + s4.
Proof.
  intros H2 H3 H4. unfold pack4.
  replace (Z.shiftl s1 18) with (Z.shiftl (Z.shiftl s1 6) 12)
    by (rewrite Z.shiftl_shiftl by lia; reflexivity).
  replace (Z.shiftl s2 12) with (Z.shiftl (Z.shiftl s2 6) 6)
    by (rewrite Z.shiftl_shiftl by lia; reflexivity).
  replace (Z.shiftl (Z.shiftl s1 6) 12) with (Z.shiftl (Z.shiftl (Z.shiftl s1 6) 6) 6)
    by (rewrite (Z.shiftl_shiftl _ 6 6) by lia; reflexivity).
  rewrite <- !Z.shiftl_lor.
  rewrite (lor_shiftl_add s1 s2 6) by lia.
  rewrite (lor_shiftl_add _ s3 6) by lia.
  rewrite (lor_shiftl_add _ s4 6) by lia. lia.
Qed.

Lemma sextet_arith (n k : Z) : 0 <= k -> sextet n k = (n / 2 ^ k) mod 64.
Proof.
  intros Hk. unfold sextet. rewrite Z.shiftr_div_pow2 by lia.
  exact (Z.land_ones _ 6 ltac:(lia)).
Qed.

Lemma octet_arith (n k : Z) : 0 <= k -> octet n k = (n / 2 ^ k) mod 256.
Proof.
  intros Hk. unfold octet. rewrite Z.shiftr_div_pow2 by lia.
  exact (Z.land_ones _ 8 ltac:(lia)).
Qed.

Lemma sextet_range (n k : Z) : 0 <= k -> 0 <= sextet n k < 64.
Proof. intros Hk. rewrite sextet_arith by lia. apply Z.mod_pos_bound. lia. Qed.

Ltac group_arith :=
  rewrite ?sextet_arith, ?octet_arith by lia;
  change (2 ^ 18) with 262144; change (2 ^ 16) with 65536;
  change (2 ^ 12) with 4096; change (2 ^ 8) with 256;
  change (2 ^ 6) with 64; change (2 ^ 0) with 1.

Lemma group3 (a b c : Z) :
  0 <= a < 256 -> 0 <= b < 256 -> 0 <= c < 256 ->
  let n := pack3 a b c in
  let m := pack4 (sextet n 18) (sextet n 12) (sextet n 6) (sextet n 0) in
  octet m 16 = a /\ octet m 8 = b /\ octet m 0 = c.
Proof.
  intros Ha Hb Hc n m. subst m.
  rewrite pack4_arith by (apply sextet_range; lia).
  subst n. rewrite pack3_arith by lia.
  group_arith.
  repeat split; Z.div_mod_to_equations; lia.
Qed.

Lemma group2 (a b : Z) :
  0 <= a < 256 -> 0 <= b < 256 ->
  let n := pack3 a b 0 in
  let m := pack4 (sextet n 18) (sextet n 12) (sextet n 6) 0 in
  octet m 16 = a /\ octet m 8 = b.
Proof.
  intros Ha Hb n m. subst m.
  rewrite pack4_arith by (try apply sextet_range; lia).
  subst n. rewrite pack3_arith by lia.
  group_arith.
  repeat split; Z.div_mod_to_equations; lia.
Qed.

Lemma group1 (a : Z) :
  0 <= a < 256 ->
  let n := pack3 a 0 0 in
  octet (pack4 (sextet n 18) (sextet n 12) 0 0) 16 = a.
Proof.
  intros Ha n.
  rewrite pack4_arith by (try apply sextet_range; lia).
  subst n. rewrite pack3_arith by lia.
  group_arith.
  Z.div_mod_to_equations; lia.
Qed.

(** Induction on a list, three elements at a time. *)
Lemma list_ind3 {A} (P : list A -> Prop) :
  P [] -> (forall a, P [a]) -> (forall a b, P [a; b]) ->
  (forall a b c l, P l -> P (a :: b :: c :: l)) ->
  forall l, P l.
Proof.
  intros H0 H1 H2 H3.
  refine (fix go l := match l with
                      | [] => H0
                      | [a] => H1 a
                      | [a; b] => H2 a b
                      | a :: b :: c :: r => H3 a b c r (go r)
                      end).
Qed.

Lemma sextets_range (bs : list Z) : Forall is_sextet (sextets bs).
Proof.
  induction bs as [|a|a b|a b c l IH] using list_ind3; cbn [sextets];
    repeat (apply Forall_cons; split; [apply sextet_range; lia|]);
    auto using Forall_nil.
Qed.

Lemma decode_sextets_sextets (bs : list Z) :
  Forall is_octet bs -> decode_sextets (sextets bs) = bs.
Proof.
  induction bs as [|a|a b|a b c l IH] using list_ind3; intros Hb.
  - reflexivity.
  - apply Forall_cons_1 in Hb as [Ha _]. cbn [sextets decode_sextets].
    now rewrite group1.
  - apply Forall_cons_1 in Hb as [Ha Hb]. apply Forall_cons_1 in Hb as [Hb _].
    cbn [sextets decode_sextets].
    destruct (group2 a b Ha Hb) as [-> ->]. reflexivity.
  - apply Forall_cons_1 in Hb as [Ha Hb]. apply Forall_cons_1 in Hb as [Hb Hc].
    apply Forall_cons_1 in Hc as [Hc Hl].
    cbn [sextets decode_sextets].
    destruct (group3 a b c Ha Hb Hc) as (-> & -> & ->).
    now rewrite IH.
Qed.

Lemma b64_index_char (s : Z) : is_sextet s -> b64_index (b64_char s) = Some s.
Proof.
  unfold is_sextet, b64_index, b64_char. intros Hs.
  repeat (case_match; try lia; try (f_equal; lia)).
Qed.

Lemma b64_char_digit (s : Z) :
  is_sextet s -> b64_char s <> pad_char /\ is_ascii_whitespace (b64_char s) = false.
Proof.
  unfold is_sextet, b64_char, pad_char, is_ascii_whitespace. intros Hs.
  repeat case_match; split; lia.
Qed.

Lemma indices_map_char (ss : list Z) :
  Forall is_sextet ss -> indices (List.map b64_char ss) = Some ss.
Proof.
  induction 1 as [|s ss Hs _ IH]; [reflexivity|].
  cbn [List.map indices]. now rewrite b64_index_char, IH.
Qed.

Lemma padding_cons3 (a b c : Z) (l : list Z) :
  padding (a :: b :: c :: l) = padding l.
Proof.
  unfold padding. cbn [length].
  replace (S (S (S (length l)))) with (length l + 1 * 3)%nat by lia.
  now rewrite Nat.Div0.mod_add.
Qed.

Lemma encode_cons3 (a b c : Z) (l : list Z) :
  exists c1 c2 c3 c4, encode (a :: b :: c :: l) = c1 :: c2 :: c3 :: c4 :: encode l.
Proof.
  unfold encode. rewrite padding_cons3. cbn [sextets List.map app].
  now eexists _, _, _, _.
Qed.

Lemma encode_length_mod4 (bs : list Z) : (length (encode bs) mod 4 = 0)%nat.
Proof.
  induction bs as [|a|a b|a b c l IH] using list_ind3; try reflexivity.
  destruct (encode_cons3 a b c l) as (c1 & c2 & c3 & c4 & ->).
  cbn [length].
  replace (S (S (S (S (length (encode l)))))) with (length (encode l) + 1 * 4)%nat by lia.
  now rewrite Nat.Div0.mod_add.
Qed.

Lemma sextets_length_mod4 (bs : list Z) : (length (sextets bs) mod 4 <> 1)%nat.
Proof.
  induction bs as [|a|a b|a b c l IH] using list_ind3; try (cbn; lia).
  cbn [sextets length].
  replace (S (S (S (S (length (sextets l)))))) with (length (sextets l) + 1 * 4)%nat by lia.
  now rewrite Nat.Div0.mod_add.
Qed.

Lemma padding_le_2 (bs : list Z) : (padding bs <= 2)%nat.
Proof. unfold padding. repeat case_match; lia. Qed.

Lemma drop_last_pad_snoc (l : list Z) : drop_last_pad (l ++ [pad_char]) = l.
Proof.
  unfold drop_last_pad. rewrite rev_app_distr. cbn [rev app].
  rewrite Z.eqb_refl. apply rev_involutive.
Qed.

Lemma drop_last_pad_digits (l : list Z) :
  Forall (fun c => c <> pad_char) l -> drop_last_pad l = l.
Proof.
  intros Hl. unfold drop_last_pad.
  destruct (rev l) as [|c r] eqn:E; [reflexivity|].
  assert (Hc : In c l) by (apply in_rev; rewrite E; now left).
  rewrite Forall_forall in Hl. 
  assert (c <> pad_char) by (apply Hl, list_elem_of_In, Hc).
  destruct (Z.eqb_spec c pad_char); [contradiction|reflexivity].
Qed.

Lemma strip_padding_digits (l : list Z) (k : nat) :
  Forall (fun c => c <> pad_char) l -> (k <= 2)%nat ->
  (length (l ++ repeat pad_char k) mod 4 = 0)%nat ->
  strip_padding (l ++ repeat pad_char k) = l.
Proof.
  intros Hl Hk Hlen. unfold strip_padding. rewrite Hlen. cbn [Nat.eqb].
  destruct k as [|[|[|k]]]; [| | |lia]; cbn [repeat].
  - rewrite app_nil_r. rewrite !(drop_last_pad_digits l) by assumption. reflexivity.
  - rewrite drop_last_pad_snoc. now apply drop_last_pad_digits.
  - change [pad_char; pad_char] with ([pad_char] ++ [pad_char]).
    rewrite app_assoc. now rewrite !drop_last_pad_snoc.
Qed.

Lemma filter_whitespace_encode (bs : list Z) :
  List.filter (fun c => negb (is_ascii_whitespace c)) (encode bs) = encode bs.
Proof.
  apply forallb_filter_id. unfold encode. rewrite forallb_app.
  apply andb_true_iff. split.
  - apply forallb_forall. intros c Hc. apply in_map_iff in Hc as (s & <- & Hs).
    pose proof (sextets_range bs) as Hr. rewrite Forall_forall in Hr.
    destruct (b64_char_digit s) as [_ ->]; [|reflexivity].
    apply Hr, list_elem_of_In, Hs.
  - apply forallb_forall. intros c Hc. apply repeat_spec in Hc as ->. reflexivity.
Qed.

Lemma atob_encode (bs : list Z) : Forall is_octet bs -> atob (encode bs) = Normal bs.
Proof.
  intros Hb. unfold atob. rewrite filter_whitespace_encode.
  unfold encode at 1 2.
  rewrite strip_padding_digits.
  - destruct (Nat.eqb_spec (length (List.map b64_char (sextets bs)) mod 4) 1) as [E|_].
    + rewrite length_map in E. now apply sextets_length_mod4 in E.
    + rewrite indices_map_char by apply sextets_range.
      now rewrite decode_sextets_sextets.
  - apply Forall_forall. intros c Hc. apply list_elem_of_In, in_map_iff in Hc as (s & <- & Hs).
    pose proof (sextets_range bs) as Hr. rewrite Forall_forall in Hr.
    apply b64_char_digit, Hr, list_elem_of_In, Hs.
  - apply padding_le_2.
  - apply encode_length_mod4.
Qed.

Lemma char_codes_octets (value : list byte) : Forall is_octet (char_codes value).
Proof.
  apply Forall_forall. intros z Hz.
  apply list_elem_of_In, in_map_iff in Hz as (b & <- & _). apply byte_val_range.
Qed.

Lemma btoa_octets (s : list Z) : Forall is_octet s -> btoa s = Normal (encode s).
Proof.
  intros Hs. unfold btoa.
  replace (forallb (fun c => c <=? 255) s) with true; [reflexivity|].
  symmetry. apply forallb_forall. intros c Hc.
  rewrite Forall_forall in Hs. apply list_elem_of_In, Hs in Hc.
  unfold is_octet in Hc. lia.
Qed.

Lemma Uint8Array_from_char_codes (value : list byte) :
  Uint8Array_from (char_codes value) = value.
Proof.
  unfold Uint8Array_from, char_codes. rewrite map_map.
  rewrite <- (map_id value) at 2. apply map_ext. apply byte_of_Z_val.
Qed.

(** Within the argument limit the encoder returns the base64 text of the
    bytes; above it, it throws. *)
Lemma uint8ArrayToBase64_within (max_arguments : Z) (b : list byte) :
  Z.of_nat (length b) <= max_arguments ->
  uint8ArrayToBase64 max_arguments b = Normal (encode (char_codes b)).
Proof.
  intros Hlen. unfold uint8ArrayToBase64, fromCharCode.
  destruct (Z.leb_spec (Z.of_nat (length b)) max_arguments) as [_|]; [|lia].
  apply btoa_octets, char_codes_octets.
Qed.

Lemma uint8ArrayToBase64_above (max_arguments : Z) (b : list byte) :
  max_arguments < Z.of_nat (length b) ->
  uint8ArrayToBase64 max_arguments b = Throw "RangeError"%string.
Proof.
  intros Hlen. unfold uint8ArrayToBase64, fromCharCode.
  destruct (Z.leb_spec (Z.of_nat (length b)) max_arguments); [lia|reflexivity].
Qed.

Lemma base64ToUint8Array_encode (b : list byte) :
  base64ToUint8Array (encode (char_codes b)) = Normal b.
Proof.
  unfold base64ToUint8Array.
  rewrite atob_encode by apply char_codes_octets.
  change (Normal (Uint8Array_from (char_codes b)) = Normal b :> completion string _).
  now rewrite Uint8Array_from_char_codes.
Qed.

(** C9: the two helpers are mutually inverse on the byte arrays that the
    encoder accepts, the empty array included: decoding the text of an
    array within the argument limit of the engine gives the array back.
    On a longer array the encoder throws a [RangeError] and there is no
    text to decode: with the limit 65535, an array of 130000 bytes. *)
Theorem base64_roundtrip :
  (forall (max_arguments : Z) (b : list byte),
      Z.of_nat (length b) <= max_arguments ->
      uint8ArrayToBase64 max_arguments b ≫= base64ToUint8Array = Normal b) /\
  (forall (max_arguments : Z) (b : list byte),
      max_arguments < Z.of_nat (length b) ->
      uint8ArrayToBase64 max_arguments b ≫= base64ToUint8Array
      = Throw "RangeError"%string) /\
  uint8ArrayToBase64 65535 (repeat x00 (Z.to_nat 130000)) ≫= base64ToUint8Array
  = Throw "RangeError"%string.
Proof.
  split; [|split].
  - intros m b Hlen. rewrite uint8ArrayToBase64_within by exact Hlen.
    apply base64ToUint8Array_encode.
  - intros m b Hlen. now rewrite uint8ArrayToBase64_above.
  - rewrite uint8ArrayToBase64_above; [reflexivity|].
    rewrite repeat_length, Z2Nat.id; lia.
Qed.

(** The empty array is sent as the empty text and read back as empty,
    whatever the argument limit. *)
Example base64_roundtrip_empty (max_arguments : Z) :
  0 <= max_arguments ->
  uint8ArrayToBase64 max_arguments [] = Normal [] /\ base64ToUint8Array [] = Normal [].
Proof.
  intros H. split; [|reflexivity].
  now rewrite uint8ArrayToBase64_within by (cbn; lia).
Qed.

End Base64.

(** ** Club models ([club-models.ts]) *)

(** A js-joda [Instant]: seconds since the epoch and nanoseconds. *)
Record Instant := { epochSecond : Z; nano : Z }.

Definition epoch : Instant := {| epochSecond := 0; nano := 0 |}.

(** [AesKey] of [encryption-models]: the raw key bytes. *)
Record AesKey := { key_value : list byte }.

(** [ClubRole = 'owner' | 'admin' | 'member' | 'viewer'] (line 5). *)
Inductive ClubRole := owner | admin | member | viewer.

#[global] Instance ClubRole_eq_dec : EqDecision ClubRole.
Proof. solve_decision. Defined.

Module ClubSettings.

Record t := mk {
  membersCanPost : bool;
  membersCanInvite : bool;
  maxMembers : Z;
}.

Record POJO := mkPOJO {
  _BRAND : string;
  pojo_membersCanPost : bool;
  pojo_membersCanInvite : bool;
  pojo_maxMembers : Z;
}.

Definition fromPOJO (pojo : POJO) : t :=
  mk (pojo_membersCanPost pojo) (pojo_membersCanInvite pojo) (pojo_maxMembers pojo).

Definition toPOJO (this : t) : POJO :=
  {| _BRAND := "CLUB_SETTINGS_POJO";
     pojo_membersCanPost := membersCanPost this;
     pojo_membersCanInvite := membersCanInvite this;
     pojo_maxMembers := maxMembers this |}.

End ClubSettings.

Module Club.

Record t := mk {
  id : string;
  ownerUserId : string;
  created : Instant;
  name : string;
  description : option string;
  profilePicture : option (list byte);
  aesKey : AesKey;
  isPublic : bool;
  settings : ClubSettings.t;
  memberCount : Z;
}.

Record POJO := mkPOJO {
  _BRAND : string;
  pojo_id : string;
  pojo_ownerUserId : string;
  pojo_created : Instant;
  pojo_name : string;
  pojo_description : option string;
  pojo_profilePicture : option (list byte);
  pojo_aesKey : AesKey;
  pojo_isPublic : bool;
  pojo_settings : ClubSettings.POJO;
  pojo_memberCount : Z;
}.

Definition fromPOJO (pojo : POJO) : t :=
  mk (pojo_id pojo) (pojo_ownerUserId pojo) (pojo_created pojo) (pojo_name pojo)
     (pojo_description pojo) (pojo_profilePicture pojo) (pojo_aesKey pojo)
     (pojo_isPublic pojo) (ClubSettings.fromPOJO (pojo_settings pojo))
     (pojo_memberCount pojo).

Definition toPOJO (this : t) : POJO :=
  {| _BRAND := "CLUB_POJO";
     pojo_id := id this;
     pojo_ownerUserId := ownerUserId this;
     pojo_created := created this;
     pojo_name := name this;
     pojo_description := description this;
     pojo_profilePicture := profilePicture this;
     pojo_aesKey := aesKey this;
     pojo_isPublic := isPublic this;
     pojo_settings := ClubSettings.toPOJO (settings this);
     pojo_memberCount := memberCount this |}.

End Club.

Module ClubMember.

Record t := mk {
  clubId : string;
  userId : string;
  role : ClubRole;
  joined : Instant;
}.

Record POJO := mkPOJO {
  _BRAND : string;
  pojo_clubId : string;
  pojo_userId : string;
  pojo_role : ClubRole;
  pojo_joined : Instant;
}.

Definition fromPOJO (pojo : POJO) : t :=
  mk (pojo_clubId pojo) (pojo_userId pojo) (pojo_role pojo) (pojo_joined pojo).

Definition toPOJO (this : t) : POJO :=
  {| _BRAND := "CLUB_MEMBER_POJO";
     pojo_clubId := clubId this;
     pojo_userId := userId this;
     pojo_role := role this;
     pojo_joined := joined this |}.

End ClubMember.

(** The feed items: the abstract class [ClubFeedItem] with its two
    subclasses is a variant with two constructors.  [Session] is the class
    of [session-models]. *)

Module ClubFeedItem.

Section Items.

Context {Session : Type}.

Inductive t :=
| ClubSessionFeedItem
    (clubId userId eventId : string) (timestamp expiry : Instant)
    (session : Session)
| ClubAnnouncementFeedItem
    (clubId userId eventId : string) (timestamp expiry : Instant)
    (announcement : string).

Definition clubId (i : t) : string :=
  match i with
  | ClubSessionFeedItem c _ _ _ _ _ | ClubAnnouncementFeedItem c _ _ _ _ _ => c
  end.

Definition userId (i : t) : string :=
  match i with
  | ClubSessionFeedItem _ u _ _ _ _ | ClubAnnouncementFeedItem _ u _ _ _ _ => u
  end.

Definition eventId (i : t) : string :=
  match i with
  | ClubSessionFeedItem _ _ e _ _ _ | ClubAnnouncementFeedItem _ _ e _ _ _ => e
  end.

Definition timestamp (i : t) : Instant :=
  match i with
  | ClubSessionFeedItem _ _ _ ts _ _ | ClubAnnouncementFeedItem _ _ _ ts _ _ => ts
  end.

Definition expiry (i : t) : Instant :=
  match i with
  | ClubSessionFeedItem _ _ _ _ x _ | ClubAnnouncementFeedItem _ _ _ _ x _ => x
  end.

Definition session (i : t) : option Session :=
  match i with
  | ClubSessionFeedItem _ _ _ _ _ s => Some s
  | ClubAnnouncementFeedItem _ _ _ _ _ _ => None
  end.

Definition announcement (i : t) : option string :=
  match i with
  | ClubSessionFeedItem _ _ _ _ _ _ => None
  | ClubAnnouncementFeedItem _ _ _ _ _ a => Some a
  end.

(** JavaScript truthiness of a [string | undefined]: [undefined] and the
    empty string are falsy. *)
Definition truthy_string (s : option string) : bool :=
  match s with
  | Some s => negb (String.eqb s "")
  | None => false
  end.

(** [withSession]: line 283 on a session item, line 343 on an announcement
    item.  A [Session] is an object, hence truthy whenever it is defined. *)
Definition withSession (this : t) (session : option Session) : t :=
  match this with
  | ClubSessionFeedItem c u e ts x _ =>
      match session with
      | None => this
      | Some s => ClubSessionFeedItem c u e ts x s
      end
  | ClubAnnouncementFeedItem _ _ _ _ _ _ => this
  end.

(** [withAnnouncement]: line 295 on a session item, line 347 on an
    announcement item ([if (!announcement) return this]). *)
Definition withAnnouncement (this : t) (announcement : option string) : t :=
  match this with
  | ClubSessionFeedItem _ _ _ _ _ _ => this
  | ClubAnnouncementFeedItem c u e ts x _ =>
      if negb (truthy_string announcement) then this
      else
        match announcement with
        | Some a => ClubAnnouncementFeedItem c u e ts x a
        | None => this
        end
  end.

End Items.

Arguments t : clear implicits.

(** The base interface [ClubFeedItemPOJO] (line 205). *)
Record POJO := mkPOJO {
  _BRAND : string;
  pojo_clubId : string;
  pojo_userId : string;
  pojo_eventId : string;
  pojo_timestamp : Instant;
  pojo_expiry : Instant;
}.

End ClubFeedItem.

Module ClubInvite.

Record POJO := mkPOJO {
  _BRAND : string;
  clubId : string;
  clubName : string;
  clubDescription : option string;
  clubProfilePicture : option (list byte);
  clubAesKey : AesKey;
  offeredRole : ClubRole;
  fromUserId : string;
  fromUserName : option string;
}.

End ClubInvite.

(** *** POJO conversions and feed-item updates *)

Module ModelFacts.

Lemma ClubSettings_fromPOJO_toPOJO (s : ClubSettings.t) :
  ClubSettings.fromPOJO (ClubSettings.toPOJO s) = s.
Proof. now destruct s. Qed.

Lemma Club_fromPOJO_toPOJO (c : Club.t) : Club.fromPOJO (Club.toPOJO c) = c.
Proof.
  destruct c. unfold Club.fromPOJO, Club.toPOJO. cbn.
  now rewrite ClubSettings_fromPOJO_toPOJO.
Qed.

Lemma ClubMember_fromPOJO_toPOJO (m : ClubMember.t) :
  ClubMember.fromPOJO (ClubMember.toPOJO m) = m.
Proof. now destruct m. Qed.

(** C8: [fromPOJO (toPOJO x)] rebuilds [x] for clubs, club settings and club
    members, and [toPOJO] stamps the brand of its own variant (also on the
    settings nested in a club). *)
Theorem fromPOJO_toPOJO_roundtrip :
  (forall c : Club.t,
      Club.fromPOJO (Club.toPOJO c) = c /\
      Club._BRAND (Club.toPOJO c) = "CLUB_POJO"%string /\
      ClubSettings._BRAND (Club.pojo_settings (Club.toPOJO c))
        = "CLUB_SETTINGS_POJO"%string) /\
  (forall s : ClubSettings.t,
      ClubSettings.fromPOJO (ClubSettings.toPOJO s) = s /\
      ClubSettings._BRAND (ClubSettings.toPOJO s) = "CLUB_SETTINGS_POJO"%string) /\
  (forall m : ClubMember.t,
      ClubMember.fromPOJO (ClubMember.toPOJO m) = m /\
      ClubMember._BRAND (ClubMember.toPOJO m) = "CLUB_MEMBER_POJO"%string).
Proof.
  repeat split.
  - apply Club_fromPOJO_toPOJO.
  - apply ClubSettings_fromPOJO_toPOJO.
  - apply ClubMember_fromPOJO_toPOJO.
Qed.

(** Field by field: every field read from the rebuilt club is the field of
    the original one. *)
Corollary Club_fromPOJO_toPOJO_fields (c : Club.t) :
  let c' := Club.fromPOJO (Club.toPOJO c) in
  Club.id c' = Club.id c /\ Club.ownerUserId c' = Club.ownerUserId c /\
  Club.created c' = Club.created c /\ Club.name c' = Club.name c /\
  Club.description c' = Club.description c /\
  Club.profilePicture c' = Club.profilePicture c /\
  Club.aesKey c' = Club.aesKey c /\ Club.isPublic c' = Club.isPublic c /\
  Club.settings c' = Club.settings c /\ Club.memberCount c' = Club.memberCount c.
Proof. cbv zeta. rewrite Club_fromPOJO_toPOJO. repeat split. Qed.

Import ClubFeedItem.

(** The base fields of a feed item. *)
Definition base {Session} (i : ClubFeedItem.t Session) :=
  (clubId i, userId i, eventId i, timestamp i, expiry i).

(** An update never touches the base fields and never changes the variant. *)
Lemma with_preserves_base {Session} (i : ClubFeedItem.t Session) s a :
  base (withSession i s) = base i /\ base (withAnnouncement i a) = base i.
Proof.
  destruct i, s as [s|], a as [a|]; cbn; try (split; reflexivity);
    destruct (String.eqb a ""); split; reflexivity.
Qed.

(** The empty announcement is falsy: the announcement item is returned as
    it was. *)
Lemma withAnnouncement_empty_string_ignored :
  withAnnouncement (Session := unit)
    (ClubAnnouncementFeedItem "club" "user" "event" epoch epoch "hello") (Some ""%string)
  <> ClubAnnouncementFeedItem "club" "user" "event" epoch epoch "".
Proof. cbn. discriminate. Qed.

(** C10: cross-variant updates are identities ([withAnnouncement] on a
    session item, [withSession] on an announcement item, for every
    argument); [withSession(undefined)] and [withAnnouncement(undefined)]
    are identities on both variants; a same-variant update with a defined
    payload changes the payload field only (to the given session; to the
    given announcement, or not at all when that is the empty string) and
    leaves [clubId], [userId], [eventId], [timestamp] and [expiry]
    unchanged. *)
Theorem feed_item_updates {Session} :
  (forall c u e ts x (s : Session) a,
      withAnnouncement (ClubSessionFeedItem c u e ts x s) a
      = ClubSessionFeedItem c u e ts x s) /\
  (forall c u e ts x an (s : option Session),
      withSession (ClubAnnouncementFeedItem c u e ts x an) s
      = ClubAnnouncementFeedItem c u e ts x an) /\
  (forall i : ClubFeedItem.t Session,
      withSession i None = i /\ withAnnouncement i None = i) /\
  (forall c u e ts x (old s : Session),
      withSession (ClubSessionFeedItem c u e ts x old) (Some s)
      = ClubSessionFeedItem c u e ts x s) /\
  (forall c u e ts x old a,
      withAnnouncement (Session := Session)
        (ClubAnnouncementFeedItem c u e ts x old) (Some a)
      = ClubAnnouncementFeedItem c u e ts x (if String.eqb a "" then old else a)) /\
  (forall (i : ClubFeedItem.t Session) s a,
      base (withSession i s) = base i /\ base (withAnnouncement i a) = base i).
Proof.
  repeat split; intros; try reflexivity;
    try apply with_preserves_base; try (now destruct i).
  cbn. now destruct (String.eqb a "").
Qed.

End ModelFacts.

(** ** The clubs slice ([app/store/clubs/index.ts])

    The reducers are written with in-place updates on a draft of the state;
    here each one is a function from the state and the payload to the next
    state, or to the error it throws.  [FeedUserPOJO] is the type of
    [feed-models]. *)

Module ClubsStore.

Import Js.

(** *** Dictionaries on a draft

    [createSlice] runs a reducer on an Immer draft of the state.  A
    dictionary of the state ([clubs], [clubMembers], [clubFeeds]) is a plain
    object: besides its own properties, which the [gmap] holds, it inherits
    the properties of [Object.prototype].  A state is taken to have no own
    property named [__proto__]: no assignment on a draft creates one. *)
Definition Object_prototype_names : list string :=
  ["constructor"; "__defineGetter__"; "__defineSetter__"; "hasOwnProperty";
   "__lookupGetter__"; "__lookupSetter__"; "isPrototypeOf";
   "propertyIsEnumerable"; "toString"; "valueOf"; "__proto__";
   "toLocaleString"]%string.

Definition inherited (k : string) : bool := bool_decide (k ∈ Object_prototype_names).

(** What a reducer throws: the draft refuses to have its prototype set;
    a [TypeError] for calling what is not a function or reading a property
    of [undefined]. *)
Inductive ReducerError := SetPrototypeError | TypeError.

(** The value of [dict[k]]: an own property, a property inherited from
    [Object.prototype] (a function or, for [__proto__], the prototype
    itself: truthy, and no array), or [undefined]. *)
Inductive property (V : Type) :=
| Own (v : V)
| Inherited
| Undefined.

Arguments Own {V} v.
Arguments Inherited {V}.
Arguments Undefined {V}.

Definition draft_get {V} (dict : gmap string V) (k : string) : property V :=
  match dict !! k with
  | Some v => Own v
  | None => if inherited k then Inherited else Undefined
  end.

(** [dict[k] = v] on a draft.  [__proto__] is an accessor property of
    [Object.prototype]: the assignment runs its setter on the draft, and a
    draft throws when its prototype is set.  Every other inherited property
    is a writable data property, and the assignment creates an own one. *)
Definition draft_set {V} (dict : gmap string V) (k : string) (v : V)
  : completion ReducerError (gmap string V) :=
  if decide (k = "__proto__"%string) then Throw SetPrototypeError
  else Normal (<[k := v]> dict).

(** [list.forEach((x) => { dict[key(x)] = x })] on a draft. *)
Fixpoint draft_set_each {V} (key : V -> string) (dict : gmap string V)
    (l : list V) : completion ReducerError (gmap string V) :=
  match l with
  | [] => Normal dict
  | x :: rest => d ← draft_set dict (key x) x; draft_set_each key d rest
  end.

Section Slice.

Context {FeedUserPOJO : Type}.

Record ClubsState := mkState {
  isHydrated : bool;
  clubs : gmap string Club.POJO;
  clubMembers : gmap string (gmap string FeedUserPOJO);
  clubFeeds : gmap string (list ClubFeedItem.POJO);
  clubInvites : list ClubInvite.POJO;
  discoveredClubs : list Club.POJO;
  selectedClubId : option string;
  isFetching : bool;
}.

Definition initialState : ClubsState :=
  {| isHydrated := false; clubs := ∅; clubMembers := ∅; clubFeeds := ∅;
     clubInvites := []; discoveredClubs := []; selectedClubId := None;
     isFetching := false |}.

Definition set_isFetching (b : bool) (s : ClubsState) : ClubsState :=
  mkState (isHydrated s) (clubs s) (clubMembers s) (clubFeeds s) (clubInvites s)
          (discoveredClubs s) (selectedClubId s) b.

Definition set_isHydrated (b : bool) (s : ClubsState) : ClubsState :=
  mkState b (clubs s) (clubMembers s) (clubFeeds s) (clubInvites s)
          (discoveredClubs s) (selectedClubId s) (isFetching s).

Definition set_clubs (m : gmap string Club.POJO) (s : ClubsState) : ClubsState :=
  mkState (isHydrated s) m (clubMembers s) (clubFeeds s) (clubInvites s)
          (discoveredClubs s) (selectedClubId s) (isFetching s).

Definition set_clubMembers (m : gmap string (gmap string FeedUserPOJO))
    (s : ClubsState) : ClubsState :=
  mkState (isHydrated s) (clubs s) m (clubFeeds s) (clubInvites s)
          (discoveredClubs s) (selectedClubId s) (isFetching s).

Definition set_clubFeeds (m : gmap string (list ClubFeedItem.POJO))
    (s : ClubsState) : ClubsState :=
  mkState (isHydrated s) (clubs s) (clubMembers s) m (clubInvites s)
          (discoveredClubs s) (selectedClubId s) (isFetching s).

Definition set_clubInvites (l : list ClubInvite.POJO) (s : ClubsState) : ClubsState :=
  mkState (isHydrated s) (clubs s) (clubMembers s) (clubFeeds s) l
          (discoveredClubs s) (selectedClubId s) (isFetching s).

Definition set_discoveredClubs (l : list Club.POJO) (s : ClubsState) : ClubsState :=
  mkState (isHydrated s) (clubs s) (clubMembers s) (clubFeeds s) (clubInvites s)
          l (selectedClubId s) (isFetching s).

Definition set_selectedClubId (c : option string) (s : ClubsState) : ClubsState :=
  mkState (isHydrated s) (clubs s) (clubMembers s) (clubFeeds s) (clubInvites s)
          (discoveredClubs s) c (isFetching s).

(** Club CRUD *)
Definition createClubStarted (state : ClubsState) : ClubsState :=
  set_isFetching true state.

Definition createClubCompleted (state : ClubsState) (club : Club.POJO)
  : completion ReducerError ClubsState :=
  m ← draft_set (clubs state) (Club.pojo_id club) club;
  Normal (set_isFetching false (set_clubs m state)).

Definition createClubFailed (state : ClubsState) : ClubsState :=
  set_isFetching false state.

(** Load user's clubs *)
Definition loadMyClubsStarted (state : ClubsState) : ClubsState :=
  set_isFetching true state.

Definition loadMyClubsCompleted (state : ClubsState) (cs : list Club.POJO)
  : completion ReducerError ClubsState :=
  m ← draft_set_each Club.pojo_id (clubs state) cs;
  Normal (set_isHydrated true (set_isFetching false (set_clubs m state))).

Definition loadMyClubsFailed (state : ClubsState) : ClubsState :=
  set_isFetching false state.

(** Search/discover clubs *)
Definition searchClubsStarted (state : ClubsState) : ClubsState :=
  set_isFetching true state.

Definition searchClubsCompleted (state : ClubsState) (cs : list Club.POJO)
  : ClubsState :=
  set_isFetching false (set_discoveredClubs cs state).

Definition searchClubsFailed (state : ClubsState) : ClubsState :=
  set_isFetching false state.

(** Join club *)
Definition joinClubStarted (state : ClubsState) : ClubsState :=
  set_isFetching true state.

Definition joinClubCompleted (state : ClubsState) (club : Club.POJO)
  : completion ReducerError ClubsState :=
  m ← draft_set (clubs state) (Club.pojo_id club) club;
  Normal (set_isFetching false (set_clubs m state)).

Definition joinClubFailed (state : ClubsState) : ClubsState :=
  set_isFetching false state.

(** Leave club (line 134): three [delete]s.  [delete dict[k]] removes an
    own property and does nothing else, whatever the key. *)
Definition leaveClubCompleted (state : ClubsState) (clubId : string) : ClubsState :=
  set_clubFeeds (delete clubId (clubFeeds state))
    (set_clubMembers (delete clubId (clubMembers state))
       (set_clubs (delete clubId (clubs state)) state)).

(** Club members *)
Definition loadClubMembersCompleted (state : ClubsState) (clubId : string)
    (members : gmap string FeedUserPOJO) : completion ReducerError ClubsState :=
  m ← draft_set (clubMembers state) clubId members;
  Normal (set_clubMembers m state).

(** Club feed *)
Definition loadClubFeedCompleted (state : ClubsState) (clubId : string)
    (items : list ClubFeedItem.POJO) : completion ReducerError ClubsState :=
  m ← draft_set (clubFeeds state) clubId items;
  Normal (set_clubFeeds m state).

(** [postToClubFeedCompleted] (line 155).  An array is truthy, also when
    it is empty; so is an inherited property, which has no [unshift]. *)
Definition postToClubFeedCompleted (state : ClubsState) (clubId : string)
    (item : ClubFeedItem.POJO) : completion ReducerError ClubsState :=
  feeds ←
    match draft_get (clubFeeds state) clubId with
    | Undefined => draft_set (clubFeeds state) clubId []
    | Own _ | Inherited => Normal (clubFeeds state)
    end;
  match draft_get feeds clubId with
  | Own feed => Normal (set_clubFeeds (<[clubId := item :: feed]> feeds) state)
  | Inherited | Undefined => Throw TypeError
  end.

(** Club invites *)
Definition clubInviteReceived (state : ClubsState) (invite : ClubInvite.POJO)
  : ClubsState :=
  set_clubInvites (clubInvites state ++ [invite]) state.

(** The payload of [acceptClubInviteCompleted]: [{ clubId; club }]. *)
Record AcceptPayload := { accept_clubId : string; accept_club : Club.POJO }.

(** [acceptClubInviteCompleted] (line 169): the invites of [payload.clubId]
    are filtered out, the club is stored under [payload.club.id]. *)
Definition acceptClubInviteCompleted (state : ClubsState) (payload : AcceptPayload)
  : completion ReducerError ClubsState :=
  let state1 :=
    set_clubInvites
      (filter (fun i => ClubInvite.clubId i <> accept_clubId payload)
              (clubInvites state))
      state in
  m ← draft_set (clubs state1) (Club.pojo_id (accept_club payload))
        (accept_club payload);
  Normal (set_clubs m state1).

Definition declineClubInviteCompleted (state : ClubsState) (clubId : string)
  : ClubsState :=
  set_clubInvites
    (filter (fun i => ClubInvite.clubId i <> clubId) (clubInvites state)) state.

(** UI state *)
Definition selectClub (state : ClubsState) (clubId : option string) : ClubsState :=
  set_selectedClubId clubId state.

(** The records of the state that are stored for club [c]. *)
Definition club_records (c : string) (state : ClubsState)
  : list (string * Club.POJO) :=
  filter (fun kv => kv.1 = c) (map_to_list (clubs state)).

(** The pending invites of the state for club [c]. *)
Definition pending_invites (c : string) (state : ClubsState) : list ClubInvite.POJO :=
  filter (fun i => ClubInvite.clubId i = c) (clubInvites state).

End Slice.

Arguments ClubsState : clear implicits.

(** A state with one pending invite for club ["b"], and an acceptance whose
    [clubId] is ["a"] while the accepted club has id ["b"]. *)
Definition key0 : AesKey := {| key_value := [] |}.

Definition settings0 : ClubSettings.POJO :=
  ClubSettings.mkPOJO "CLUB_SETTINGS_POJO" true false 50.

Definition club_b : Club.POJO :=
  Club.mkPOJO "CLUB_POJO" "b" "owner-1" epoch "Lifters" None None key0
              false settings0 1.

Definition invite_b : ClubInvite.POJO :=
  ClubInvite.mkPOJO "CLUB_INVITE_POJO" "b" "Lifters" None None key0 member
                    "owner-1" None.

Definition state_b : ClubsState unit :=
  set_clubInvites [invite_b] initialState.

Definition payload_ab : AcceptPayload :=
  {| accept_clubId := "a"; accept_club := club_b |}.

End ClubsStore.

(** *** Facts about the reducers *)

Module ClubsStoreFacts.

Import Js ClubsStore.

Section Facts.

Context {FeedUserPOJO : Type}.
Implicit Types (s : ClubsState FeedUserPOJO) (p : AcceptPayload).

Lemma filter_idemp {A} (P : A -> Prop) `{!forall x, Decision (P x)} (l : list A) :
  filter P (filter P l) = filter P l.
Proof.
  induction l as [|x l IH]; [reflexivity|].
  rewrite filter_cons. destruct (decide (P x)) as [HP|HP]; [|exact IH].
  rewrite filter_cons. destruct (decide (P x)); [|contradiction].
  now rewrite IH.
Qed.

Lemma filter_all_rejected {A} (P : A -> Prop) `{!forall x, Decision (P x)}
    (l : list A) :
  (forall x, x ∈ l -> ~ P x) -> filter P l = [].
Proof.
  induction l as [|x l IH]; intros Hl; [reflexivity|].
  rewrite filter_cons. destruct (decide (P x)) as [HP|_].
  - destruct (Hl x); [left|exact HP].
  - apply IH. intros y Hy. apply Hl. now right.
Qed.

Lemma filter_none {A} (P Q : A -> Prop) `{!forall x, Decision (P x)}
    `{!forall x, Decision (Q x)} (l : list A) :
  (forall x, P x -> Q x -> False) -> filter P (filter Q l) = [].
Proof.
  intros Hex. induction l as [|x l IH]; [reflexivity|].
  rewrite (filter_cons Q). destruct (decide (Q x)) as [HQ|HQ]; [|exact IH].
  rewrite filter_cons. destruct (decide (P x)) as [HP|HP]; [|exact IH].
  destruct (Hex x HP HQ).
Qed.

(** A key that is bound in a map has exactly one record in its listing. *)
Lemma map_records_lookup {V} (m : gmap string V) (k : string) (v : V) :
  m !! k = Some v -> filter (fun kv => kv.1 = k) (map_to_list m) = [(k, v)].
Proof.
  intros Hk.
  assert (Hp : map_to_list m ≡ₚ (k, v) :: map_to_list (delete k m)).
  { rewrite <- (insert_delete_id m k v Hk) at 1.
    apply map_to_list_insert, lookup_delete_eq. }
  apply Permutation_singleton_r.
  rewrite Hp, filter_cons. cbn. destruct (decide (k = k)); [|contradiction].
  constructor.
  assert (E : filter (fun kv : string * V => kv.1 = k) (map_to_list (delete k m)) = []).
  { apply filter_all_rejected. intros [k' v'] Hin Heq. cbn in Heq. subst k'.
    apply elem_of_map_to_list in Hin. rewrite lookup_delete_eq in Hin. discriminate. }
  now rewrite E.
Qed.

Lemma draft_set_ok {V} (dict : gmap string V) (k : string) (v : V) :
  k <> "__proto__"%string -> draft_set dict k v = Normal (<[k := v]> dict).
Proof. intros Hk. unfold draft_set. now rewrite decide_False. Qed.

Lemma draft_set_proto {V} (dict : gmap string V) (v : V) :
  draft_set dict "__proto__" v = Throw SetPrototypeError.
Proof. reflexivity. Qed.

(** An acceptance whose club id can be assigned: the invites of
    [payload.clubId] are gone and the club is stored. *)
Lemma accept_normal s p :
  Club.pojo_id (accept_club p) <> "__proto__"%string ->
  acceptClubInviteCompleted s p
  = Normal
      (set_clubs (<[Club.pojo_id (accept_club p) := accept_club p]> (clubs s))
         (declineClubInviteCompleted s (accept_clubId p))).
Proof.
  intros Hk. unfold acceptClubInviteCompleted. cbn [clubs set_clubInvites].
  now rewrite draft_set_ok.
Qed.

(** With the club id [__proto__] the reducer throws; the store keeps the
    state it had. *)
Lemma accept_proto_throws s p :
  Club.pojo_id (accept_club p) = "__proto__"%string ->
  acceptClubInviteCompleted s p = Throw SetPrototypeError.
Proof. intros Hk. unfold acceptClubInviteCompleted. now rewrite Hk. Qed.

Lemma accept_idempotent s p :
  Club.pojo_id (accept_club p) <> "__proto__"%string ->
  exists s', acceptClubInviteCompleted s p = Normal s' /\
             acceptClubInviteCompleted s' p = Normal s'.
Proof.
  intros Hk. eexists. split; [now apply accept_normal|].
  rewrite accept_normal by exact Hk. f_equal.
  unfold declineClubInviteCompleted, set_clubs, set_clubInvites. cbn.
  f_equal.
  - apply insert_insert_eq.
  - apply filter_idemp.
Qed.

Lemma accept_club_record s p s' :
  acceptClubInviteCompleted s p = Normal s' ->
  club_records (Club.pojo_id (accept_club p)) s'
  = [(Club.pojo_id (accept_club p), accept_club p)].
Proof.
  unfold acceptClubInviteCompleted, draft_set.
  case_decide; [discriminate|]. intros [= <-].
  unfold club_records. apply map_records_lookup. cbn. apply lookup_insert_eq.
Qed.

Lemma accept_no_pending s p s' :
  acceptClubInviteCompleted s p = Normal s' ->
  pending_invites (accept_clubId p) s' = [].
Proof.
  unfold acceptClubInviteCompleted, draft_set.
  case_decide; [discriminate|]. intros [= <-].
  unfold pending_invites. cbn. apply filter_none. intros i H1 H2. contradiction.
Qed.

(** C4, amended: for a payload whose club id can be assigned on the draft
    (any id but [__proto__]) the reducer returns a state and is idempotent;
    afterwards the club is stored exactly once, under the id carried by
    [payload.club], and no invite is pending for [payload.clubId].  The two
    ids are two fields of the payload. *)
Theorem acceptClubInviteCompleted_idempotent s p :
  Club.pojo_id (accept_club p) <> "__proto__"%string ->
  exists s',
    acceptClubInviteCompleted s p = Normal s' /\
    acceptClubInviteCompleted s' p = Normal s' /\
    club_records (Club.pojo_id (accept_club p)) s'
      = [(Club.pojo_id (accept_club p), accept_club p)] /\
    pending_invites (accept_clubId p) s' = [].
Proof.
  intros Hk. destruct (accept_idempotent s p Hk) as (s' & H1 & H2).
  exists s'. split; [exact H1|]. split; [exact H2|].
  split; [eapply accept_club_record, H1|eapply accept_no_pending, H1].
Qed.

(** When the payload names the same club twice, "that club id" is
    unambiguous and has one record and no pending invite. *)
Corollary accept_same_id s p s' :
  accept_clubId p = Club.pojo_id (accept_club p) ->
  acceptClubInviteCompleted s p = Normal s' ->
  club_records (accept_clubId p) s' = [(accept_clubId p, accept_club p)] /\
  pending_invites (accept_clubId p) s' = [].
Proof.
  intros E H. split; [|eapply accept_no_pending, H].
  rewrite E. eapply accept_club_record, H.
Qed.

(** C7: after [leaveClubCompleted] for club [C] the three dictionaries have
    no entry for [C], every other entry is the one of the state before, and
    the remaining fields are unchanged. *)
Theorem leaveClubCompleted_frame s (C : string) :
  let s' := leaveClubCompleted s C in
  (forall c, clubs s' !! c = if decide (c = C) then None else clubs s !! c) /\
  (forall c, clubMembers s' !! c
             = if decide (c = C) then None else clubMembers s !! c) /\
  (forall c, clubFeeds s' !! c = if decide (c = C) then None else clubFeeds s !! c) /\
  clubInvites s' = clubInvites s /\
  discoveredClubs s' = discoveredClubs s /\
  selectedClubId s' = selectedClubId s /\
  isFetching s' = isFetching s /\
  isHydrated s' = isHydrated s.
Proof.
  cbv zeta. cbn.
  repeat split; intros c; case_decide as E;
    solve [ subst c; apply lookup_delete_eq
          | apply lookup_delete_ne; congruence ].
Qed.

End Facts.

(** C4 as stated fails on that input, whichever of the two ids "that club
    id" is read as: there is no club record for ["a"], and the invite for
    ["b"] is still pending. *)
Lemma accept_mismatched_ids :
  exists s',
    acceptClubInviteCompleted state_b payload_ab = Normal s' /\
    club_records "a" s' = [] /\ pending_invites "b" s' = [invite_b].
Proof.
  eexists. split; [reflexivity|]. split; vm_compute; reflexivity.
Qed.

(** C4 on that input: the second acceptance changes nothing, club ["b"] has
    one record and no invite is pending for ["a"]. *)
Lemma accept_idempotent_witness :
  exists s',
    acceptClubInviteCompleted state_b payload_ab = Normal s' /\
    acceptClubInviteCompleted s' payload_ab = Normal s' /\
    club_records "b" s' = [("b"%string, club_b)] /\
    pending_invites "a" s' = [].
Proof.
  apply (acceptClubInviteCompleted_idempotent state_b payload_ab).
  discriminate.
Defined.

End ClubsStoreFacts.

(** ** Request and response shapes ([club-api-models.ts])

    Responses are parameterised by the representation [B] of byte arrays:
    base64 text on the wire ([Base64Response<T>]), [list byte] once
    converted. *)

Module ApiModels.

(** A JavaScript string given by its code units, as base64 text is handled. *)
Definition jsstring := list Z.

Module CreateClubRequest.
Record t := mk {
  userId : string;
  password : string;
  encryptedName : list byte;
  encryptedDescription : option (list byte);
  encryptedProfilePicture : option (list byte);
  encryptionIv : list byte;
  isPublic : bool;
  membersCanPost : bool;
  membersCanInvite : bool;
  maxMembers : Z;
}.
End CreateClubRequest.

Module CreateClubResponse.
Record t := mk { clubId : string; created : string }.
End CreateClubResponse.

Module GetClubResponse.
Record t {B : Type} := mk {
  id : string;
  ownerUserId : string;
  created : string;
  encryptedName : B;
  encryptedDescription : option B;
  encryptedProfilePicture : option B;
  encryptionIv : B;
  isPublic : bool;
  membersCanPost : bool;
  membersCanInvite : bool;
  maxMembers : Z;
  memberCount : Z;
}.
Arguments t : clear implicits.
Arguments mk {B}.
End GetClubResponse.

Module UpdateClubRequest.
Record t := mk {
  clubId : string;
  userId : string;
  password : string;
  encryptedName : option (list byte);
  encryptedDescription : option (list byte);
  encryptedProfilePicture : option (list byte);
  encryptionIv : option (list byte);
  isPublic : option bool;
  membersCanPost : option bool;
  membersCanInvite : option bool;
  maxMembers : option Z;
}.
End UpdateClubRequest.

Module DeleteClubRequest.
Record t := mk { clubId : string; userId : string; password : string }.
End DeleteClubRequest.

Module SearchClubsRequest.
Record t := mk { query : option string; limit : option Z; offset : option Z }.
End SearchClubsRequest.

Module SearchClubsResponse.
Record t {B : Type} := mk { clubs : list (GetClubResponse.t B); total : Z }.
Arguments t : clear implicits.
Arguments mk {B}.
End SearchClubsResponse.

Module GetMyClubsRequest.
Record t := mk { userId : string; password : string }.
End GetMyClubsRequest.

Module GetMyClubsResponse.
Record t {B : Type} := mk { clubs : list (GetClubResponse.t B) }.
Arguments t : clear implicits.
Arguments mk {B}.
End GetMyClubsResponse.

Module ClubMemberResponse.
Record t {B : Type} := mk {
  id : string;
  clubId : string;
  userId : string;
  joined : string;
  role : ClubRole;
  encryptedAesKey : B;
}.
Arguments t : clear implicits.
Arguments mk {B}.
End ClubMemberResponse.

Module GetClubMembersRequest.
Record t := mk { clubId : string; userId : string; password : string }.
End GetClubMembersRequest.

Module GetClubMembersResponse.
Record t {B : Type} := mk { members : list (ClubMemberResponse.t B) }.
Arguments t : clear implicits.
Arguments mk {B}.
End GetClubMembersResponse.

Module InviteToClubRequest.
Record t := mk {
  clubId : string;
  inviterUserId : string;
  inviterPassword : string;
  inviteeUserId : string;
  encryptedClubName : list byte;
  encryptedClubDescription : list byte;
  encryptedProfilePicture : option (list byte);
  encryptedAesKey : list byte;
  offeredRole : ClubRole;
}.
End InviteToClubRequest.

Module JoinPublicClubRequest.
Record t := mk { clubId : string; userId : string; password : string }.
End JoinPublicClubRequest.

Module AcceptClubInviteRequest.
Record t := mk {
  clubId : string;
  userId : string;
  password : string;
  encryptedAesKey : list byte;
}.
End AcceptClubInviteRequest.

Module LeaveClubRequest.
Record t := mk { clubId : string; userId : string; password : string }.
End LeaveClubRequest.

Module RemoveClubMemberRequest.
Record t := mk {
  clubId : string;
  adminUserId : string;
  adminPassword : string;
  memberUserId : string;
}.
End RemoveClubMemberRequest.

Module UpdateMemberRoleRequest.
Record t := mk {
  clubId : string;
  adminUserId : string;
  adminPassword : string;
  memberUserId : string;
  newRole : ClubRole;
}.
End UpdateMemberRoleRequest.

Module ClubEventResponse.
Record t {B : Type} := mk {
  id : string;
  clubId : string;
  userId : string;
  timestamp : string;
  expiry : string;
  encryptedEvent : B;
  encryptionIv : B;
}.
Arguments t : clear implicits.
Arguments mk {B}.
End ClubEventResponse.

Module PostClubEventRequest.
Record t := mk {
  clubId : string;
  userId : string;
  password : string;
  eventId : string;
  encryptedEvent : list byte;
  encryptionIv : list byte;
  expiry : string;
}.
End PostClubEventRequest.

Module GetClubEventsRequest.
Record t := mk {
  clubId : string;
  userId : string;
  password : string;
  since : option string;
  limit : option Z;
}.
End GetClubEventsRequest.

Module GetClubEventsResponse.
Record t {B : Type} := mk { events : list (ClubEventResponse.t B) }.
Arguments t : clear implicits.
Arguments mk {B}.
End GetClubEventsResponse.

End ApiModels.

(** ** [ClubApiService] ([app/services/club-api.ts]) *)

Module ClubApiService.

Import Js ApiModels.

(** What the service reads of a [FetchResponse]: the status line, and
    what [response.text()] resolves with; reading the body rejects when
    the connection fails before the body has arrived. *)
Record ResponseInfo := {
  status : Z;
  statusText : string;
  text : completion (option string) string;
}.

(** [response.ok]: the status is in the range 200-299. *)
Definition ok (r : ResponseInfo) : bool := (200 <=? status r) && (status r <=? 299).

(** A [ResponseError] carries the response it was built from; its
    [message] is set by the constructor of [services/api-error]. *)
Record ResponseError := {
  response : ResponseInfo;
  error_message : string;
}.

(** A thrown value: a [ResponseError], or anything else, given by its
    [message] property when it has one. *)
Inductive Thrown :=
| ThrownResponseError (e : ResponseError)
| ThrownOther (message : option string).

(** The members of [ApiErrorType] that the service uses. *)
Inductive ApiErrorType := NotFound | Unauthorized | RateLimited | Unknown.

Record ApiError := {
  type : ApiErrorType;
  message : string;
  exception : Thrown;
}.

(** [ApiResult<T>]: built by [new ApiResult(data)] or [ApiResult.fromError]. *)
Inductive ApiResult (T : Type) :=
| ApiResult_new (data : T)
| fromError (error : ApiError).

Arguments ApiResult_new {T} data.
Arguments fromError {T} error.

Definition isError {T} (r : ApiResult T) : bool :=
  match r with ApiResult_new _ => false | fromError _ => true end.

(** The operations of the service. *)
Inductive Operation :=
| createClub | getClub | updateClub | deleteClub | searchClubs | getMyClubs
| getClubMembers | inviteToClub | joinPublicClub | acceptClubInvite
| leaveClub | removeClubMember | updateMemberRole
| postClubEvent | getClubEvents.

Definition Request (op : Operation) : Type :=
  match op with
  | createClub => CreateClubRequest.t
  | getClub => string
  | updateClub => UpdateClubRequest.t
  | deleteClub => DeleteClubRequest.t
  | searchClubs => SearchClubsRequest.t
  | getMyClubs => GetMyClubsRequest.t
  | getClubMembers => GetClubMembersRequest.t
  | inviteToClub => InviteToClubRequest.t
  | joinPublicClub => JoinPublicClubRequest.t
  | acceptClubInvite => AcceptClubInviteRequest.t
  | leaveClub => LeaveClubRequest.t
  | removeClubMember => RemoveClubMemberRequest.t
  | updateMemberRole => UpdateMemberRoleRequest.t
  | postClubEvent => PostClubEventRequest.t
  | getClubEvents => GetClubEventsRequest.t
  end.

(** The shape of a response body, bytes being [B]. *)
Definition Response (B : Type) (op : Operation) : Type :=
  match op with
  | createClub => CreateClubResponse.t
  | getClub => GetClubResponse.t B
  | searchClubs => SearchClubsResponse.t B
  | getMyClubs => GetMyClubsResponse.t B
  | getClubMembers => GetClubMembersResponse.t B
  | getClubEvents => GetClubEventsResponse.t B
  | _ => unit
  end.

(** [Base64Response<T>], the type [response.json()] is cast to. *)
Definition Wire (op : Operation) : Type := Response jsstring op.

(** The result type [T] of an operation. *)
Definition Result (op : Operation) : Type := Response (list byte) op.

(** The body given to [fetch]: [stringify(request)], kept as the request
    it serialises. *)
Inductive Body :=
| NoBody
| JsonBody (op : Operation) (request : Request op).

Record HttpRequest := {
  url : string;
  method : string;
  content_type_json : bool;
  body : Body;
}.

(** The response [fetch] resolves with: [response.json()] resolves with a
    value of the type the operation casts it to, or rejects. *)
Record FetchResponse (J : Type) := {
  info : ResponseInfo;
  json : completion (option string) J;
}.

Arguments info {J} _.
Arguments json {J} _.

(** [fetch] resolves with a response or rejects (network failure). *)
Inductive FetchOutcome (J : Type) :=
| FetchRejected (message : option string)
| FetchResolved (response : FetchResponse J).

Arguments FetchRejected {J} message.
Arguments FetchResolved {J} response.

Section Service.

(** [this.baseUrl], fixed by the constructor from [__DEV__] and the platform. *)
Variable baseUrl : string.

(** The [message] that [new ResponseError(response)] gives the error. *)
Variable ResponseError_message : ResponseInfo -> string.

(** The environment: what [fetch] answers to a request of an operation. *)
Variable fetch : forall op : Operation, HttpRequest -> FetchOutcome (Wire op).

(** The engine: how many arguments a call may be given. *)
Variable max_arguments : Z.

Definition await_fetch (op : Operation) (r : HttpRequest)
  : completion Thrown (FetchResponse (Wire op)) :=
  match fetch op r with
  | FetchRejected m => Throw (ThrownOther m)
  | FetchResolved resp => Normal resp
  end.

Definition await_json {J} (resp : FetchResponse J) : completion Thrown J :=
  match json resp with
  | Normal j => Normal j
  | Throw m => Throw (ThrownOther m)
  end.

Definition await_text (response : ResponseInfo) : completion Thrown string :=
  match text response with
  | Normal t => Normal t
  | Throw m => Throw (ThrownOther m)
  end.

(** [ensureSuccessStatusCode] (line 398). *)
Definition ensureSuccessStatusCode {J} (resp : FetchResponse J)
  : completion Thrown unit :=
  if negb (ok (info resp))
  then Throw (ThrownResponseError
                {| response := info resp;
                   error_message := ResponseError_message (info resp) |})
  else Normal tt.

(** [base64ToUint8Array] inside an action: [atob]'s exception is thrown on. *)
Definition base64ToUint8Array (value : jsstring) : completion Thrown (list byte) :=
  match Base64.base64ToUint8Array value with
  | Normal b => Normal b
  | Throw name => Throw (ThrownOther (Some name))
  end.

(** [v ? base64ToUint8Array(v) : undefined]: a missing or empty text is falsy. *)
Definition base64ToUint8Array_optional (value : option jsstring)
  : completion Thrown (option (list byte)) :=
  match value with
  | None | Some [] => Normal None
  | Some v => b ← base64ToUint8Array v; Normal (Some b)
  end.

(** The object literal of lines 75-92 (and 131-148, 167-184). *)
Definition convert_club (club : GetClubResponse.t jsstring)
  : completion Thrown (GetClubResponse.t (list byte)) :=
  encryptedName ← base64ToUint8Array (GetClubResponse.encryptedName club);
  encryptedDescription ←
    base64ToUint8Array_optional (GetClubResponse.encryptedDescription club);
  encryptedProfilePicture ←
    base64ToUint8Array_optional (GetClubResponse.encryptedProfilePicture club);
  encryptionIv ← base64ToUint8Array (GetClubResponse.encryptionIv club);
  Normal
    (GetClubResponse.mk
       (GetClubResponse.id club) (GetClubResponse.ownerUserId club)
       (GetClubResponse.created club)
       encryptedName encryptedDescription encryptedProfilePicture encryptionIv
       (GetClubResponse.isPublic club) (GetClubResponse.membersCanPost club)
       (GetClubResponse.membersCanInvite club) (GetClubResponse.maxMembers club)
       (GetClubResponse.memberCount club)).

(** The object literal of lines 207-214. *)
Definition convert_member (m : ClubMemberResponse.t jsstring)
  : completion Thrown (ClubMemberResponse.t (list byte)) :=
  encryptedAesKey ← base64ToUint8Array (ClubMemberResponse.encryptedAesKey m);
  Normal
    (ClubMemberResponse.mk
       (ClubMemberResponse.id m) (ClubMemberResponse.clubId m)
       (ClubMemberResponse.userId m) (ClubMemberResponse.joined m)
       (ClubMemberResponse.role m) encryptedAesKey).

(** The object literal of lines 334-342. *)
Definition convert_event (e : ClubEventResponse.t jsstring)
  : completion Thrown (ClubEventResponse.t (list byte)) :=
  encryptedEvent ← base64ToUint8Array (ClubEventResponse.encryptedEvent e);
  encryptionIv ← base64ToUint8Array (ClubEventResponse.encryptionIv e);
  Normal
    (ClubEventResponse.mk
       (ClubEventResponse.id e) (ClubEventResponse.clubId e)
       (ClubEventResponse.userId e) (ClubEventResponse.timestamp e)
       (ClubEventResponse.expiry e) encryptedEvent encryptionIv).

Definition json_request (op : Operation) (m path : string) (request : Request op)
  : HttpRequest :=
  {| url := baseUrl +:+ path; method := m; content_type_json := true;
     body := JsonBody op request |}.

(** The request an operation sends, [None] when it sends none. *)
Definition http_request (op : Operation) : Request op -> option HttpRequest :=
  match op return Request op -> option HttpRequest with
  | createClub => fun request =>
      Some (json_request createClub "POST" "club/create" request)
  | getClub => fun clubId =>
      Some {| url := baseUrl +:+ "club/" +:+ clubId; method := "GET";
              content_type_json := false; body := NoBody |}
  | updateClub => fun request =>
      Some (json_request updateClub "PUT"
              ("club/" +:+ UpdateClubRequest.clubId request) request)
  | deleteClub => fun request =>
      Some (json_request deleteClub "DELETE"
              ("club/" +:+ DeleteClubRequest.clubId request) request)
  | searchClubs => fun request =>
      Some (json_request searchClubs "POST" "club/search" request)
  | getMyClubs => fun request =>
      Some (json_request getMyClubs "POST" "club/my-clubs" request)
  | getClubMembers => fun request =>
      Some (json_request getClubMembers "POST"
              ("club/" +:+ GetClubMembersRequest.clubId request +:+ "/members")
              request)
  | inviteToClub => fun request =>
      Some (json_request inviteToClub "POST"
              ("club/" +:+ InviteToClubRequest.clubId request +:+ "/invite") request)
  | joinPublicClub => fun request =>
      Some (json_request joinPublicClub "POST"
              ("club/" +:+ JoinPublicClubRequest.clubId request +:+ "/join") request)
  | acceptClubInvite => fun _ => None
  | leaveClub => fun request =>
      Some (json_request leaveClub "POST"
              ("club/" +:+ LeaveClubRequest.clubId request +:+ "/leave") request)
  | removeClubMember => fun request =>
      Some (json_request removeClubMember "DELETE"
              ("club/" +:+ RemoveClubMemberRequest.clubId request +:+ "/member/"
                 +:+ RemoveClubMemberRequest.memberUserId request) request)
  | updateMemberRole => fun request =>
      Some (json_request updateMemberRole "PUT"
              ("club/" +:+ UpdateMemberRoleRequest.clubId request +:+ "/member/"
                 +:+ UpdateMemberRoleRequest.memberUserId request +:+ "/role")
              request)
  | postClubEvent => fun request =>
      Some (json_request postClubEvent "PUT"
              ("club/" +:+ PostClubEventRequest.clubId request +:+ "/event") request)
  | getClubEvents => fun request =>
      Some (json_request getClubEvents "POST"
              ("club/" +:+ GetClubEventsRequest.clubId request +:+ "/events") request)
  end.

(** The conversion an action applies to the parsed body. *)
Definition convert (op : Operation) : Wire op -> completion Thrown (Result op) :=
  match op return Wire op -> completion Thrown (Result op) with
  | createClub => fun j => Normal j
  | getClub => convert_club
  | searchClubs => fun j =>
      clubs ← mapM convert_club (SearchClubsResponse.clubs j);
      Normal (SearchClubsResponse.mk clubs (SearchClubsResponse.total j))
  | getMyClubs => fun j =>
      clubs ← mapM convert_club (GetMyClubsResponse.clubs j);
      Normal (GetMyClubsResponse.mk clubs)
  | getClubMembers => fun j =>
      members ← mapM convert_member (GetClubMembersResponse.members j);
      Normal (GetClubMembersResponse.mk members)
  | getClubEvents => fun j =>
      events ← mapM convert_event (GetClubEventsResponse.events j);
      Normal (GetClubEventsResponse.mk events)
  | updateClub | deleteClub | inviteToClub | joinPublicClub | acceptClubInvite
  | leaveClub | removeClubMember | updateMemberRole | postClubEvent =>
      fun _ => Normal tt
  end.

(** The byte arrays among the properties of a request. *)
Definition byte_arrays (op : Operation) : Request op -> list (list byte) :=
  match op return Request op -> list (list byte) with
  | createClub => fun r =>
      [CreateClubRequest.encryptedName r]
      ++ option_list (CreateClubRequest.encryptedDescription r)
      ++ option_list (CreateClubRequest.encryptedProfilePicture r)
      ++ [CreateClubRequest.encryptionIv r]
  | updateClub => fun r =>
      option_list (UpdateClubRequest.encryptedName r)
      ++ option_list (UpdateClubRequest.encryptedDescription r)
      ++ option_list (UpdateClubRequest.encryptedProfilePicture r)
      ++ option_list (UpdateClubRequest.encryptionIv r)
  | inviteToClub => fun r =>
      [InviteToClubRequest.encryptedClubName r;
       InviteToClubRequest.encryptedClubDescription r]
      ++ option_list (InviteToClubRequest.encryptedProfilePicture r)
      ++ [InviteToClubRequest.encryptedAesKey r]
  | acceptClubInvite => fun r => [AcceptClubInviteRequest.encryptedAesKey r]
  | postClubEvent => fun r =>
      [PostClubEventRequest.encryptedEvent r; PostClubEventRequest.encryptionIv r]
  | getClub | deleteClub | searchClubs | getMyClubs | getClubMembers
  | joinPublicClub | leaveClub | removeClubMember | updateMemberRole
  | getClubEvents => fun _ => []
  end.

(** [uint8ArrayToBase64] inside [stringify]: its exception is thrown on. *)
Definition uint8ArrayToBase64 (value : list byte) : completion Thrown jsstring :=
  match Base64.uint8ArrayToBase64 max_arguments value with
  | Normal t => Normal t
  | Throw name => Throw (ThrownOther (Some name))
  end.

(** A byte array that can be spread into an argument list, and a request
    all of whose byte arrays can. *)
Definition fits (value : list byte) : Prop :=
  Z.of_nat (length value) <= max_arguments.

Definition serialisable (op : Operation) (request : Request op) : Prop :=
  Forall fits (byte_arrays op request).

(** [stringify] (line 405): the replacer writes every byte array of the
    request as base64 text and throws when one of them cannot be written.
    The text itself is kept as the request it serialises. *)
Definition stringify (op : Operation) (request : Request op)
  : completion Thrown Body :=
  _ ← mapM uint8ArrayToBase64 (byte_arrays op request);
  Normal (JsonBody op request).

(** The options object of a [fetch] call is built before [fetch] is
    called: its [body] is [stringify(request)]. *)
Definition build_body (r : HttpRequest) : completion Thrown Body :=
  match body r with
  | NoBody => Normal NoBody
  | JsonBody op request => stringify op request
  end.

(** Whether the action reads [response.json()]. *)
Definition reads_json (op : Operation) : bool :=
  match op with
  | createClub | getClub | searchClubs | getMyClubs | getClubMembers
  | getClubEvents => true
  | _ => false
  end.

Definition void_result (op : Operation) : reads_json op = false -> Result op :=
  match op return reads_json op = false -> Result op with
  | createClub | getClub | searchClubs | getMyClubs | getClubMembers
  | getClubEvents => fun H => match Bool.diff_true_false H with end
  | _ => fun _ => tt
  end.

(** The closure an operation hands to [getApiResultAsync]. *)
Definition action (op : Operation) (request : Request op)
  : completion Thrown (Result op) :=
  match http_request op request with
  | None =>
      (* acceptClubInviteAsync, lines 250-252 *)
      Throw (ThrownOther (Some "Not implemented - use inbox system"%string))
  | Some r =>
      _ ← build_body r;
      resp ← await_fetch op r;
      _ ← ensureSuccessStatusCode resp;
      match reads_json op as b return reads_json op = b -> _ with
      | true => fun _ => j ← await_json resp; convert op j
      | false => fun H => Normal (void_result op H)
      end eq_refl
  end.

(** [(error as { message: string })?.message || 'An unknown error occurred']. *)
Definition message_or_default (error : Thrown) : string :=
  let m :=
    match error with
    | ThrownResponseError e => Some (error_message e)
    | ThrownOther m => m
    end in
  match m with
  | Some s => if String.eqb s "" then "An unknown error occurred"%string else s
  | None => "An unknown error occurred"%string
  end.

(** [getApiResultAsync] (line 349). *)
Definition getApiResultAsync {T} (action : completion Thrown T)
  : completion Thrown (ApiResult T) :=
  match action with
  | Normal data => Normal (ApiResult_new data)
  | Throw error =>
      let unknown :=
        fromError {| type := Unknown; message := message_or_default error;
                     exception := error |} in
      match error with
      | ThrownResponseError e =>
          let response := response e in
          (* console.debug('Error response', response, await response.text()):
             the read is awaited inside the catch block, so its rejection
             is the rejection of the operation *)
          _ ← await_text response;
          let status := status response in
          if status =? 404 then
            Normal (fromError {| type := NotFound; message := statusText response;
                                 exception := error |})
          else if status =? 401 then
            Normal (fromError {| type := Unauthorized;
                                 message := statusText response;
                                 exception := error |})
          else if status =? 403 then
            Normal (fromError {| type := Unauthorized;
                                 message := "Forbidden: Insufficient permissions";
                                 exception := error |})
          else if status =? 429 then
            Normal (fromError {| type := RateLimited;
                                 message := statusText response;
                                 exception := error |})
          else Normal unknown
      | ThrownOther _ => Normal unknown
      end
  end.

(** An operation of the service: [this.getApiResultAsync(async () => ...)]. *)
Definition run (op : Operation) (request : Request op)
  : completion Thrown (ApiResult (Result op)) :=
  getApiResultAsync (action op request).

Definition createClubAsync := run createClub.
Definition getClubAsync := run getClub.
Definition updateClubAsync := run updateClub.
Definition deleteClubAsync := run deleteClub.
Definition searchClubsAsync := run searchClubs.
Definition getMyClubsAsync := run getMyClubs.
Definition getClubMembersAsync := run getClubMembers.
Definition inviteToClubAsync := run inviteToClub.
Definition joinPublicClubAsync := run joinPublicClub.
Definition acceptClubInviteAsync := run acceptClubInvite.
Definition leaveClubAsync := run leaveClub.
Definition removeClubMemberAsync := run removeClubMember.
Definition updateMemberRoleAsync := run updateMemberRole.
Definition postClubEventAsync := run postClubEvent.
Definition getClubEventsAsync := run getClubEvents.

(** The error type that [getApiResultAsync] gives a response status. *)
Definition error_type_of_status (status : Z) : ApiErrorType :=
  if status =? 404 then NotFound
  else if (status =? 401) || (status =? 403) then Unauthorized
  else if status =? 429 then RateLimited
  else Unknown.

End Service.

(** Concrete environments: a server answering every request with
    403 Forbidden, one whose 403 answer loses its connection before the
    body has arrived, one answering with 200 OK and a body that is no
    JSON. *)
Definition forbidden_response (op : Operation) : FetchResponse (Wire op) :=
  {| info := {| status := 403; statusText := "Forbidden"; text := Normal ""%string |};
     json := Throw (Some "Unexpected end of JSON input"%string) |}.

Definition aborted_response (op : Operation) : FetchResponse (Wire op) :=
  {| info := {| status := 403; statusText := "Forbidden";
                text := Throw (Some "Network request failed"%string) |};
     json := Throw (Some "Network request failed"%string) |}.

Definition aborted_fetch (op : Operation) (_ : HttpRequest)
  : FetchOutcome (Wire op) :=
  FetchResolved (aborted_response op).

(** The argument limit of the runs below. *)
Definition engine_limit : Z := 65535.

Definition forbidden_fetch (op : Operation) (_ : HttpRequest)
  : FetchOutcome (Wire op) :=
  FetchResolved (forbidden_response op).

Definition ok_fetch (op : Operation) (_ : HttpRequest) : FetchOutcome (Wire op) :=
  FetchResolved
    {| info := {| status := 200; statusText := "OK"; text := Normal ""%string |};
       json := Throw (Some "Unexpected end of JSON input"%string) |}.

Definition leave_request0 : LeaveClubRequest.t :=
  LeaveClubRequest.mk "club-1" "user-1" "secret".

Definition accept_request0 : AcceptClubInviteRequest.t :=
  AcceptClubInviteRequest.mk "club-1" "user-1" "secret" [x01; x02; x03].

End ClubApiService.

(** *** Facts about the service *)

Module ClubApiFacts.

Import Js ApiModels ClubApiService.

Section Facts.

Variable baseUrl : string.
Variable ResponseError_message : ResponseInfo -> string.
Variable fetch : forall op : Operation, HttpRequest -> FetchOutcome (Wire op).
Variable max_arguments : Z.

Local Abbreviation run := (run baseUrl ResponseError_message fetch max_arguments).
Local Abbreviation action :=
  (action baseUrl ResponseError_message fetch max_arguments).
Local Abbreviation http_request := (http_request baseUrl).
Local Abbreviation stringify := (stringify max_arguments).
Local Abbreviation build_body := (build_body max_arguments).
Local Abbreviation serialisable := (serialisable max_arguments).
Local Abbreviation fits := (fits max_arguments).
Local Abbreviation uint8ArrayToBase64 := (uint8ArrayToBase64 max_arguments).

(** *** Writing the body *)

Lemma uint8ArrayToBase64_fits (value : list byte) :
  fits value ->
  uint8ArrayToBase64 value = Normal (Base64.encode (Base64.char_codes value)).
Proof.
  intros H. unfold ClubApiService.uint8ArrayToBase64.
  now rewrite Base64.uint8ArrayToBase64_within.
Qed.

Lemma uint8ArrayToBase64_too_long (value : list byte) :
  ~ fits value ->
  uint8ArrayToBase64 value = Throw (ThrownOther (Some "RangeError"%string)).
Proof.
  intros H. unfold ClubApiService.uint8ArrayToBase64.
  rewrite Base64.uint8ArrayToBase64_above; [reflexivity|].
  unfold ClubApiService.fits in H. lia.
Qed.

Lemma write_arrays (l : list (list byte)) :
  (Forall fits l /\ exists ts, mapM uint8ArrayToBase64 l = Normal ts) \/
  (~ Forall fits l /\
   mapM uint8ArrayToBase64 l = Throw (ThrownOther (Some "RangeError"%string))).
Proof.
  induction l as [|x l IH]; [left; split; [constructor|now eexists]|].
  cbn [mapM].
  destruct (Z.le_gt_cases (Z.of_nat (length x)) max_arguments) as [Hx|Hx].
  - rewrite (uint8ArrayToBase64_fits x) by exact Hx.
    cbn [mbind completion_bind bind].
    destruct IH as [[Hl [ts ->]]|[Hl ->]].
    + left. split; [now constructor|now eexists].
    + right. split; [|reflexivity]. intros H. apply Forall_cons_1 in H. tauto.
  - rewrite (uint8ArrayToBase64_too_long x)
      by (unfold ClubApiService.fits; lia).
    right. split; [|reflexivity]. intros H. apply Forall_cons_1 in H as [H _].
    unfold ClubApiService.fits in H. lia.
Qed.

Lemma stringify_serialisable op request :
  serialisable op request -> stringify op request = Normal (JsonBody op request).
Proof.
  intros Hs. unfold ClubApiService.stringify.
  destruct (write_arrays (byte_arrays op request)) as [[_ [ts ->]]|[Hn _]];
    [reflexivity|contradiction].
Qed.

Lemma stringify_too_long op request :
  ~ serialisable op request ->
  stringify op request = Throw (ThrownOther (Some "RangeError"%string)).
Proof.
  intros Hs. unfold ClubApiService.stringify.
  destruct (write_arrays (byte_arrays op request)) as [[H _]|[_ ->]];
    [contradiction|reflexivity].
Qed.

Lemma serialisable_cases op request :
  serialisable op request \/ ~ serialisable op request.
Proof.
  destruct (write_arrays (byte_arrays op request)) as [[H _]|[H _]]; tauto.
Qed.

(** The body of the request an operation sends is [stringify(request)];
    [getClubAsync] sends none. *)
Lemma build_body_serialisable op request h :
  http_request op request = Some h -> serialisable op request ->
  build_body h = Normal (body h).
Proof.
  intros Hh Hs.
  destruct op; cbn in Hh; try discriminate; injection Hh as <-;
    cbn [ClubApiService.build_body body json_request]; try reflexivity;
    now apply stringify_serialisable.
Qed.

Lemma build_body_too_long op request h :
  http_request op request = Some h -> ~ serialisable op request ->
  build_body h = Throw (ThrownOther (Some "RangeError"%string)).
Proof.
  intros Hh Hs.
  destruct op; cbn in Hh; try discriminate; injection Hh as <-;
    cbn [ClubApiService.build_body body json_request];
    try (now apply stringify_too_long).
  destruct Hs. constructor.
Qed.

(** *** The action of an operation *)

Lemma action_too_long op request h :
  http_request op request = Some h -> ~ serialisable op request ->
  action op request = Throw (ThrownOther (Some "RangeError"%string)).
Proof.
  intros Hh Hs. unfold ClubApiService.action. rewrite Hh.
  now rewrite (build_body_too_long _ _ _ Hh Hs).
Qed.

Lemma action_not_ok op request h resp :
  http_request op request = Some h ->
  serialisable op request ->
  fetch op h = FetchResolved resp ->
  ok (info resp) = false ->
  action op request
  = Throw (ThrownResponseError
             {| response := info resp;
                error_message := ResponseError_message (info resp) |}).
Proof.
  intros Hh Hs Hf Hok. unfold ClubApiService.action. rewrite Hh.
  rewrite (build_body_serialisable _ _ _ Hh Hs). cbn [mbind completion_bind bind].
  unfold await_fetch. rewrite Hf. cbn.
  unfold ensureSuccessStatusCode. rewrite Hok. reflexivity.
Qed.

Lemma action_normal_ok op request data :
  action op request = Normal data ->
  exists h resp, http_request op request = Some h /\
                 serialisable op request /\
                 fetch op h = FetchResolved resp /\ ok (info resp) = true.
Proof.
  unfold ClubApiService.action.
  destruct (http_request op request) as [h|] eqn:Hh; [|discriminate].
  destruct (serialisable_cases op request) as [Hs|Hs].
  2:{ now rewrite (build_body_too_long _ _ _ Hh Hs). }
  rewrite (build_body_serialisable _ _ _ Hh Hs). cbn [mbind completion_bind bind].
  unfold await_fetch. destruct (fetch op h) as [m|resp] eqn:Hf; [discriminate|].
  cbn. unfold ensureSuccessStatusCode.
  destruct (ok (info resp)) eqn:Hok; [|discriminate].
  intros _. now exists h, resp.
Qed.

Lemma mapM_throws_other {A B} (f : A -> completion Thrown B) (l : list A) e :
  (forall x e, f x = Throw e -> exists m, e = ThrownOther m) ->
  mapM f l = Throw e -> exists m, e = ThrownOther m.
Proof.
  intros Hf. induction l as [|x l IH]; [discriminate|].
  cbn [mapM]. destruct (f x) as [y|e0] eqn:Ex; cbn [mbind completion_bind bind].
  - destruct (mapM f l) as [k|e1]; [discriminate|].
    intros [= <-]. now apply IH.
  - intros [= <-]. eapply Hf, Ex.
Qed.

Lemma base64ToUint8Array_throws_other value e :
  ClubApiService.base64ToUint8Array value = Throw e -> exists m, e = ThrownOther m.
Proof.
  unfold ClubApiService.base64ToUint8Array.
  destruct (Base64.base64ToUint8Array value); intros [= <-]; eauto.
Qed.

Lemma convert_club_throws_other club e :
  convert_club club = Throw e -> exists m, e = ThrownOther m.
Proof.
  unfold convert_club, base64ToUint8Array_optional,
    ClubApiService.base64ToUint8Array.
  repeat (case_match; cbn [mbind completion_bind bind]);
    intros [= <-]; eauto.
Qed.

(** A conversion throws what [atob] throws, never a [ResponseError]. *)
Lemma convert_throws_other op j e :
  convert op j = Throw e -> exists m, e = ThrownOther m.
Proof.
  destruct op; cbn [convert]; try discriminate.
  - apply convert_club_throws_other.
  - destruct (mapM convert_club _) as [k|e0] eqn:E; [discriminate|].
    intros [= <-]. eapply mapM_throws_other, E. apply convert_club_throws_other.
  - destruct (mapM convert_club _) as [k|e0] eqn:E; [discriminate|].
    intros [= <-]. eapply mapM_throws_other, E. apply convert_club_throws_other.
  - destruct (mapM convert_member _) as [k|e0] eqn:E; [discriminate|].
    intros [= <-]. eapply mapM_throws_other, E.
    intros x e1. unfold convert_member.
    destruct (ClubApiService.base64ToUint8Array _) eqn:Eb; [discriminate|].
    intros [= <-]. eapply base64ToUint8Array_throws_other, Eb.
  - destruct (mapM convert_event _) as [k|e0] eqn:E; [discriminate|].
    intros [= <-]. eapply mapM_throws_other, E.
    intros x e1. unfold convert_event.
    destruct (ClubApiService.base64ToUint8Array (ClubEventResponse.encryptedEvent x))
      eqn:Eb; cbn [mbind completion_bind bind].
    + destruct (ClubApiService.base64ToUint8Array (ClubEventResponse.encryptionIv x))
        eqn:Eb2; [discriminate|].
      intros [= <-]. eapply base64ToUint8Array_throws_other, Eb2.
    + intros [= <-]. eapply base64ToUint8Array_throws_other, Eb.
Qed.

(** The only [ResponseError] of an action is the one of
    [ensureSuccessStatusCode]. *)
Lemma action_response_error op request re :
  action op request = Throw (ThrownResponseError re) ->
  exists h resp, http_request op request = Some h /\
                 serialisable op request /\
                 fetch op h = FetchResolved resp /\ ok (info resp) = false /\
                 re = {| response := info resp;
                         error_message := ResponseError_message (info resp) |}.
Proof.
  intros Ha. pose proof Ha as Ha'. unfold ClubApiService.action in Ha.
  destruct (http_request op request) as [h|] eqn:Hh; [|discriminate].
  destruct (serialisable_cases op request) as [Hs|Hs].
  2:{ now rewrite (build_body_too_long _ _ _ Hh Hs) in Ha. }
  rewrite (build_body_serialisable _ _ _ Hh Hs) in Ha.
  cbn [mbind completion_bind bind] in Ha. unfold await_fetch in Ha.
  destruct (fetch op h) as [m|resp] eqn:Hf; [discriminate|].
  cbn [mbind completion_bind bind] in Ha. unfold ensureSuccessStatusCode in Ha.
  destruct (ok (info resp)) eqn:Hok.
  - exfalso. cbn [negb mbind completion_bind bind] in Ha. clear Ha'.
    destruct op; cbn [reads_json] in Ha; try discriminate;
      unfold await_json in Ha;
      (destruct (json resp) as [j|]; [|discriminate]);
      cbn [mbind completion_bind bind] in Ha;
      apply convert_throws_other in Ha as [m [=]].
  - cbn [negb mbind completion_bind bind] in Ha. injection Ha as <-.
    now exists h, resp.
Qed.

(** *** [getApiResultAsync] *)

(** When the body of the error response can be read, the status decides
    the error. *)
Lemma getApiResultAsync_response_error {T} (e : ResponseError) (t : string) :
  text (response e) = Normal t ->
  exists m,
    getApiResultAsync (T := T) (Throw (ThrownResponseError e))
    = Normal (fromError {| type := error_type_of_status (status (response e));
                           message := m;
                           exception := ThrownResponseError e |}).
Proof.
  intros Ht. unfold getApiResultAsync, error_type_of_status, await_text.
  rewrite Ht. cbn [mbind completion_bind bind].
  repeat case_match; try lia; try discriminate; now eexists.
Qed.

(** When it cannot, [getApiResultAsync] rejects with what the read
    rejected with. *)
Lemma getApiResultAsync_unreadable {T} (e : ResponseError) (m : option string) :
  text (response e) = Throw m ->
  getApiResultAsync (T := T) (Throw (ThrownResponseError e))
  = Throw (ThrownOther m).
Proof.
  intros Ht. unfold getApiResultAsync, await_text. now rewrite Ht.
Qed.

(** An operation rejects in one case only: a response with a non-success
    status whose body cannot be read. *)
Lemma run_throws_iff (op : Operation) (request : Request op) (e : Thrown) :
  run op request = Throw e
  <-> exists h resp m,
        http_request op request = Some h /\ serialisable op request /\
        fetch op h = FetchResolved resp /\ ok (info resp) = false /\
        text (info resp) = Throw m /\ e = ThrownOther m.
Proof.
  unfold ClubApiService.run. split.
  - destruct (action op request) as [d|[re|m]] eqn:Ha; [discriminate| |discriminate].
    apply action_response_error in Ha as (h & resp & Hh & Hs & Hf & Hok & ->).
    destruct (text (info resp)) as [t|m] eqn:Ht.
    + destruct (getApiResultAsync_response_error (T := Result op)
                  {| response := info resp;
                     error_message := ResponseError_message (info resp) |} t Ht)
        as [m ->]. discriminate.
    + rewrite (getApiResultAsync_unreadable _ m) by exact Ht.
      intros [= <-]. now exists h, resp, m.
  - intros (h & resp & m & Hh & Hs & Hf & Hok & Ht & ->).
    rewrite (action_not_ok _ _ _ _ Hh Hs Hf Hok).
    now apply getApiResultAsync_unreadable.
Qed.

(** What an operation that completes returns: for a response with a
    non-success status the error whose type is fixed by the status (404
    NotFound, 401 and 403 Unauthorized, 429 RateLimited, anything else
    Unknown) and which carries the [ResponseError]; for every other failure
    an Unknown error; a successful result only for a response with a
    success status. *)
Lemma run_normal_classified (op : Operation) (request : Request op)
    (r : ApiResult (Result op)) :
  run op request = Normal r ->
  (forall h resp,
      http_request op request = Some h ->
      serialisable op request ->
      fetch op h = FetchResolved resp ->
      ok (info resp) = false ->
      exists m,
        r = fromError
              {| type := error_type_of_status (status (info resp));
                 message := m;
                 exception :=
                   ThrownResponseError
                     {| response := info resp;
                        error_message := ResponseError_message (info resp) |} |}) /\
  (forall e, r = fromError e ->
             (exists re, exception e = ThrownResponseError re /\
                         type e = error_type_of_status (status (response re)))
             \/ ((exists m, exception e = ThrownOther m) /\ type e = Unknown)) /\
  (isError r = false ->
   exists h resp, http_request op request = Some h /\
                  fetch op h = FetchResolved resp /\ ok (info resp) = true).
Proof.
  unfold ClubApiService.run.
  destruct (action op request) as [data|error] eqn:Ha.
  - intros [= <-]. repeat split.
    + intros h resp Hh Hs Hf Hok.
      rewrite (action_not_ok _ _ _ _ Hh Hs Hf Hok) in Ha. discriminate.
    + discriminate.
    + intros _. destruct (action_normal_ok _ _ _ Ha) as (h & resp & ? & ? & ? & ?).
      now exists h, resp.
  - destruct error as [re|m].
    + destruct (text (response re)) as [t|m] eqn:Ht.
      2:{ now rewrite (getApiResultAsync_unreadable _ m). }
      destruct (getApiResultAsync_response_error (T := Result op) re t Ht) as [m ->].
      intros [= <-]. repeat split.
      * intros h resp Hh Hs Hf Hok.
        rewrite (action_not_ok _ _ _ _ Hh Hs Hf Hok) in Ha.
        injection Ha as <-. now exists m.
      * intros e [= <-]. left. now exists re.
      * discriminate.
    + intros [= <-]. repeat split.
      * intros h resp Hh Hs Hf Hok.
        rewrite (action_not_ok _ _ _ _ Hh Hs Hf Hok) in Ha. discriminate.
      * intros e [= <-]. right. split; [now exists m|reflexivity].
      * discriminate.
Qed.

(** C2, amended: [acceptClubInviteAsync] sends no request, whatever the
    request it is given, and completes with the Unknown error
    "Not implemented - use inbox system". *)
Theorem acceptClubInviteAsync_not_implemented (request : AcceptClubInviteRequest.t) :
  http_request acceptClubInvite request = None /\
  acceptClubInviteAsync baseUrl ResponseError_message fetch max_arguments request
  = Normal
      (fromError
         {| type := Unknown;
            message := "Not implemented - use inbox system";
            exception :=
              ThrownOther (Some "Not implemented - use inbox system"%string) |}).
Proof. split; reflexivity. Qed.

End Facts.

Example error_type_of_status_table :
  error_type_of_status 404 = NotFound /\ error_type_of_status 401 = Unauthorized /\
  error_type_of_status 403 = Unauthorized /\ error_type_of_status 429 = RateLimited /\
  error_type_of_status 500 = Unknown /\ error_type_of_status 400 = Unknown.
Proof. repeat split. Qed.

(** Leaving a club is answered with 403 and a body that can be read: the
    result is an Unauthorized error. *)
Lemma leaveClub_forbidden :
  exists e,
    leaveClubAsync "https://api.liftlog.online/v2/" (fun _ => "HTTP error"%string)
      forbidden_fetch engine_limit leave_request0 = Normal (fromError e) /\
    type e = Unauthorized.
Proof. eexists. split; reflexivity. Qed.

(** C3: the operations do not always return an [ApiResult].  An operation
    rejects exactly when the request it sent was answered with a
    non-success status and the body of that answer cannot be read: the
    catch block of [getApiResultAsync] awaits [response.text()] for its
    debug log before it looks at the status.  Whenever an operation does
    complete, its result is classified as the claim says.  Leaving a club
    is answered with 403 over a connection that fails before the body has
    arrived: the operation rejects with the network error, and no
    permission error is returned. *)
Theorem operations_reject_on_unreadable_error_body :
  (forall baseUrl ResponseError_message fetch max_arguments
          (op : Operation) (request : Request op) (e : Thrown),
      run baseUrl ResponseError_message fetch max_arguments op request = Throw e
      <-> exists h resp m,
            http_request baseUrl op request = Some h /\
            serialisable max_arguments op request /\
            fetch op h = FetchResolved resp /\ ok (info resp) = false /\
            text (info resp) = Throw m /\ e = ThrownOther m) /\
  (forall baseUrl ResponseError_message fetch max_arguments
          (op : Operation) (request : Request op) (r : ApiResult (Result op)),
      run baseUrl ResponseError_message fetch max_arguments op request = Normal r ->
      (forall h resp,
          http_request baseUrl op request = Some h ->
          serialisable max_arguments op request ->
          fetch op h = FetchResolved resp ->
          ok (info resp) = false ->
          exists m,
            r = fromError
                  {| type := error_type_of_status (status (info resp));
                     message := m;
                     exception :=
                       ThrownResponseError
                         {| response := info resp;
                            error_message := ResponseError_message (info resp) |} |}) /\
      (forall e, r = fromError e ->
                 (exists re, exception e = ThrownResponseError re /\
                             type e = error_type_of_status (status (response re)))
                 \/ ((exists m, exception e = ThrownOther m) /\ type e = Unknown)) /\
      (isError r = false ->
       exists h resp, http_request baseUrl op request = Some h /\
                      fetch op h = FetchResolved resp /\ ok (info resp) = true)) /\
  leaveClubAsync "https://api.liftlog.online/v2/" (fun _ => "HTTP error"%string)
    aborted_fetch engine_limit leave_request0
  = Throw (ThrownOther (Some "Network request failed"%string)).
Proof.
  split; [|split].
  - intros. apply run_throws_iff.
  - intros bu rem f ma op request r Hr.
    exact (run_normal_classified bu rem f ma op request r Hr).
  - reflexivity.
Qed.

(** C2 as stated fails: on a server that answers every request with
    200 OK, accepting an invite still does not complete without error. *)
Lemma acceptClubInviteAsync_is_error :
  exists e,
    acceptClubInviteAsync "https://api.liftlog.online/v2/" (fun _ => "HTTP error"%string)
      ok_fetch engine_limit accept_request0 = Normal (fromError e).
Proof. eexists. reflexivity. Qed.

End ClubApiFacts.

(** ** Encryption primitives (spec section 4.1) *)

Module EncryptionService.

Import Bytes Js.

(** Modelled from the spec: the source of randomness behind
    [generateAesKey] and the "freshly random IV per call" of
    [encryptAesCbc] is not among the sources.  It is a tape of random
    bytes with a read position; a draw returns the next bytes and moves
    the position, so no byte of the tape is handed out twice. *)
Record Entropy := {
  tape : nat -> byte;
  cursor : nat;
}.

Definition getRandomValues (n : nat) (g : Entropy) : list byte * Entropy :=
  (List.map (tape g) (seq (cursor g) n),
   {| tape := tape g; cursor := (cursor g + n)%nat |}).

(** [AesIV] and [AesEncryptedAndIvPayload], as the effects build and read
    them: [{ encryptedPayload, iv: { value } }]. *)
Record AesIV := { iv_value : list byte }.

Record AesEncryptedAndIvPayload := {
  encryptedPayload : list byte;
  iv : AesIV;
}.

Definition block_size : nat := 16.


(** PKCS#7 padding: between 1 and 16 bytes, each holding their number. *)
Definition pad_length (n : nat) : nat := (block_size - n mod block_size)%nat.

Definition pad (plaintext : list byte) : list byte :=
  let n := pad_length (length plaintext) in
  plaintext ++ repeat (byte_of_Z (Z.of_nat n)) n.

Definition unpad (data : list byte) : option (list byte) :=
  match last data with
  | None => None
  | Some b =>
      let n := Z.to_nat (byte_val b) in
      if ((1 <=? n) && (n <=? block_size) && (n <=? length data))%nat
      then
        let body := take (length data - n) data in
        if decide (drop (length data - n) data = repeat b n)
        then Some body else None
      else None
  end.

(** The first [n] blocks of [data]. *)
Fixpoint blocks (n : nat) (data : list byte) : list (list byte) :=
  match n with
  | O => []
  | S n' => take block_size data :: blocks n' (drop block_size data)
  end.

Definition is_block (b : list byte) : Prop := (length b = block_size)%nat.

Definition xor_block (a b : list byte) : list byte := zip_with byte_xor a b.

Section Cbc.

(** Modelled from the spec: the AES block transformation itself
    ("industry-standard AES-CBC ... used as given") is the platform's; it is
    a keyed map on 16-byte blocks with its inverse. *)
Variable aes_encrypt_block : AesKey -> list byte -> list byte.
Variable aes_decrypt_block : AesKey -> list byte -> list byte.

Fixpoint cbc_encrypt (key : AesKey) (previous : list byte)
    (plain : list (list byte)) : list (list byte) :=
  match plain with
  | [] => []
  | b :: rest =>
      let c := aes_encrypt_block key (xor_block b previous) in
      c :: cbc_encrypt key c rest
  end.

Fixpoint cbc_decrypt (key : AesKey) (previous : list byte)
    (cipher : list (list byte)) : list (list byte) :=
  match cipher with
  | [] => []
  | c :: rest =>
      xor_block (aes_decrypt_block key c) previous :: cbc_decrypt key c rest
  end.

(** Encryption under a given IV. *)
Definition encrypt_with_iv (plaintext : list byte) (key : AesKey)
    (iv : list byte) : list byte :=
  let padded := pad plaintext in
  concat (cbc_encrypt key iv (blocks (length padded / block_size) padded)).

(** Modelled from the spec: [generateAesKey() -> AesKey] (a 256-bit key). *)
Definition generateAesKey (g : Entropy) : AesKey * Entropy :=
  let (k, g') := getRandomValues 32 g in ({| key_value := k |}, g').

(** Modelled from the spec: [encryptAesCbc(plaintext, key) -> (ciphertext,
    iv)] with a freshly random IV per call. *)
Definition encryptAesCbc (plaintext : list byte) (key : AesKey) (g : Entropy)
  : AesEncryptedAndIvPayload * Entropy :=
  let (iv, g') := getRandomValues block_size g in
  ({| encryptedPayload := encrypt_with_iv plaintext key iv;
      iv := {| iv_value := iv |} |}, g').

(** [n] successive calls of [encryptAesCbc] with one plaintext and one
    key, each on the source as the call before left it. *)
Fixpoint encryptAesCbc_times (n : nat) (plaintext : list byte) (key : AesKey)
    (g : Entropy) : list AesEncryptedAndIvPayload * Entropy :=
  match n with
  | O => ([], g)
  | S n' =>
      let (r, g1) := encryptAesCbc plaintext key g in
      let (rs, g2) := encryptAesCbc_times n' plaintext key g1 in
      (r :: rs, g2)
  end.

(** Modelled from the spec: [decryptAesCbc(ciphertext, iv, key) ->
    plaintext], which "fails with DecryptionError on bad padding/wrong
    key". *)
Definition decryptAesCbc (payload : AesEncryptedAndIvPayload) (key : AesKey)
  : completion string (list byte) :=
  let c := encryptedPayload payload in
  let iv := iv_value (iv payload) in
  if ((length iv =? block_size) && negb (length c =? 0)
      && (length c mod block_size =? 0))%nat
  then
    match unpad (concat (cbc_decrypt key iv (blocks (length c / block_size) c))) with
    | Some plaintext => Normal plaintext
    | None => Throw "DecryptionError"%string
    end
  else Throw "DecryptionError"%string.

End Cbc.

(** A stand-in for the block transformation, to run the definitions on
    concrete inputs: every byte of the block is xor-ed with the first byte
    of the key. *)
Definition toy_encrypt_block (key : AesKey) (block : list byte) : list byte :=
  List.map (byte_xor (hd x00 (key_value key))) block.

Definition toy_decrypt_block (key : AesKey) (block : list byte) : list byte :=
  List.map (byte_xor (hd x00 (key_value key))) block.

Definition key1 : AesKey := {| key_value := repeat x2a 32 |}.

(** A source of zero bytes, and one whose first byte is 1. *)
Definition zero_entropy : Entropy := {| tape := fun _ => x00; cursor := 0 |}.


End EncryptionService.

(** *** Facts about the encryption primitives *)

Module EncryptionFacts.

Import Bytes Js EncryptionService.

Local Open Scope nat_scope.

Lemma pad_length_bounds (n : nat) : 1 <= pad_length n <= block_size.
Proof.
  unfold pad_length, block_size.
  pose proof (Nat.mod_upper_bound n 16 ltac:(lia)). lia.
Qed.

Lemma pad_length_multiple (n : nat) :
  exists q, n + pad_length n = q * block_size /\ 1 <= q.
Proof.
  unfold pad_length, block_size.
  pose proof (Nat.mod_upper_bound n 16 ltac:(lia)).
  pose proof (Nat.div_mod_eq n 16).
  exists (S (n / 16)). lia.
Qed.

Lemma length_pad (p : list byte) :
  length (pad p) = length p + pad_length (length p).
Proof. unfold pad. now rewrite length_app, repeat_length. Qed.

Lemma unpad_pad (p : list byte) : unpad (pad p) = Some p.
Proof.
  pose proof (pad_length_bounds (length p)) as Hn.
  pose proof (length_pad p) as Hlen.
  unfold unpad, pad in *. set (n := pad_length (length p)) in *.
  set (pb := byte_of_Z (Z.of_nat n)) in *.
  assert (Hlast : last (p ++ repeat pb n) = Some pb).
  { destruct n as [|n']; [lia|].
    change (repeat pb (S n')) with (pb :: repeat pb n').
    rewrite repeat_cons, app_assoc. apply last_snoc. }
  rewrite Hlast.
  assert (Hv : Z.to_nat (byte_val pb) = n).
  { unfold pb. rewrite byte_val_of_Z, Z.mod_small; unfold block_size in *; lia. }
  rewrite Hv, Hlen.
  replace ((1 <=? n) && (n <=? block_size) && (n <=? length p + n)) with true.
  2:{ symmetry. rewrite !andb_true_iff, !Nat.leb_le. lia. }
  replace (length p + n - n) with (length p) by lia.
  rewrite drop_app_length, take_app_length.
  now rewrite decide_True.
Qed.

Lemma unpad_Some (data p : list byte) :
  unpad data = Some p ->
  exists b n, data = p ++ repeat b n /\ n = Z.to_nat (byte_val b) /\ 1 <= n.
Proof.
  unfold unpad. destruct (last data) as [b|]; [|discriminate].
  set (n := Z.to_nat (byte_val b)).
  destruct ((1 <=? n) && (n <=? block_size) && (n <=? length data)) eqn:Hc;
    [|discriminate].
  rewrite !andb_true_iff, !Nat.leb_le in Hc.
  destruct (decide (drop (length data - n) data = repeat b n)) as [Hd|];
    [|discriminate].
  intros [= <-]. exists b, n. split; [|split; [reflexivity|lia]].
  rewrite <- Hd. now rewrite take_drop.
Qed.

(** A padded text that unpads to [p] is the padding of [p]. *)
Lemma unpad_Some_pad (data p : list byte) :
  unpad data = Some p -> length data = length (pad p) -> data = pad p.
Proof.
  intros Hu Hlen. pose proof Hu as Hu'.
  apply unpad_Some in Hu as (b & n & -> & Hn & Hpos).
  rewrite length_pad, length_app, repeat_length in Hlen.
  assert (En : n = pad_length (length p)) by lia.
  unfold pad. rewrite <- En. f_equal. f_equal.
  pose proof (pad_length_bounds (length p)).
  rewrite Hn in En |- *. rewrite Z2Nat.id by (pose proof (byte_val_range b); lia).
  now rewrite byte_of_Z_val.
Qed.

Lemma concat_blocks (n : nat) (data : list byte) :
  length data = n * block_size -> concat (blocks n data) = data.
Proof.
  revert data. induction n as [|n IH]; intros data Hlen; cbn [blocks concat].
  - destruct data; [reflexivity|discriminate].
  - rewrite IH, take_drop; [reflexivity|].
    rewrite length_drop. lia.
Qed.

Lemma blocks_are_blocks (n : nat) (data : list byte) :
  length data = n * block_size -> Forall is_block (blocks n data).
Proof.
  revert data. induction n as [|n IH]; intros data Hlen; cbn [blocks].
  - constructor.
  - constructor.
    + unfold is_block. rewrite length_take. lia.
    + apply IH. rewrite length_drop. lia.
Qed.

Lemma length_blocks (n : nat) (data : list byte) : length (blocks n data) = n.
Proof. revert data. induction n; intros; cbn; auto. Qed.

Lemma blocks_concat (bs : list (list byte)) :
  Forall is_block bs -> blocks (length bs) (concat bs) = bs.
Proof.
  induction 1 as [|b bs Hb _ IH]; [reflexivity|].
  cbn [length blocks concat]. unfold is_block in Hb.
  rewrite <- Hb at 1. rewrite take_app_length.
  rewrite <- Hb at 1. rewrite drop_app_length. now rewrite IH.
Qed.

Lemma length_concat_blocks (bs : list (list byte)) :
  Forall is_block bs -> length (concat bs) = length bs * block_size.
Proof.
  induction 1 as [|b bs Hb _ IH]; [reflexivity|].
  cbn [concat length]. rewrite length_app, IH, Hb. lia.
Qed.

Lemma length_xor_block (a b : list byte) :
  length a = length b -> length (xor_block a b) = length a.
Proof. intros H. unfold xor_block. rewrite length_zip_with. lia. Qed.

Lemma xor_block_cancel (a b : list byte) :
  length a = length b -> xor_block (xor_block a b) b = a.
Proof.
  unfold xor_block. revert b.
  induction a as [|x a IH]; intros [|y b] Hlen; try discriminate; [reflexivity|].
  cbn. rewrite byte_xor_cancel_r, IH; [reflexivity|]. cbn in Hlen. lia.
Qed.

Lemma xor_block_inj_r (a b c : list byte) :
  length a = length c -> length b = length c ->
  xor_block a c = xor_block b c -> a = b.
Proof.
  intros Ha Hb H. rewrite <- (xor_block_cancel a c Ha), H.
  now apply xor_block_cancel.
Qed.

Lemma xor_block_inj_l (a b c : list byte) :
  length a = length c -> length b = length c ->
  xor_block c a = xor_block c b -> a = b.
Proof.
  unfold xor_block. revert b c.
  induction a as [|x a IH]; intros [|y b] [|z c] Ha Hb H;
    try discriminate; [reflexivity|].
  cbn in *. injection H as Hxy H.
  rewrite (byte_xor_comm z x), (byte_xor_comm z y) in Hxy.
  apply byte_xor_inj_r in Hxy as ->. f_equal. apply (IH b c); auto; lia.
Qed.

Section Cbc.

Variable aes_encrypt_block : AesKey -> list byte -> list byte.
Variable aes_decrypt_block : AesKey -> list byte -> list byte.

Hypothesis aes_block_length :
  forall k b, is_block b -> is_block (aes_encrypt_block k b).
Hypothesis aes_block_inverse :
  forall k b, is_block b -> aes_decrypt_block k (aes_encrypt_block k b) = b.

Local Abbreviation cbc_encrypt := (cbc_encrypt aes_encrypt_block).
Local Abbreviation cbc_decrypt := (cbc_decrypt aes_decrypt_block).
Local Abbreviation encrypt_with_iv := (encrypt_with_iv aes_encrypt_block).
Local Abbreviation encryptAesCbc := (encryptAesCbc aes_encrypt_block).
Local Abbreviation decryptAesCbc := (decryptAesCbc aes_decrypt_block).

Lemma cbc_encrypt_blocks k prev bs :
  is_block prev -> Forall is_block bs ->
  Forall is_block (cbc_encrypt k prev bs) /\
  length (cbc_encrypt k prev bs) = length bs.
Proof.
  intros Hp Hbs. revert prev Hp.
  induction Hbs as [|b bs Hb _ IH]; intros prev Hp; cbn; [now split|].
  assert (Hc : is_block (aes_encrypt_block k (xor_block b prev))).
  { apply aes_block_length. unfold is_block in *.
    rewrite length_xor_block; congruence. }
  destruct (IH _ Hc) as [IH1 IH2]. split; [now constructor|now rewrite IH2].
Qed.

Lemma cbc_decrypt_encrypt k prev bs :
  is_block prev -> Forall is_block bs ->
  cbc_decrypt k prev (cbc_encrypt k prev bs) = bs.
Proof.
  intros Hp Hbs. revert prev Hp.
  induction Hbs as [|b bs Hb _ IH]; intros prev Hp; cbn; [reflexivity|].
  assert (Hx : is_block (xor_block b prev)).
  { unfold is_block in *. rewrite length_xor_block; congruence. }
  rewrite aes_block_inverse by exact Hx.
  rewrite xor_block_cancel by (unfold is_block in *; congruence).
  rewrite IH; [reflexivity|]. now apply aes_block_length.
Qed.

Lemma pad_blocks (p : list byte) :
  exists q, length (pad p) = q * block_size /\ 1 <= q /\
            length (pad p) / block_size = q.
Proof.
  destruct (pad_length_multiple (length p)) as (q & Hq & Hq1).
  exists q. rewrite length_pad, Hq. repeat split; [exact Hq1|].
  apply Nat.div_mul. discriminate.
Qed.

Lemma length_encrypt_with_iv p k iv :
  is_block iv ->
  exists q, length (encrypt_with_iv p k iv) = q * block_size /\ 1 <= q.
Proof.
  intros Hiv. unfold EncryptionService.encrypt_with_iv.
  destruct (pad_blocks p) as (q & Hlen & Hq & Hdiv). rewrite Hdiv.
  exists q. split; [|exact Hq].
  destruct (cbc_encrypt_blocks k iv (blocks q (pad p)) Hiv
              (blocks_are_blocks _ _ Hlen)) as [Hb Hl].
  rewrite (length_concat_blocks _ Hb), Hl, length_blocks. reflexivity.
Qed.

(** Decryption with the IV and key of the encryption gives the plaintext. *)
Lemma decrypt_encrypt_with_iv p k iv :
  is_block iv ->
  decryptAesCbc {| encryptedPayload := encrypt_with_iv p k iv;
                   iv := {| iv_value := iv |} |} k = Normal p.
Proof.
  intros Hiv. unfold EncryptionService.decryptAesCbc. cbn [encryptedPayload EncryptionService.iv iv_value].
  destruct (length_encrypt_with_iv p k iv Hiv) as (q & Hlen & Hq).
  rewrite Hlen, Hiv, Nat.eqb_refl, Nat.Div0.mod_mul, Nat.div_mul by discriminate.
  replace (q * block_size =? 0) with false
    by (symmetry; apply Nat.eqb_neq; unfold block_size; lia).
  cbn [negb andb Nat.eqb].
  unfold EncryptionService.encrypt_with_iv in *.
  destruct (pad_blocks p) as (q' & Hpl & _ & Hdiv). rewrite Hdiv in *.
  destruct (cbc_encrypt_blocks k iv (blocks q' (pad p)) Hiv
              (blocks_are_blocks _ _ Hpl)) as [Hb Hl].
  rewrite (length_concat_blocks _ Hb), Hl, length_blocks in Hlen.
  assert (q' = q) as -> by (unfold block_size in Hlen; lia).
  rewrite <- (length_blocks q (pad p)) at 1. rewrite <- Hl.
  rewrite blocks_concat by exact Hb.
  rewrite cbc_decrypt_encrypt by (auto using blocks_are_blocks).
  rewrite concat_blocks by exact Hpl.
  now rewrite unpad_pad.
Qed.

Lemma first_block (p : list byte) :
  exists b rest, is_block b /\ Forall is_block rest /\
    blocks (length (pad p) / block_size) (pad p) = b :: rest /\
    pad p = concat (b :: rest).
Proof.
  destruct (pad_blocks p) as (q & Hlen & Hq & Hdiv). rewrite Hdiv.
  pose proof (blocks_are_blocks _ _ Hlen) as Hb.
  pose proof (concat_blocks _ _ Hlen) as Hc.
  destruct q as [|q]; [lia|]. cbn [blocks] in *.
  apply Forall_cons_1 in Hb as [Hb1 Hb2].
  eexists _, _. repeat split; [exact Hb1|exact Hb2|now symmetry].
Qed.

Lemma app_block_inj (a b : list byte) (x y : list byte) :
  is_block a -> is_block b -> a ++ x = b ++ y -> a = b.
Proof.
  intros Ha Hb H. apply (f_equal (take block_size)) in H.
  unfold is_block in *.
  rewrite <- Ha in H at 1. rewrite take_app_length in H.
  rewrite <- Hb in H. now rewrite take_app_length in H.
Qed.



(** Decrypting under another IV than the one of the encryption never
    gives the plaintext back. *)
Lemma decrypt_other_iv p k iv1 iv2 :
  is_block iv1 -> is_block iv2 -> iv1 <> iv2 ->
  decryptAesCbc {| encryptedPayload := encrypt_with_iv p k iv2;
                   iv := {| iv_value := iv1 |} |} k <> Normal p.
Proof.
  intros H1 H2 Hne. unfold EncryptionService.decryptAesCbc.
  cbn [encryptedPayload EncryptionService.iv iv_value].
  destruct (length_encrypt_with_iv p k iv2 H2) as (q & Hlen & Hq).
  rewrite Hlen, H1, Nat.eqb_refl, Nat.Div0.mod_mul, Nat.div_mul by discriminate.
  replace (q * block_size =? 0) with false
    by (symmetry; apply Nat.eqb_neq; unfold block_size; lia).
  cbn [negb andb Nat.eqb].
  unfold EncryptionService.encrypt_with_iv in *.
  destruct (first_block p) as (b & rest & Hb & Hrest & Hbl & Hpad).
  rewrite Hbl in *. cbn [EncryptionService.cbc_encrypt] in *.
  set (c := aes_encrypt_block k (xor_block b iv2)) in *.
  assert (Hx : is_block (xor_block b iv2)).
  { unfold is_block in *. rewrite length_xor_block; congruence. }
  assert (Hc : is_block c) by now apply aes_block_length.
  destruct (cbc_encrypt_blocks k c rest Hc Hrest) as [Hcs Hl].
  assert (Hq' : q = S (length rest)).
  { rewrite (length_concat_blocks (c :: _)) in Hlen by now constructor.
    cbn [length] in Hlen. rewrite Hl in Hlen. unfold block_size in Hlen. lia. }
  rewrite Hq'. rewrite <- Hl.
  change (S (length (cbc_encrypt k c rest))) with (length (c :: cbc_encrypt k c rest)).
  rewrite blocks_concat by now constructor.
  cbn [EncryptionService.cbc_decrypt].
  rewrite cbc_decrypt_encrypt by assumption.
  unfold c. rewrite aes_block_inverse by exact Hx.
  destruct (unpad _) as [p'|] eqn:Hu; [|discriminate].
  intros [= ->]. apply unpad_Some_pad in Hu.
  - rewrite Hpad in Hu. cbn [concat] in Hu.
    apply app_block_inj in Hu; [| |exact Hb].
    2:{ unfold is_block in *. rewrite !length_xor_block; rewrite ?length_xor_block; congruence. }
    rewrite <- (xor_block_cancel b iv1) in Hu at 2 by (unfold is_block in *; congruence).
    apply xor_block_inj_r in Hu;
      [|unfold is_block in *; rewrite length_xor_block; congruence..].
    apply xor_block_inj_l in Hu; unfold is_block in *; congruence.
  - rewrite Hpad. cbn [concat]. rewrite !length_app.
    unfold is_block in *. rewrite !length_xor_block; rewrite ?length_xor_block; congruence.
Qed.

Lemma getRandomValues_block g : is_block (getRandomValues block_size g).1.
Proof.
  unfold is_block, getRandomValues. cbn [fst].
  now rewrite List.length_map, length_seq.
Qed.



Local Abbreviation encryptAesCbc_times := (encryptAesCbc_times aes_encrypt_block).




End Cbc.

(** The stand-in block transformation satisfies what is asked of AES. *)
Lemma toy_block_length k b : is_block b -> is_block (toy_encrypt_block k b).
Proof. unfold is_block, toy_encrypt_block. now rewrite length_map. Qed.

Lemma toy_block_inverse k b :
  is_block b -> toy_decrypt_block k (toy_encrypt_block k b) = b.
Proof.
  intros _. unfold toy_decrypt_block, toy_encrypt_block. rewrite map_map.
  rewrite <- (map_id b) at 2. apply map_ext. intros x.
  set (h := hd x00 (key_value k)).
  rewrite (byte_xor_comm h (byte_xor h x)), (byte_xor_comm h x).
  apply byte_xor_cancel_r.
Qed.


(** A source that yields the same block twice gives the same IV and the
    same ciphertext twice: the all-zero source. *)
Example zero_entropy_repeats :
  exists r,
    (encryptAesCbc_times toy_encrypt_block 2 [x68; x69] key1 zero_entropy).1
    = [r; r].
Proof. eexists. vm_compute. reflexivity. Qed.

End EncryptionFacts.

(** ** Access control policy (spec section 4.7) *)

Module AccessControlPolicy.

(** Modelled from the spec: the role order behind [ClubRole].  The type is
    in club-models.ts; the order "Viewer < Member < Admin < Owner" is the
    spec's. *)
Definition rank (r : ClubRole) : Z :=
  match r with
  | viewer => 0
  | member => 1
  | admin => 2
  | owner => 3
  end.

Definition role_lt (a b : ClubRole) : Prop := rank a < rank b.
Definition role_le (a b : ClubRole) : Prop := rank a <= rank b.

Definition role_ltb (a b : ClubRole) : bool := rank a <? rank b.
Definition role_leb (a b : ClubRole) : bool := rank a <=? rank b.

(** The gated operations; removing a member and changing a role name the
    role of the target, changing a role also the new role. *)
Inductive Operation :=
| ViewFeed
| PostFeedItem
| InviteMember
| RemoveMember (target : ClubRole)
| ChangeMemberRole (target newRole : ClubRole)
| UpdateClubSettings
| DeleteClub.

(** Modelled from the spec: the policy check itself is enforced by the
    backend, which is not among the sources.  Each line is a row of the
    capability table of section 4.7. *)
Definition permits (actor : ClubRole) (settings : ClubSettings.t)
    (op : Operation) : bool :=
  match op with
  | ViewFeed => role_leb member actor
  | PostFeedItem =>
      (bool_decide (actor = member) && ClubSettings.membersCanPost settings)
      || role_leb admin actor
  | InviteMember =>
      (bool_decide (actor = member) && ClubSettings.membersCanInvite settings)
      || role_leb admin actor
  | RemoveMember target => role_leb admin actor && role_ltb target actor
  | ChangeMemberRole target newRole =>
      role_leb admin actor && role_ltb target actor && role_leb newRole actor
  | UpdateClubSettings | DeleteClub => bool_decide (actor = owner)
  end.

Definition all_roles : list ClubRole := [viewer; member; admin; owner].

(** The settings with the two member flags set as given. *)
Definition settings_with (canPost canInvite : bool) : ClubSettings.t :=
  ClubSettings.mk canPost canInvite 50.

(** The roles that the policy lets perform [op]. *)
Definition permitted_roles (settings : ClubSettings.t) (op : Operation)
  : list ClubRole :=
  List.filter (fun actor => permits actor settings op) all_roles.

(** The (actor, target) pairs that may remove a member. *)
Definition removal_pairs (settings : ClubSettings.t) : list (ClubRole * ClubRole) :=
  List.filter (fun '(actor, target) => permits actor settings (RemoveMember target))
    (list_prod all_roles all_roles).

(** The new roles that [actor] may give to a member of role [target]. *)
Definition grantable_roles (settings : ClubSettings.t) (actor target : ClubRole)
  : list ClubRole :=
  List.filter (fun newRole => permits actor settings (ChangeMemberRole target newRole))
    all_roles.

(** *** The policy is the capability table *)

Lemma role_ltb_lt a b : role_ltb a b = true <-> role_lt a b.
Proof. apply Z.ltb_lt. Qed.

Lemma role_leb_le a b : role_leb a b = true <-> role_le a b.
Proof. apply Z.leb_le. Qed.

Lemma rank_inj a b : rank a = rank b -> a = b.
Proof. destruct a, b; cbn; intros; congruence || lia. Qed.

(** The role order is a strict total order with
    viewer < member < admin < owner. *)
Lemma role_lt_strict_total :
  role_lt viewer member /\ role_lt member admin /\ role_lt admin owner /\
  (forall a, ~ role_lt a a) /\
  (forall a b c, role_lt a b -> role_lt b c -> role_lt a c) /\
  (forall a b, role_lt a b \/ a = b \/ role_lt b a).
Proof.
  unfold role_lt. repeat split; cbn; try lia.
  intros a b. destruct (Z.lt_total (rank a) (rank b)) as [H|[H|H]]; auto.
  right. left. now apply rank_inj.
Qed.

(** C6: under the strict order viewer < member < admin < owner, the policy
    permits an operation exactly under the condition of its row of the
    table, and the roles it permits are exactly those the table lists. *)
Theorem policy_matches_capability_table :
  (role_lt viewer member /\ role_lt member admin /\ role_lt admin owner /\
   (forall a, ~ role_lt a a) /\
   (forall a b c, role_lt a b -> role_lt b c -> role_lt a c) /\
   (forall a b, role_lt a b \/ a = b \/ role_lt b a)) /\
  (forall actor st,
      (permits actor st ViewFeed = true <-> role_le member actor) /\
      (permits actor st PostFeedItem = true <->
         (actor = member /\ ClubSettings.membersCanPost st = true)
         \/ role_le admin actor) /\
      (permits actor st InviteMember = true <->
         (actor = member /\ ClubSettings.membersCanInvite st = true)
         \/ role_le admin actor) /\
      (forall target,
          permits actor st (RemoveMember target) = true <->
          role_le admin actor /\ role_lt target actor) /\
      (forall target newRole,
          permits actor st (ChangeMemberRole target newRole) = true <->
          role_le admin actor /\ role_lt target actor /\ role_le newRole actor) /\
      (permits actor st UpdateClubSettings = true <-> actor = owner) /\
      (permits actor st DeleteClub = true <-> actor = owner)) /\
  (forall canPost canInvite,
      let st := settings_with canPost canInvite in
      permitted_roles st ViewFeed = [member; admin; owner] /\
      permitted_roles st PostFeedItem
        = (if canPost then [member; admin; owner] else [admin; owner]) /\
      permitted_roles st InviteMember
        = (if canInvite then [member; admin; owner] else [admin; owner]) /\
      removal_pairs st
        = [(admin, viewer); (admin, member);
           (owner, viewer); (owner, member); (owner, admin)] /\
      (forall target,
          grantable_roles st viewer target = [] /\
          grantable_roles st member target = [] /\
          grantable_roles st admin target
            = (if role_ltb target admin then [viewer; member; admin] else []) /\
          grantable_roles st owner target
            = (if role_ltb target owner then [viewer; member; admin; owner] else [])) /\
      permitted_roles st UpdateClubSettings = [owner] /\
      permitted_roles st DeleteClub = [owner]).
Proof.
  split; [exact role_lt_strict_total|]. split.
  - intros actor st. unfold permits.
    repeat split; intros;
      rewrite ?orb_true_iff, ?andb_true_iff, ?bool_decide_eq_true,
        ?role_leb_le, ?role_ltb_lt in *; tauto.
  - intros canPost canInvite. cbv zeta.
    repeat split; try (now destruct canPost); try (now destruct canInvite);
      now destruct target.
Qed.

End AccessControlPolicy.

(** ** The club effects ([app/store/clubs/effects.ts]) *)

Module ClubEffects.

Import Bytes Js ApiModels ClubApiService EncryptionService.

(** [state.feed.identity], as far as the effects read it. *)
Record Identity := {
  id : string;
  password : string;
  publicKey : list byte;
  privateKey : list byte;
}.

(** The payload of [createClubStarted] that the effect reads. *)
Record CreateClubPayload := {
  name : string;
  description : option string;
  isPublic : bool;
  membersCanPost : bool;
  membersCanInvite : bool;
  maxMembers : Z;
  settings : ClubSettings.t;
}.

(** The action an effect dispatches when it ends. *)
Inductive Dispatched :=
| createClubCompleted (club : Club.POJO)
| createClubFailed
| loadMyClubsCompleted (clubs : list Club.POJO)
| loadMyClubsFailed.

(** *** Text

    A JavaScript string is held as the bytes of its UTF-8 form; a lone
    surrogate, which UTF-8 does not have, as the three bytes that its code
    point would take ([ED], then [A0]..[BF], then a continuation byte). *)

(** U+FFFD, the replacement character. *)
Definition replacement : list byte := [xef; xbf; xbd].

Definition between (lower upper : Z) (b : byte) : bool :=
  (lower <=? byte_val b) && (byte_val b <=? upper).

(** The UTF-8 encoder behind [TextEncoder]: every lone surrogate is written
    as U+FFFD, everything else as it is. *)
Fixpoint utf8_encode (s : list byte) : list byte :=
  match s with
  | [] => []
  | b :: rest =>
      match rest with
      | b1 :: _ :: rest' =>
          if (byte_val b =? 237) && between 160 191 b1
          then replacement ++ utf8_encode rest'
          else b :: utf8_encode rest
      | _ => b :: utf8_encode rest
      end
  end.

(** What a byte starts: a one-byte character, a sequence that needs
    [needed] more bytes, the first of them between [lower] and [upper], or
    nothing. *)
Inductive lead :=
| Single
| Lead (needed : nat) (lower upper : Z)
| Invalid.

Definition classify (b : byte) : lead :=
  let z := byte_val b in
  if z <=? 127 then Single
  else if (194 <=? z) && (z <=? 223) then Lead 1 128 191
  else if (224 <=? z) && (z <=? 239) then
    Lead 2 (if z =? 224 then 160 else 128) (if z =? 237 then 159 else 191)
  else if (240 <=? z) && (z <=? 244) then
    Lead 3 (if z =? 240 then 144 else 128) (if z =? 244 then 143 else 191)
  else Invalid.

(** The UTF-8 decoder behind [TextDecoder] (not fatal): [seen] holds the
    bytes of the sequence that is being read, [needed] the number of bytes
    it still needs, the next of them between [lower] and [upper].  A byte
    that does not fit ends the sequence with U+FFFD and is then read as
    the first byte of what follows; so does the end of the input. *)
Fixpoint utf8_decode (seen : list byte) (needed : nat) (lower upper : Z)
    (input : list byte) : list byte :=
  match input with
  | [] => match needed with O => [] | S _ => replacement end
  | b :: rest =>
      let first :=
        match classify b with
        | Single => b :: utf8_decode [] 0 128 191 rest
        | Lead n lo hi => utf8_decode [b] n lo hi rest
        | Invalid => replacement ++ utf8_decode [] 0 128 191 rest
        end in
      match needed with
      | O => first
      | S n =>
          if between lower upper b then
            match n with
            | O => seen ++ b :: utf8_decode [] 0 128 191 rest
            | S _ => utf8_decode (seen ++ [b]) n 128 191 rest
            end
          else replacement ++ first
      end
  end.

(** A byte order mark at the start of the input is not part of the text. *)
Definition strip_bom (input : list byte) : list byte :=
  match input with
  | b1 :: b2 :: b3 :: rest =>
      if (byte_val b1 =? 239) && (byte_val b2 =? 187) && (byte_val b3 =? 191)
      then rest else input
  | _ => input
  end.

(** [new TextEncoder().encode(s)] and [new TextDecoder().decode(b)]. *)
Definition TextEncoder_encode (s : string) : list byte :=
  utf8_encode (list_byte_of_string s).

Definition TextDecoder_decode (b : list byte) : string :=
  string_of_list_byte (utf8_decode [] 0 128 191 (strip_bom b)).

(** The random block that the create-club effect draws as IV of the name
    (after the 32 bytes of the key), and the one it draws next as IV of
    the description. *)
Definition name_iv (g : Entropy) : list byte :=
  List.map (tape g) (seq (cursor g + 32) 16).

Definition description_iv (g : Entropy) : list byte :=
  List.map (tape g) (seq (cursor g + 32 + 16) 16).

Section Effects.

(** The block transformation under [encryptAesCbcAsync] and
    [decryptAesCbcAsync]. *)
Variable aes_encrypt_block : AesKey -> list byte -> list byte.
Variable aes_decrypt_block : AesKey -> list byte -> list byte.

(** [encryptRsaOaepSha256Async(key, publicKey)] and
    [decryptRsaOaepSha256Async(payload, privateKey)] of the encryption
    service; the second one rejects on a payload it cannot open. *)
Variable encryptRsaOaepSha256 : AesKey -> list byte -> Entropy -> list byte * Entropy.
Variable decryptRsaOaepSha256 : list byte -> list byte -> completion Thrown AesKey.

(** [Instant.parse] of js-joda. *)
Variable Instant_parse : string -> completion Thrown Instant.

(** [extra.clubApi]: the service and its environment. *)
Variable baseUrl : string.
Variable ResponseError_message : ResponseInfo -> string.
Variable fetch : forall op : Operation, HttpRequest -> FetchOutcome (Wire op).
Variable max_arguments : Z.

Definition decryptAesCbcAsync (payload : AesEncryptedAndIvPayload) (key : AesKey)
  : completion Thrown (list byte) :=
  match decryptAesCbc aes_decrypt_block payload key with
  | Normal p => Normal p
  | Throw name => Throw (ThrownOther (Some name))
  end.

(** What the create-club effect has computed when it calls the API (lines
    249-282): the club key, the key wrapped for the owner, and the request. *)
Record Prepared := {
  clubAesKey : AesKey;
  encryptedAesKey : list byte;
  request : CreateClubRequest.t;
}.

Definition prepare_createClub (payload : CreateClubPayload) (identity : Identity)
    (g : Entropy) : Prepared * Entropy :=
  (* Generate club AES key *)
  let '(clubAesKey, g) := generateAesKey g in
  (* Encrypt club name, description *)
  let '(encryptedName, g) :=
    encryptAesCbc aes_encrypt_block (TextEncoder_encode (name payload)) clubAesKey g in
  let '(encryptedDescription, g) :=
    match description payload with
    | Some d =>
        if ClubFeedItem.truthy_string (Some d) then
          let '(e, g) :=
            encryptAesCbc aes_encrypt_block (TextEncoder_encode d) clubAesKey g in
          (Some e, g)
        else (None, g)
    | None => (None, g)
    end in
  (* Encrypt AES key with owner's RSA public key *)
  let '(encryptedAesKey, g) :=
    encryptRsaOaepSha256 clubAesKey (publicKey identity) g in
  ({| clubAesKey := clubAesKey;
      encryptedAesKey := encryptedAesKey;
      request :=
        CreateClubRequest.mk
          (id identity) (password identity)
          (encryptedPayload encryptedName)
          (encryptedPayload <$> encryptedDescription)
          None
          (iv_value (iv encryptedName))
          (isPublic payload) (membersCanPost payload) (membersCanInvite payload)
          (maxMembers payload) |}, g).

(** The effect of [createClubStarted] (lines 236-309). *)
Definition createClubStarted_effect (payload : CreateClubPayload)
    (identity : option Identity) (g : Entropy) : Dispatched :=
  match identity with
  | None => createClubFailed
  | Some identity =>
      let '(prepared, _) := prepare_createClub payload identity g in
      let attempt : completion Thrown Dispatched :=
        result ← createClubAsync baseUrl ResponseError_message fetch max_arguments
                   (request prepared);
        match result with
        | fromError _ => Normal createClubFailed
        | ApiResult_new data =>
            created ← Instant_parse (CreateClubResponse.created data);
            let club :=
              Club.mk (CreateClubResponse.clubId data) (id identity) created
                      (name payload) (description payload) None
                      (clubAesKey prepared) (isPublic payload) (settings payload)
                      1 in
            Normal (createClubCompleted (Club.toPOJO club))
        end in
      match attempt with
      | Normal d => d
      | Throw _ => createClubFailed
      end
  end.

(** The body of the [map] callback of the load effect (lines 337-403):
    [None] stands for [null]. *)
Definition load_club (identity : Identity)
    (clubResponse : GetClubResponse.t (list byte))
  : completion Thrown (option Club.t) :=
  (* Fetch member to get encrypted AES key *)
  membersResult ←
    getClubMembersAsync baseUrl ResponseError_message fetch max_arguments
      (GetClubMembersRequest.mk (GetClubResponse.id clubResponse)
                                (id identity) (password identity));
  match membersResult with
  | fromError _ => Normal None
  | ApiResult_new data =>
      match List.find
              (fun m => bool_decide (ClubMemberResponse.userId m = id identity))
              (GetClubMembersResponse.members data) with
      | None => Normal None
      | Some myMembership =>
          (* Decrypt AES key *)
          clubAesKey ←
            decryptRsaOaepSha256 (ClubMemberResponse.encryptedAesKey myMembership)
                                 (privateKey identity);
          (* Decrypt club name *)
          decryptedName ←
            decryptAesCbcAsync
              {| encryptedPayload := GetClubResponse.encryptedName clubResponse;
                 iv := {| iv_value := GetClubResponse.encryptionIv clubResponse |} |}
              clubAesKey;
          let name := TextDecoder_decode decryptedName in
          (* Decrypt description if present *)
          description ←
            match GetClubResponse.encryptedDescription clubResponse with
            | Some encryptedDescription =>
                decryptedDesc ←
                  decryptAesCbcAsync
                    {| encryptedPayload := encryptedDescription;
                       iv := {| iv_value :=
                                  GetClubResponse.encryptionIv clubResponse |} |}
                    clubAesKey;
                Normal (Some (TextDecoder_decode decryptedDesc))
            | None => Normal None
            end;
          created ← Instant_parse (GetClubResponse.created clubResponse);
          Normal
            (Some
               (Club.mk (GetClubResponse.id clubResponse)
                        (GetClubResponse.ownerUserId clubResponse)
                        created name description
                        (GetClubResponse.encryptedProfilePicture clubResponse)
                        clubAesKey
                        (GetClubResponse.isPublic clubResponse)
                        (ClubSettings.mk
                           (GetClubResponse.membersCanPost clubResponse)
                           (GetClubResponse.membersCanInvite clubResponse)
                           (GetClubResponse.maxMembers clubResponse))
                        (GetClubResponse.memberCount clubResponse)))
      end
  end.

(** The effect of [loadMyClubsStarted] (lines 312-416). *)
Definition loadMyClubsStarted_effect (identity : option Identity) : Dispatched :=
  match identity with
  | None => loadMyClubsFailed
  | Some identity =>
      let attempt : completion Thrown Dispatched :=
        result ← getMyClubsAsync baseUrl ResponseError_message fetch max_arguments
                   (GetMyClubsRequest.mk (id identity) (password identity));
        match result with
        | fromError _ => Normal loadMyClubsFailed
        | ApiResult_new data =>
            (* Decrypt club names and create Club objects *)
            clubs ← mapM (load_club identity) (GetMyClubsResponse.clubs data);
            let validClubs := omap (fun c => c) clubs in
            Normal (loadMyClubsCompleted (Club.toPOJO <$> validClubs))
        end in
      match attempt with
      | Normal d => d
      | Throw _ => loadMyClubsFailed
      end
  end.

End Effects.

(** *** A storage to run the two effects against

    Modelled from the spec: the backend behind the API is not among the
    sources.  Section 6 describes it as "an opaque, reliable
    byte-store-and-retrieve collaborator", and section 4.6 has the owner's
    membership row hold the club key wrapped for the owner.  The storage
    keeps the fields of the create request as they came and serves them
    back; the owner's row holds the wrapped key computed by the effect
    (the request itself has no field for it). *)
Record ClubRow := {
  row_id : string;
  row_created : string;
  row_request : CreateClubRequest.t;
  row_owner_key : list byte;
}.

(** A byte array as it travels in JSON (the replacer of [stringify]). *)
Definition to_base64 (b : list byte) : jsstring :=
  Base64.encode (Base64.char_codes b).

Definition wire_club (row : ClubRow) : GetClubResponse.t jsstring :=
  let r := row_request row in
  GetClubResponse.mk
    (row_id row) (CreateClubRequest.userId r) (row_created row)
    (to_base64 (CreateClubRequest.encryptedName r))
    (to_base64 <$> CreateClubRequest.encryptedDescription r)
    (to_base64 <$> CreateClubRequest.encryptedProfilePicture r)
    (to_base64 (CreateClubRequest.encryptionIv r))
    (CreateClubRequest.isPublic r) (CreateClubRequest.membersCanPost r)
    (CreateClubRequest.membersCanInvite r) (CreateClubRequest.maxMembers r) 1.

Definition wire_owner (row : ClubRow) : ClubMemberResponse.t jsstring :=
  ClubMemberResponse.mk
    ("member-of-" +:+ row_id row) (row_id row)
    (CreateClubRequest.userId (row_request row)) (row_created row) owner
    (to_base64 (row_owner_key row)).

Definition respond {J} (j : J) : FetchOutcome J :=
  FetchResolved
    {| info := {| status := 200; statusText := "OK"; text := Normal ""%string |};
       json := Normal j |}.

Definition not_found {J} : FetchOutcome J :=
  FetchResolved
    {| info := {| status := 404; statusText := "Not Found";
                  text := Normal ""%string |};
       json := Throw None |}.

#[global] Instance Operation_eq_dec : EqDecision Operation.
Proof. solve_decision. Defined.

(** The request that a JSON body serialises, when it is one of [op]. *)
Definition body_request (op : Operation) (h : HttpRequest) : option (Request op) :=
  match body h with
  | NoBody => None
  | JsonBody op' r =>
      match decide (op' = op) with
      | left e => Some (eq_rect op' Request r op e)
      | right _ => None
      end
  end.

Definition server_fetch (rows : list ClubRow) (op : Operation) (h : HttpRequest)
  : FetchOutcome (Wire op) :=
  match op return option (Request op) -> FetchOutcome (Wire op) with
  | createClub => fun _ =>
      respond (CreateClubResponse.mk "club-1" "2025-11-23T10:00:00Z")
  | getMyClubs => fun r =>
      match r with
      | Some r =>
          respond
            (GetMyClubsResponse.mk
               (wire_club <$>
                  List.filter
                    (fun row =>
                       bool_decide (CreateClubRequest.userId (row_request row)
                                    = GetMyClubsRequest.userId r)) rows))
      | None => not_found
      end
  | getClubMembers => fun r =>
      match r with
      | Some r =>
          respond
            (GetClubMembersResponse.mk
               (wire_owner <$>
                  List.filter
                    (fun row =>
                       bool_decide (row_id row = GetClubMembersRequest.clubId r))
                    rows))
      | None => not_found
      end
  | _ => fun _ => not_found
  end (body_request op h).

(** The storage after a club was created from [prepared]. *)
Definition server_createClub (rows : list ClubRow) (prepared : Prepared)
  : list ClubRow :=
  rows ++ [{| row_id := "club-1"; row_created := "2025-11-23T10:00:00Z";
              row_request := request prepared;
              row_owner_key := encryptedAesKey prepared |}].

(** Stand-ins for the RSA operations and for [Instant.parse]. *)
Definition toy_encryptRsa (key : AesKey) (_ : list byte) (g : Entropy)
  : list byte * Entropy := (key_value key, g).

Definition toy_decryptRsa (payload _ : list byte) : completion Thrown AesKey :=
  Normal {| key_value := payload |}.

Definition toy_Instant_parse (_ : string) : completion Thrown Instant := Normal epoch.

(** A run: the owner creates the club "Club" with the description "Desc"; the
    source of randomness yields the key, then an all-zero block for the
    first IV and a block starting with 1 for the second. *)
Definition owner1 : Identity :=
  {| id := "user-1"; password := "secret"; publicKey := [x01]; privateKey := [x02] |}.

Definition payload1 : CreateClubPayload :=
  {| name := "Club"; description := Some "Desc"%string; isPublic := false;
     membersCanPost := true; membersCanInvite := false; maxMembers := 50;
     settings := ClubSettings.mk true false 50 |}.

Definition entropy1 : Entropy :=
  {| tape := fun i => if (i <? 32)%nat then x2a
                      else if (i =? 48)%nat then x01 else x00;
     cursor := 0 |}.

Definition prepared1 : Prepared :=
  (prepare_createClub toy_encrypt_block toy_encryptRsa payload1 owner1 entropy1).1.

Definition created1 : Dispatched :=
  createClubStarted_effect toy_encrypt_block toy_encryptRsa toy_Instant_parse
    "https://api.liftlog.online/v2/" (fun _ => "HTTP error"%string)
    (server_fetch []) engine_limit payload1 (Some owner1) entropy1.

Definition loaded1 : Dispatched :=
  loadMyClubsStarted_effect toy_decrypt_block toy_decryptRsa toy_Instant_parse
    "https://api.liftlog.online/v2/" (fun _ => "HTTP error"%string)
    (server_fetch (server_createClub [] prepared1)) engine_limit (Some owner1).

End ClubEffects.

(** *** Creating a club, then loading it *)

Module ClubEffectsFacts.

Import Js ApiModels ClubApiService EncryptionService EncryptionFacts ClubEffects.

Section Facts.

Variable aes_encrypt_block : AesKey -> list byte -> list byte.
Variable aes_decrypt_block : AesKey -> list byte -> list byte.
Variable encryptRsaOaepSha256 : AesKey -> list byte -> Entropy -> list byte * Entropy.

Hypothesis aes_block_length :
  forall k b, is_block b -> is_block (aes_encrypt_block k b).
Hypothesis aes_block_inverse :
  forall k b, is_block b -> aes_decrypt_block k (aes_encrypt_block k b) = b.

(** The name is sent with its own IV and is read back by the load effect's
    decryption. *)
Lemma name_recovered payload identity g :
  let p := (prepare_createClub aes_encrypt_block encryptRsaOaepSha256
              payload identity g).1 in
  CreateClubRequest.encryptionIv (request p) = name_iv g /\
  decryptAesCbc aes_decrypt_block
    {| encryptedPayload := CreateClubRequest.encryptedName (request p);
       iv := {| iv_value := CreateClubRequest.encryptionIv (request p) |} |}
    (clubAesKey p)
  = Normal (TextEncoder_encode (name payload)).
Proof.
  cbv zeta. unfold prepare_createClub, generateAesKey, encryptAesCbc.
  cbn [getRandomValues fst snd].
  destruct (description payload) as [d|];
    [destruct (ClubFeedItem.truthy_string (Some d))|];
    destruct (encryptRsaOaepSha256 _ _ _) as [w g']; cbn;
    (split; [reflexivity|]);
    apply decrypt_encrypt_with_iv; auto; reflexivity.
Qed.

(** The description is encrypted under an IV of its own, which is not
    sent: the request carries the IV of the name only.  Whenever the two
    IVs differ, decrypting the description with the IV of the request, as
    the load effect does, does not give the description. *)
Lemma description_not_recovered payload identity g d :
  description payload = Some d -> d <> ""%string ->
  name_iv g <> description_iv g ->
  let p := (prepare_createClub aes_encrypt_block encryptRsaOaepSha256
              payload identity g).1 in
  exists e,
    CreateClubRequest.encryptedDescription (request p) = Some e /\
    decryptAesCbc aes_decrypt_block
      {| encryptedPayload := e;
         iv := {| iv_value := CreateClubRequest.encryptionIv (request p) |} |}
      (clubAesKey p)
    <> Normal (TextEncoder_encode d).
Proof.
  intros Hd Hne Hiv. cbv zeta.
  unfold prepare_createClub, generateAesKey, encryptAesCbc.
  cbn [getRandomValues fst snd]. rewrite Hd.
  replace (ClubFeedItem.truthy_string (Some d)) with true.
  2:{ cbn. destruct (String.eqb_spec d ""); [contradiction|reflexivity]. }
  destruct (encryptRsaOaepSha256 _ _ _) as [w g']. cbn.
  eexists. split; [reflexivity|].
  apply decrypt_other_iv; auto; reflexivity.
Qed.

End Facts.

(** C1 on a run: the club "Club" with description "Desc" is created and
    then loaded by its owner through a storage that returns every stored
    byte unchanged.  The name comes back; the description comes back as
    "Eesc", because it was encrypted under the second IV and is decrypted
    under the first, the only one sent. *)
Theorem create_then_load_garbles_description :
  (exists c, created1 = createClubCompleted c /\
             Club.pojo_name c = "Club"%string /\
             Club.pojo_description c = Some "Desc"%string) /\
  CreateClubRequest.encryptionIv (request prepared1) = repeat x00 16 /\
  (exists c, loaded1 = loadMyClubsCompleted [c] /\
             Club.pojo_name c = "Club"%string /\
             Club.pojo_description c = Some "Eesc"%string /\
             Club.pojo_description c <> Some "Desc"%string).
Proof.
  split; [|split].
  - eexists. split; [vm_compute; reflexivity|]. split; reflexivity.
  - vm_compute. reflexivity.
  - eexists. split; [vm_compute; reflexivity|].
    split; [reflexivity|]. split; [reflexivity|discriminate].
Qed.

End ClubEffectsFacts.

(** ** More of [club-models.ts]: the [with] methods, invites, feed-item POJOs *)

Module ModelUpdates.

(** [Partial<ClubSettingsPOJO>]: every property may be missing or
    [undefined], which reads the same and is [None] here. *)
Record PartialClubSettingsPOJO := {
  ps_BRAND : option string;
  ps_membersCanPost : option bool;
  ps_membersCanInvite : option bool;
  ps_maxMembers : option Z;
}.

(** [ClubSettings.with] (line 38): [a ?? b] is [b] exactly when [a] is
    missing. *)
Definition ClubSettings_with (this : ClubSettings.t)
    (other : PartialClubSettingsPOJO) : ClubSettings.t :=
  ClubSettings.mk
    (default (ClubSettings.membersCanPost this) (ps_membersCanPost other))
    (default (ClubSettings.membersCanInvite this) (ps_membersCanInvite other))
    (default (ClubSettings.maxMembers this) (ps_maxMembers other)).

(** A POJO passed where a partial one is expected. *)
Definition partial_of_settings (p : ClubSettings.POJO) : PartialClubSettingsPOJO :=
  {| ps_BRAND := Some (ClubSettings._BRAND p);
     ps_membersCanPost := Some (ClubSettings.pojo_membersCanPost p);
     ps_membersCanInvite := Some (ClubSettings.pojo_membersCanInvite p);
     ps_maxMembers := Some (ClubSettings.pojo_maxMembers p) |}.

Definition empty_settings_partial : PartialClubSettingsPOJO :=
  {| ps_BRAND := None; ps_membersCanPost := None; ps_membersCanInvite := None;
     ps_maxMembers := None |}.

(** Two partial settings laid over each other: each property has the value
    [q] defines for it and else the one of [p].  ([None] is a property that
    is missing or [undefined]: [??] does not tell the two apart.  The object
    spread [{ ...p, ...q }] does: an [undefined] property of [q] hides the
    one of [p].) *)
Definition overlay_settings (p q : PartialClubSettingsPOJO) : PartialClubSettingsPOJO :=
  {| ps_BRAND := if ps_BRAND q is Some b then Some b else ps_BRAND p;
     ps_membersCanPost :=
       if ps_membersCanPost q is Some b then Some b else ps_membersCanPost p;
     ps_membersCanInvite :=
       if ps_membersCanInvite q is Some b then Some b else ps_membersCanInvite p;
     ps_maxMembers :=
       if ps_maxMembers q is Some b then Some b else ps_maxMembers p |}.

(** [Partial<ClubPOJO>].  [description] and [profilePicture] are optional
    properties of a type that already admits [undefined]: a missing
    property and an [undefined] one read the same. *)
Record PartialClubPOJO := {
  pc_BRAND : option string;
  pc_id : option string;
  pc_ownerUserId : option string;
  pc_created : option Instant;
  pc_name : option string;
  pc_description : option string;
  pc_profilePicture : option (list byte);
  pc_aesKey : option AesKey;
  pc_isPublic : option bool;
  pc_settings : option ClubSettings.POJO;
  pc_memberCount : option Z;
}.

(** [Club.with] (line 144). *)
Definition Club_with (this : Club.t) (other : PartialClubPOJO) : Club.t :=
  Club.mk
    (default (Club.id this) (pc_id other))
    (default (Club.ownerUserId this) (pc_ownerUserId other))
    (default (Club.created this) (pc_created other))
    (default (Club.name this) (pc_name other))
    (if pc_description other is Some d then Some d else Club.description this)
    (if pc_profilePicture other is Some p then Some p else Club.profilePicture this)
    (default (Club.aesKey this) (pc_aesKey other))
    (default (Club.isPublic this) (pc_isPublic other))
    (if pc_settings other is Some s then ClubSettings.fromPOJO s
     else Club.settings this)
    (default (Club.memberCount this) (pc_memberCount other)).

Definition partial_of_club (p : Club.POJO) : PartialClubPOJO :=
  {| pc_BRAND := Some (Club._BRAND p);
     pc_id := Some (Club.pojo_id p);
     pc_ownerUserId := Some (Club.pojo_ownerUserId p);
     pc_created := Some (Club.pojo_created p);
     pc_name := Some (Club.pojo_name p);
     pc_description := Club.pojo_description p;
     pc_profilePicture := Club.pojo_profilePicture p;
     pc_aesKey := Some (Club.pojo_aesKey p);
     pc_isPublic := Some (Club.pojo_isPublic p);
     pc_settings := Some (Club.pojo_settings p);
     pc_memberCount := Some (Club.pojo_memberCount p) |}.

Definition empty_club_partial : PartialClubPOJO :=
  {| pc_BRAND := None; pc_id := None; pc_ownerUserId := None; pc_created := None;
     pc_name := None; pc_description := None; pc_profilePicture := None;
     pc_aesKey := None; pc_isPublic := None; pc_settings := None;
     pc_memberCount := None |}.

(** [Partial<ClubMemberPOJO>]. *)
Record PartialClubMemberPOJO := {
  pm_BRAND : option string;
  pm_clubId : option string;
  pm_userId : option string;
  pm_role : option ClubRole;
  pm_joined : option Instant;
}.

(** [ClubMember.with] (line 195). *)
Definition ClubMember_with (this : ClubMember.t) (other : PartialClubMemberPOJO)
  : ClubMember.t :=
  ClubMember.mk
    (default (ClubMember.clubId this) (pm_clubId other))
    (default (ClubMember.userId this) (pm_userId other))
    (default (ClubMember.role this) (pm_role other))
    (default (ClubMember.joined this) (pm_joined other)).

Definition partial_of_member (p : ClubMember.POJO) : PartialClubMemberPOJO :=
  {| pm_BRAND := Some (ClubMember._BRAND p);
     pm_clubId := Some (ClubMember.pojo_clubId p);
     pm_userId := Some (ClubMember.pojo_userId p);
     pm_role := Some (ClubMember.pojo_role p);
     pm_joined := Some (ClubMember.pojo_joined p) |}.

Definition empty_member_partial : PartialClubMemberPOJO :=
  {| pm_BRAND := None; pm_clubId := None; pm_userId := None; pm_role := None;
     pm_joined := None |}.

(** The class [ClubInvite] (line 372) with its conversions. *)
Record ClubInvite_t := mkClubInvite {
  clubId : string;
  clubName : string;
  clubDescription : option string;
  clubProfilePicture : option (list byte);
  clubAesKey : AesKey;
  offeredRole : ClubRole;
  fromUserId : string;
  fromUserName : option string;
}.

Definition ClubInvite_fromPOJO (pojo : ClubInvite.POJO) : ClubInvite_t :=
  mkClubInvite
    (ClubInvite.clubId pojo) (ClubInvite.clubName pojo)
    (ClubInvite.clubDescription pojo) (ClubInvite.clubProfilePicture pojo)
    (ClubInvite.clubAesKey pojo) (ClubInvite.offeredRole pojo)
    (ClubInvite.fromUserId pojo) (ClubInvite.fromUserName pojo).

Definition ClubInvite_toPOJO (this : ClubInvite_t) : ClubInvite.POJO :=
  ClubInvite.mkPOJO "CLUB_INVITE_POJO"
    (clubId this) (clubName this) (clubDescription this)
    (clubProfilePicture this) (clubAesKey this) (offeredRole this)
    (fromUserId this) (fromUserName this).

(** The POJOs of the two feed-item classes: the base properties and the
    payload. *)
Record ClubSessionFeedItemPOJO {SessionPOJO : Type} := {
  session_base : ClubFeedItem.POJO;
  session_pojo : SessionPOJO;
}.

Arguments ClubSessionFeedItemPOJO : clear implicits.

Record ClubAnnouncementFeedItemPOJO := {
  announcement_base : ClubFeedItem.POJO;
  announcement_pojo : string;
}.

Section FeedItemPOJO.

(** [Session], [SessionPOJO] and the two conversions of [session-models]. *)
Context {Session SessionPOJO : Type}.
Variable Session_fromPOJO : SessionPOJO -> Session.
Variable Session_toPOJO : Session -> SessionPOJO.

(** [ClubSessionFeedItem.fromPOJO] (line 260). *)
Definition ClubSessionFeedItem_fromPOJO (pojo : ClubSessionFeedItemPOJO SessionPOJO)
  : ClubFeedItem.t Session :=
  let b := session_base pojo in
  ClubFeedItem.ClubSessionFeedItem
    (ClubFeedItem.pojo_clubId b) (ClubFeedItem.pojo_userId b)
    (ClubFeedItem.pojo_eventId b) (ClubFeedItem.pojo_timestamp b)
    (ClubFeedItem.pojo_expiry b) (Session_fromPOJO (session_pojo pojo)).

(** [ClubAnnouncementFeedItem.fromPOJO] (line 320). *)
Definition ClubAnnouncementFeedItem_fromPOJO (pojo : ClubAnnouncementFeedItemPOJO)
  : ClubFeedItem.t Session :=
  let b := announcement_base pojo in
  ClubFeedItem.ClubAnnouncementFeedItem
    (ClubFeedItem.pojo_clubId b) (ClubFeedItem.pojo_userId b)
    (ClubFeedItem.pojo_eventId b) (ClubFeedItem.pojo_timestamp b)
    (ClubFeedItem.pojo_expiry b) (announcement_pojo pojo).

(** [toPOJO] (lines 271 and 331), dispatched on the class of the item. *)
Definition ClubFeedItem_toPOJO (this : ClubFeedItem.t Session)
  : ClubSessionFeedItemPOJO SessionPOJO + ClubAnnouncementFeedItemPOJO :=
  match this with
  | ClubFeedItem.ClubSessionFeedItem c u e ts x s =>
      inl {| session_base :=
               ClubFeedItem.mkPOJO "CLUB_SESSION_FEED_ITEM_POJO" c u e ts x;
             session_pojo := Session_toPOJO s |}
  | ClubFeedItem.ClubAnnouncementFeedItem c u e ts x a =>
      inr {| announcement_base :=
               ClubFeedItem.mkPOJO "CLUB_ANNOUNCEMENT_FEED_ITEM_POJO" c u e ts x;
             announcement_pojo := a |}
  end.

(** The [_BRAND] of a feed-item POJO. *)
Definition feed_brand
    (p : ClubSessionFeedItemPOJO SessionPOJO + ClubAnnouncementFeedItemPOJO)
  : string :=
  match p with
  | inl s => ClubFeedItem._BRAND (session_base s)
  | inr a => ClubFeedItem._BRAND (announcement_base a)
  end.

(** Reading a POJO back with the [fromPOJO] of its own class. *)
Definition ClubFeedItem_fromPOJO
    (p : ClubSessionFeedItemPOJO SessionPOJO + ClubAnnouncementFeedItemPOJO)
  : ClubFeedItem.t Session :=
  match p with
  | inl s => ClubSessionFeedItem_fromPOJO s
  | inr a => ClubAnnouncementFeedItem_fromPOJO a
  end.

End FeedItemPOJO.

End ModelUpdates.

(** ** Byte arrays in responses *)

Module WireFormat.

Import Js ApiModels.

(** The base64 text of a byte array: what [uint8ArrayToBase64] gives an
    array that it accepts. *)
Definition base64_text (b : list byte) : jsstring :=
  Base64.encode (Base64.char_codes b).

(** A club response with every byte array written as its base64 text. *)
Definition club_on_wire (r : GetClubResponse.t (list byte))
  : GetClubResponse.t jsstring :=
  GetClubResponse.mk
    (GetClubResponse.id r) (GetClubResponse.ownerUserId r)
    (GetClubResponse.created r)
    (base64_text (GetClubResponse.encryptedName r))
    (base64_text <$> GetClubResponse.encryptedDescription r)
    (base64_text <$> GetClubResponse.encryptedProfilePicture r)
    (base64_text (GetClubResponse.encryptionIv r))
    (GetClubResponse.isPublic r) (GetClubResponse.membersCanPost r)
    (GetClubResponse.membersCanInvite r) (GetClubResponse.maxMembers r)
    (GetClubResponse.memberCount r).

(** An optional byte array as it is read back: the empty array has the
    empty text, which is falsy. *)
Definition without_empty (o : option (list byte)) : option (list byte) :=
  match o with
  | Some [] => None
  | _ => o
  end.

Definition club_without_empty (r : GetClubResponse.t (list byte))
  : GetClubResponse.t (list byte) :=
  GetClubResponse.mk
    (GetClubResponse.id r) (GetClubResponse.ownerUserId r)
    (GetClubResponse.created r)
    (GetClubResponse.encryptedName r)
    (without_empty (GetClubResponse.encryptedDescription r))
    (without_empty (GetClubResponse.encryptedProfilePicture r))
    (GetClubResponse.encryptionIv r)
    (GetClubResponse.isPublic r) (GetClubResponse.membersCanPost r)
    (GetClubResponse.membersCanInvite r) (GetClubResponse.maxMembers r)
    (GetClubResponse.memberCount r).

(** A member row and an event with their byte arrays written as base64
    text. *)
Definition member_on_wire (m : ClubMemberResponse.t (list byte))
  : ClubMemberResponse.t jsstring :=
  ClubMemberResponse.mk
    (ClubMemberResponse.id m) (ClubMemberResponse.clubId m)
    (ClubMemberResponse.userId m) (ClubMemberResponse.joined m)
    (ClubMemberResponse.role m) (base64_text (ClubMemberResponse.encryptedAesKey m)).

Definition event_on_wire (e : ClubEventResponse.t (list byte))
  : ClubEventResponse.t jsstring :=
  ClubEventResponse.mk
    (ClubEventResponse.id e) (ClubEventResponse.clubId e)
    (ClubEventResponse.userId e) (ClubEventResponse.timestamp e)
    (ClubEventResponse.expiry e)
    (base64_text (ClubEventResponse.encryptedEvent e))
    (base64_text (ClubEventResponse.encryptionIv e)).

(** A code unit that [atob] neither skips nor accepts. *)
Definition foreign_char (c : Z) : Prop :=
  Base64.is_ascii_whitespace c = false /\ c <> Base64.pad_char /\
  Base64.b64_index c = None.

End WireFormat.

(** ** Outcomes of an operation and of the effects, by cases *)

Module Outcomes.

Import Js ApiModels ClubApiService ClubEffects.

(** What the action of an operation makes of a response with a success
    status: the six operations that return data read and convert the
    body, the others return nothing. *)
Definition on_success (op : Operation) (resp : FetchResponse (Wire op))
  : completion Thrown (Result op) :=
  match op return FetchResponse (Wire op) -> completion Thrown (Result op) with
  | createClub => fun resp => j ← await_json resp; convert createClub j
  | getClub => fun resp => j ← await_json resp; convert getClub j
  | searchClubs => fun resp => j ← await_json resp; convert searchClubs j
  | getMyClubs => fun resp => j ← await_json resp; convert getMyClubs j
  | getClubMembers => fun resp => j ← await_json resp; convert getClubMembers j
  | getClubEvents => fun resp => j ← await_json resp; convert getClubEvents j
  | _ => fun _ => Normal tt
  end resp.

(** A [my-clubs] answer with one club whose name is not base64 text. *)
Definition club_with_bad_name : GetClubResponse.t jsstring :=
  GetClubResponse.mk "club-1" "user-1" "2025-11-23T10:00:00Z"
    (code_units "dGV*dA==") None None (code_units "AAAAAAAAAAAAAAAAAAAAAA==")
    false true false 50 1.

Definition bad_name_fetch (op : Operation) (_ : HttpRequest)
  : FetchOutcome (Wire op) :=
  match op return FetchOutcome (Wire op) with
  | getMyClubs => respond (GetMyClubsResponse.mk [club_with_bad_name])
  | _ => not_found
  end.

(** A storage that holds one club whose stored name is empty: it is not a
    ciphertext, so its decryption fails. *)
Definition broken_row : ClubRow :=
  {| row_id := "club-9"; row_created := "2025-11-23T10:00:00Z";
     row_request :=
       CreateClubRequest.mk "user-1" "secret" [] None None (repeat x00 16)
                            false true false 50;
     row_owner_key := repeat x2a 32 |}.

(** A club created without a description, and the storage after it. *)
Definition payload2 : CreateClubPayload :=
  {| name := "Club"; description := None; isPublic := false;
     membersCanPost := true; membersCanInvite := false; maxMembers := 50;
     settings := ClubSettings.mk true false 50 |}.

Definition prepared2 : Prepared :=
  (prepare_createClub EncryptionService.toy_encrypt_block toy_encryptRsa
     payload2 owner1 entropy1).1.

End Outcomes.

(** ** Lookups used to state facts about the reducers *)

Module ClubsStoreMore.

Import ClubsStore.

Section Slice.

Context {FeedUserPOJO : Type}.
Implicit Types (s : ClubsState FeedUserPOJO).

(** The club that a list of loaded clubs leaves under the id [k]: the last
    one of the list with that id. *)
Definition last_with_id (k : string) (cs : list Club.POJO) : option Club.POJO :=
  last (filter (fun c => Club.pojo_id c = k) cs).

End Slice.

End ClubsStoreMore.

(** *** Facts about the [with] methods and the other conversions *)

Module ModelUpdateFacts.

Import ModelUpdates.

(** X1: [with] given nothing returns an equal object.  [with] given the
    POJO of another object returns that object for settings and members;
    for clubs it returns the other club except that a description or
    profile picture the other club lacks is taken from the receiver. *)
Theorem with_full_pojo :
  (forall s t, ClubSettings_with s empty_settings_partial = s /\
               ClubSettings_with s (partial_of_settings (ClubSettings.toPOJO t)) = t) /\
  (forall m n, ClubMember_with m empty_member_partial = m /\
               ClubMember_with m (partial_of_member (ClubMember.toPOJO n)) = n) /\
  (forall c d,
      Club_with c empty_club_partial = c /\
      Club_with c (partial_of_club (Club.toPOJO d))
      = Club.mk (Club.id d) (Club.ownerUserId d) (Club.created d) (Club.name d)
          (if Club.description d is Some x then Some x else Club.description c)
          (if Club.profilePicture d is Some x then Some x
           else Club.profilePicture c)
          (Club.aesKey d) (Club.isPublic d) (Club.settings d)
          (Club.memberCount d)).
Proof.
  repeat split.
  - now destruct s.
  - now destruct t.
  - now destruct m.
  - now destruct n.
  - now destruct c.
  - destruct d as [? ? ? ? ? ? ? ? [] ?]. reflexivity.
Qed.

(** X2: [Club.with] cannot clear the description or the profile picture:
    a club that has one still has one after any [with]. *)
Theorem Club_with_never_clears (c : Club.t) (other : PartialClubPOJO) :
  (is_Some (Club.description c) -> is_Some (Club.description (Club_with c other))) /\
  (is_Some (Club.profilePicture c) ->
   is_Some (Club.profilePicture (Club_with c other))).
Proof.
  split; intros H; cbn.
  - destruct (pc_description other); [eauto|exact H].
  - destruct (pc_profilePicture other); [eauto|exact H].
Qed.

(** X3: two [with] calls in a row on club settings are one [with] of the
    two partial objects laid over each other (the later defined value of a
    property wins); a given [false] or [0] does override (the code uses
    [??]). *)
Theorem ClubSettings_with_compose (s : ClubSettings.t) (p q : PartialClubSettingsPOJO) :
  ClubSettings_with (ClubSettings_with s p) q
  = ClubSettings_with s (overlay_settings p q) /\
  ClubSettings.membersCanPost
    (ClubSettings_with s
       {| ps_BRAND := None; ps_membersCanPost := Some false;
          ps_membersCanInvite := None; ps_maxMembers := Some 0 |}) = false /\
  ClubSettings.maxMembers
    (ClubSettings_with s
       {| ps_BRAND := None; ps_membersCanPost := Some false;
          ps_membersCanInvite := None; ps_maxMembers := Some 0 |}) = 0.
Proof.
  split; [|split; reflexivity].
  destruct p as [? [?|] [?|] [?|]], q as [? [?|] [?|] [?|]]; reflexivity.
Qed.

(** X4: [ClubInvite.fromPOJO] after [toPOJO] gives the invite back; the
    other way round gives the POJO back exactly when its brand is the
    invite brand, since [fromPOJO] drops the brand and [toPOJO] sets it. *)
Theorem ClubInvite_roundtrip :
  (forall i, ClubInvite_fromPOJO (ClubInvite_toPOJO i) = i) /\
  (forall p, ClubInvite_toPOJO (ClubInvite_fromPOJO p) = p
             <-> ClubInvite._BRAND p = "CLUB_INVITE_POJO"%string).
Proof.
  split.
  - now intros [].
  - intros [b ? ? ? ? ? ? ? ?]. unfold ClubInvite_toPOJO, ClubInvite_fromPOJO. cbn.
    split; [now intros [= <-]|now intros ->].
Qed.

(** X5: [toPOJO] after [fromPOJO] gives the POJO back exactly when it
    carries the brand of its class (for a club: also on its settings);
    in general it returns the POJO with the brands reset. *)
Theorem toPOJO_fromPOJO_brand :
  (forall p, ClubSettings.toPOJO (ClubSettings.fromPOJO p) = p
             <-> ClubSettings._BRAND p = "CLUB_SETTINGS_POJO"%string) /\
  (forall p, ClubMember.toPOJO (ClubMember.fromPOJO p) = p
             <-> ClubMember._BRAND p = "CLUB_MEMBER_POJO"%string) /\
  (forall p, Club.toPOJO (Club.fromPOJO p) = p
             <-> Club._BRAND p = "CLUB_POJO"%string /\
                 ClubSettings._BRAND (Club.pojo_settings p)
                 = "CLUB_SETTINGS_POJO"%string).
Proof.
  repeat split.
  - destruct p. cbn. now intros [= <-].
  - destruct p. cbn. now intros ->.
  - destruct p. cbn. now intros [= <-].
  - destruct p. cbn. now intros ->.
  - destruct p. cbn in *. now injection H as <-.
  - destruct p as [? ? ? ? ? ? ? ? ? [] ?]. cbn in *. now injection H as _ <-.
  - intros [H1 H2]. destruct p as [? ? ? ? ? ? ? ? ? [] ?]. cbn in *. now subst.
Qed.

Section FeedItems.

Context {Session SessionPOJO : Type}.
Variable Session_fromPOJO : SessionPOJO -> Session.
Variable Session_toPOJO : Session -> SessionPOJO.

Hypothesis Session_roundtrip : forall s, Session_fromPOJO (Session_toPOJO s) = s.

(** X6: a feed item written with [toPOJO] and read with the [fromPOJO] of
    its class is the item again, provided sessions round-trip; the brand
    written is the session brand exactly for session items, and the base
    properties are written unchanged. *)
Theorem ClubFeedItem_roundtrip (i : ClubFeedItem.t Session) :
  let p := ClubFeedItem_toPOJO Session_toPOJO i in
  ClubFeedItem_fromPOJO Session_fromPOJO p = i /\
  (feed_brand p = "CLUB_SESSION_FEED_ITEM_POJO"%string
   <-> is_Some (ClubFeedItem.session i)) /\
  (feed_brand p = "CLUB_ANNOUNCEMENT_FEED_ITEM_POJO"%string
   <-> is_Some (ClubFeedItem.announcement i)).
Proof.
  destruct i; cbv zeta;
    unfold ClubFeedItem_toPOJO, ClubFeedItem_fromPOJO, ClubSessionFeedItem_fromPOJO,
      ClubAnnouncementFeedItem_fromPOJO, feed_brand; cbn;
    (split; [now rewrite ?Session_roundtrip|]);
    split; split; intros H; try discriminate; eauto;
    now destruct H as [? [=]].
Qed.

End FeedItems.

(** X6 with sessions taken as numbers and their POJOs as the same numbers. *)
Lemma ClubFeedItem_roundtrip_witness :
  ClubFeedItem_fromPOJO (fun z : Z => z)
    (ClubFeedItem_toPOJO (fun z : Z => z)
       (ClubFeedItem.ClubSessionFeedItem "c" "u" "e" epoch epoch 7))
  = ClubFeedItem.ClubSessionFeedItem "c" "u" "e" epoch epoch 7.
Proof.
  exact (proj1 (ClubFeedItem_roundtrip (fun z : Z => z) (fun z : Z => z)
                  (fun _ => eq_refl)
                  (ClubFeedItem.ClubSessionFeedItem "c" "u" "e" epoch epoch 7))).
Defined.

(** X2 on a club with the description "d" and an update of the name only. *)
Lemma Club_with_never_clears_witness :
  is_Some (Club.description
             (Club_with
                (Club.mk "c" "o" epoch "n" (Some "d"%string) None
                         {| key_value := [] |} false (ClubSettings.mk true true 5) 1)
                {| pc_BRAND := None; pc_id := None; pc_ownerUserId := None;
                   pc_created := None; pc_name := Some "m"%string;
                   pc_description := None; pc_profilePicture := None;
                   pc_aesKey := None; pc_isPublic := None; pc_settings := None;
                   pc_memberCount := None |})).
Proof.
  apply (proj1 (Club_with_never_clears _ _)). cbn. eauto.
Defined.

End ModelUpdateFacts.

(** *** More facts about the reducers *)

Module ClubsStoreMoreFacts.

Import Js ClubsStore ClubsStoreMore ClubsStoreFacts.

Section Facts.

Context {FeedUserPOJO : Type}.
Implicit Types (s : ClubsState FeedUserPOJO).

Lemma ClubsState_eq s1 s2 :
  isHydrated s1 = isHydrated s2 -> clubs s1 = clubs s2 ->
  clubMembers s1 = clubMembers s2 -> clubFeeds s1 = clubFeeds s2 ->
  clubInvites s1 = clubInvites s2 -> discoveredClubs s1 = discoveredClubs s2 ->
  selectedClubId s1 = selectedClubId s2 -> isFetching s1 = isFetching s2 ->
  s1 = s2.
Proof. destruct s1, s2; cbn; intros; now subst. Qed.

(** X7: [createClubCompleted] and [joinClubCompleted] are the same state
    change.  For a club whose id is [__proto__] it throws.  For every other
    club it stores the club under its own id, replacing any club stored
    there, keeps every other club, ends the fetch and changes nothing
    else. *)
Theorem createClubCompleted_lookup s (club : Club.POJO) :
  joinClubCompleted s club = createClubCompleted s club /\
  (Club.pojo_id club = "__proto__"%string ->
   createClubCompleted s club = Throw SetPrototypeError) /\
  (Club.pojo_id club <> "__proto__"%string ->
   exists s',
     createClubCompleted s club = Normal s' /\
     (forall c, clubs s' !! c
                = if decide (c = Club.pojo_id club) then Some club
                  else clubs s !! c) /\
     isFetching s' = false /\
     isHydrated s' = isHydrated s /\ clubMembers s' = clubMembers s /\
     clubFeeds s' = clubFeeds s /\ clubInvites s' = clubInvites s /\
     discoveredClubs s' = discoveredClubs s /\
     selectedClubId s' = selectedClubId s).
Proof.
  split; [reflexivity|]. unfold createClubCompleted. split.
  - intros ->. reflexivity.
  - intros Hk. rewrite draft_set_ok by exact Hk. eexists. split; [reflexivity|].
    cbn. repeat split. intros c. case_decide as E.
    + subst c. apply lookup_insert_eq.
    + apply lookup_insert_ne. congruence.
Qed.

Lemma draft_set_each_ok (cs : list Club.POJO) (m : gmap string Club.POJO) :
  Forall (fun c => Club.pojo_id c <> "__proto__"%string) cs ->
  draft_set_each Club.pojo_id m cs
  = Normal (fold_left (fun m club => <[Club.pojo_id club := club]> m) cs m).
Proof.
  intros H. revert m. induction H as [|c cs Hc _ IH]; intros m; [reflexivity|].
  cbn [draft_set_each fold_left]. rewrite draft_set_ok by exact Hc.
  cbn [mbind completion_bind bind]. apply IH.
Qed.

Lemma draft_set_each_proto (cs : list Club.POJO) (m : gmap string Club.POJO) :
  Exists (fun c => Club.pojo_id c = "__proto__"%string) cs ->
  draft_set_each Club.pojo_id m cs = Throw SetPrototypeError.
Proof.
  intros H. revert m. induction H as [c cs Hc|c cs _ IH]; intros m;
    cbn [draft_set_each].
  - rewrite Hc. reflexivity.
  - unfold draft_set. case_decide; [reflexivity|].
    cbn [mbind completion_bind bind]. apply IH.
Qed.

Lemma fold_insert_lookup (cs : list Club.POJO) (m : gmap string Club.POJO) k :
  fold_left (fun m club => <[Club.pojo_id club := club]> m) cs m !! k
  = match last_with_id k cs with
    | Some c => Some c
    | None => m !! k
    end.
Proof.
  unfold last_with_id. revert m.
  induction cs as [|c cs IH]; intros m; [reflexivity|].
  cbn [fold_left]. rewrite IH, filter_cons.
  destruct (decide (Club.pojo_id c = k)) as [E|E].
  - rewrite last_cons.
    destruct (last (filter _ cs)); [reflexivity|].
    subst k. apply lookup_insert_eq.
  - destruct (last (filter _ cs)); [reflexivity|].
    now apply lookup_insert_ne.
Qed.

(** X8: [loadMyClubsCompleted] merges.  When no loaded club has the id
    [__proto__], the state then holds under every id the last loaded club
    with that id, or, when no loaded club has that id, what it held before
    (a club that is no longer loaded stays); the state is marked hydrated,
    and loading the same list again changes nothing.  When a loaded club
    has the id [__proto__], the reducer throws and none of the clubs is
    stored. *)
Theorem loadMyClubsCompleted_merge s (cs : list Club.POJO) :
  (Forall (fun c => Club.pojo_id c <> "__proto__"%string) cs ->
   exists s',
     loadMyClubsCompleted s cs = Normal s' /\
     (forall k, clubs s' !! k
                = match last_with_id k cs with
                  | Some c => Some c
                  | None => clubs s !! k
                  end) /\
     isHydrated s' = true /\ isFetching s' = false /\
     loadMyClubsCompleted s' cs = Normal s') /\
  (Exists (fun c => Club.pojo_id c = "__proto__"%string) cs ->
   loadMyClubsCompleted s cs = Throw SetPrototypeError).
Proof.
  unfold loadMyClubsCompleted. split.
  - intros H. rewrite draft_set_each_ok by exact H.
    eexists. split; [reflexivity|]. split; [|split; [reflexivity|split; [reflexivity|]]].
    + intros k. cbn. apply fold_insert_lookup.
    + cbn [clubs set_isHydrated set_isFetching set_clubs].
      rewrite draft_set_each_ok by exact H. cbn [mbind completion_bind bind].
      f_equal. apply ClubsState_eq; try reflexivity. cbn.
      apply map_eq. intros k. rewrite !fold_insert_lookup.
      now destruct (last_with_id k cs).
  - intros H. now rewrite draft_set_each_proto.
Qed.

Lemma inherited_proto : inherited "__proto__" = true.
Proof. reflexivity. Qed.

Lemma post_normal (t : ClubsState FeedUserPOJO) (clubId : string)
    (i : ClubFeedItem.POJO) :
  inherited clubId = false ->
  postToClubFeedCompleted t clubId i
  = Normal (set_clubFeeds
              (<[clubId := i :: default [] (clubFeeds t !! clubId)]> (clubFeeds t))
              t).
Proof.
  intros Hi.
  assert (Hk : clubId <> "__proto__"%string).
  { intros ->. now rewrite inherited_proto in Hi. }
  unfold postToClubFeedCompleted, draft_get. rewrite Hi.
  destruct (clubFeeds t !! clubId) as [feed|] eqn:E; cbn [mbind completion_bind bind].
  - rewrite E. reflexivity.
  - rewrite draft_set_ok by exact Hk. cbn [mbind completion_bind bind].
    rewrite lookup_insert_eq. cbn [default]. now rewrite insert_insert_eq.
Qed.

(** X9: for a club id that is no property name of [Object.prototype],
    [postToClubFeedCompleted] puts the item at the head of the feed of its
    club, creating the feed when the club has none, and leaves every other
    feed and every other property unchanged; two posts end up newest
    first.  For a club without a feed whose id is such a name
    ([constructor], [toString], [__proto__], ...), it throws. *)
Theorem postToClubFeedCompleted_prepends s (clubId : string)
    (item item2 : ClubFeedItem.POJO) :
  (inherited clubId = false ->
   exists s',
     postToClubFeedCompleted s clubId item = Normal s' /\
     (forall c, clubFeeds s' !! c
                = if decide (c = clubId)
                  then Some (item :: default [] (clubFeeds s !! clubId))
                  else clubFeeds s !! c) /\
     (exists s'',
         postToClubFeedCompleted s' clubId item2 = Normal s'' /\
         clubFeeds s'' !! clubId
         = Some (item2 :: item :: default [] (clubFeeds s !! clubId))) /\
     clubs s' = clubs s /\ clubMembers s' = clubMembers s /\
     clubInvites s' = clubInvites s /\ discoveredClubs s' = discoveredClubs s /\
     selectedClubId s' = selectedClubId s /\ isFetching s' = isFetching s /\
     isHydrated s' = isHydrated s) /\
  (inherited clubId = true -> clubFeeds s !! clubId = None ->
   postToClubFeedCompleted s clubId item = Throw TypeError).
Proof.
  split.
  - intros Hi. rewrite post_normal by exact Hi. eexists. split; [reflexivity|].
    split; [|split].
    + intros c. cbn. case_decide as D.
      * subst c. apply lookup_insert_eq.
      * apply lookup_insert_ne. congruence.
    + rewrite post_normal by exact Hi. eexists. split; [reflexivity|].
      cbn. now rewrite !lookup_insert_eq.
    + repeat split.
  - intros Hi Hnone. unfold postToClubFeedCompleted, draft_get.
    rewrite Hnone, Hi. cbn [mbind completion_bind bind]. now rewrite Hnone.
Qed.

(** X10: [declineClubInviteCompleted] removes every invite of the club and
    keeps the other invites in their order; declining twice is declining
    once; and [acceptClubInviteCompleted], for a club whose id can be
    assigned, is that decline followed by storing the club. *)
Theorem declineClubInviteCompleted_removes s (clubId : string) (p : AcceptPayload) :
  let s' := declineClubInviteCompleted s clubId in
  pending_invites clubId s' = [] /\
  (forall c, c <> clubId -> pending_invites c s' = pending_invites c s) /\
  declineClubInviteCompleted s' clubId = s' /\
  clubs s' = clubs s /\
  (Club.pojo_id (accept_club p) <> "__proto__"%string ->
   acceptClubInviteCompleted s p
   = Normal
       (set_clubs (<[Club.pojo_id (accept_club p) := accept_club p]> (clubs s))
          (declineClubInviteCompleted s (accept_clubId p)))).
Proof.
  cbv zeta. unfold pending_invites, declineClubInviteCompleted. cbn.
  assert (Hidem : forall l : list ClubInvite.POJO,
             filter (fun i => ClubInvite.clubId i <> clubId)
               (filter (fun i => ClubInvite.clubId i <> clubId) l)
             = filter (fun i => ClubInvite.clubId i <> clubId) l).
  { induction l as [|i l IH]; [reflexivity|].
    rewrite filter_cons. case_decide as E; [|exact IH].
    rewrite filter_cons. case_decide; [|contradiction]. now rewrite IH. }
  split; [|split; [|split; [|split; [reflexivity|]]]].
  - induction (clubInvites s) as [|i l IH]; [reflexivity|].
    rewrite filter_cons. case_decide as E; [|exact IH].
    rewrite filter_cons. case_decide; [contradiction|exact IH].
  - intros c Hc. induction (clubInvites s) as [|i l IH]; [reflexivity|].
    rewrite (filter_cons (fun i => ClubInvite.clubId i <> clubId)).
    case_decide as E.
    + rewrite !filter_cons. case_decide; [now rewrite IH|exact IH].
    + rewrite filter_cons. case_decide as E'; [|exact IH].
      exfalso. apply Hc. congruence.
  - now rewrite Hidem.
  - intros Hk. now apply accept_normal.
Qed.

(** X11: [clubInviteReceived] appends without looking for duplicates: the
    invite is pending once more than before, also when it was already
    pending; one decline for its club removes all of them. *)
Theorem clubInviteReceived_appends s (invite : ClubInvite.POJO) :
  let s' := clubInviteReceived s invite in
  pending_invites (ClubInvite.clubId invite) s'
    = pending_invites (ClubInvite.clubId invite) s ++ [invite] /\
  pending_invites (ClubInvite.clubId invite) (clubInviteReceived s' invite)
    = pending_invites (ClubInvite.clubId invite) s ++ [invite; invite] /\
  declineClubInviteCompleted (clubInviteReceived s' invite) (ClubInvite.clubId invite)
    = declineClubInviteCompleted s (ClubInvite.clubId invite).
Proof.
  cbv zeta. unfold pending_invites, clubInviteReceived, declineClubInviteCompleted.
  cbn. rewrite !filter_app, !filter_cons, !filter_nil.
  rewrite !decide_True by reflexivity.
  split; [reflexivity|]. split; [now rewrite <- app_assoc|].
  rewrite !decide_False by (intros H; now apply H).
  now rewrite !app_nil_r.
Qed.

(** X12: leaving a club twice is leaving it once, leaving two clubs gives
    the same state in either order, and leaving a club right after it was
    created or joined leaves the clubs that were there without it. *)
Theorem leaveClubCompleted_composes s (c d : string) (club : Club.POJO) :
  leaveClubCompleted (leaveClubCompleted s c) c = leaveClubCompleted s c /\
  leaveClubCompleted (leaveClubCompleted s c) d
  = leaveClubCompleted (leaveClubCompleted s d) c /\
  (forall s', createClubCompleted s club = Normal s' ->
              clubs (leaveClubCompleted s' (Club.pojo_id club))
              = delete (Club.pojo_id club) (clubs s)).
Proof.
  split; [|split].
  - apply ClubsState_eq; cbn; try reflexivity; apply delete_delete_eq.
  - apply ClubsState_eq; cbn; try reflexivity; apply delete_delete.
  - intros s'. unfold createClubCompleted, draft_set.
    case_decide; [discriminate|]. intros [= <-]. cbn. apply delete_insert_eq.
Qed.

End Facts.

End ClubsStoreMoreFacts.

(** *** More facts about the base64 helpers *)

Module Base64MoreFacts.

Import Bytes Js Base64 WireFormat.

Lemma length_sextets_padding (bs : list Z) :
  (length (sextets bs) + padding bs = 4 * ((length bs + 2) / 3))%nat.
Proof.
  induction bs as [|a|a b|a b c l IH] using list_ind3; try reflexivity.
  rewrite padding_cons3. cbn [sextets length].
  replace (S (S (S (length l))) + 2)%nat with ((length l + 2) + 1 * 3)%nat by lia.
  rewrite Nat.div_add by discriminate. lia.
Qed.

Lemma uint8ArrayToBase64_text (max_arguments : Z) (b : list byte) :
  Z.of_nat (length b) <= max_arguments ->
  uint8ArrayToBase64 max_arguments b = Normal (base64_text b).
Proof. apply uint8ArrayToBase64_within. Qed.

Lemma base64ToUint8Array_text (b : list byte) :
  base64ToUint8Array (base64_text b) = Normal b.
Proof. apply base64ToUint8Array_encode. Qed.

(** X13: [uint8ArrayToBase64] throws exactly on an array that is longer
    than the engine lets an argument list be.  On every other array of
    [n] bytes it returns a text of 4 * ceil(n / 3) characters, all of them
    base64 digits or [=]; and two such arrays with the same text are
    equal. *)
Theorem uint8ArrayToBase64_shape (max_arguments : Z) (a b : list byte) :
  (max_arguments < Z.of_nat (length a) ->
   uint8ArrayToBase64 max_arguments a = Throw "RangeError"%string) /\
  (Z.of_nat (length a) <= max_arguments ->
   exists t,
     uint8ArrayToBase64 max_arguments a = Normal t /\
     length t = (4 * ((length a + 2) / 3))%nat /\
     Forall (fun c => is_Some (b64_index c) \/ c = pad_char) t /\
     (Z.of_nat (length b) <= max_arguments ->
      uint8ArrayToBase64 max_arguments a = uint8ArrayToBase64 max_arguments b
      <-> a = b)).
Proof.
  split; [apply uint8ArrayToBase64_above|]. intros Ha.
  exists (base64_text a). split; [now apply uint8ArrayToBase64_text|].
  split; [|split].
  - unfold base64_text, encode, char_codes.
    rewrite length_app, repeat_length, !List.length_map.
    rewrite <- (List.length_map byte_val a). apply length_sextets_padding.
  - unfold base64_text, encode. apply Forall_app. split.
    + apply Forall_forall. intros c Hc.
      apply list_elem_of_In, in_map_iff in Hc as (s & <- & Hs). left.
      pose proof (sextets_range (char_codes a)) as Hr.
      rewrite Forall_forall in Hr.
      rewrite b64_index_char by (apply Hr, list_elem_of_In, Hs). eauto.
    + apply Forall_forall. intros c Hc.
      apply list_elem_of_In, repeat_spec in Hc. now right.
  - intros Hb. split; [|now intros ->].
    rewrite !uint8ArrayToBase64_text by assumption. intros [= E].
    pose proof (base64ToUint8Array_text a) as Hx.
    rewrite E, base64ToUint8Array_text in Hx. now injection Hx.
Qed.

Lemma filter_whitespace_idemp (data : list Z) :
  List.filter (fun c => negb (is_ascii_whitespace c))
    (List.filter (fun c => negb (is_ascii_whitespace c)) data)
  = List.filter (fun c => negb (is_ascii_whitespace c)) data.
Proof.
  apply forallb_filter_id, forallb_forall. intros c Hc.
  now apply filter_In in Hc.
Qed.

Lemma digits_not_pad (bs : list Z) :
  Forall (fun c => c <> pad_char) (List.map b64_char (sextets bs)).
Proof.
  apply Forall_forall. intros c Hc.
  apply list_elem_of_In, in_map_iff in Hc as (s & <- & Hs).
  pose proof (sextets_range bs) as Hr. rewrite Forall_forall in Hr.
  apply b64_char_digit, Hr, list_elem_of_In, Hs.
Qed.

Lemma digits_not_whitespace (bs : list Z) :
  List.filter (fun c => negb (is_ascii_whitespace c)) (List.map b64_char (sextets bs))
  = List.map b64_char (sextets bs).
Proof.
  apply forallb_filter_id, forallb_forall. intros c Hc.
  apply in_map_iff in Hc as (s & <- & Hs).
  pose proof (sextets_range bs) as Hr. rewrite Forall_forall in Hr.
  destruct (b64_char_digit s) as [_ ->]; [|reflexivity].
  apply Hr, list_elem_of_In, Hs.
Qed.

(** X14: [base64ToUint8Array] is forgiving: ASCII whitespace anywhere in
    the text is skipped (spaces, tabs, line breaks, form feeds), and the
    text of a byte array is read back also when its padding is left off. *)
Theorem base64ToUint8Array_forgiving (data : list Z) (b : list byte) :
  base64ToUint8Array data
  = base64ToUint8Array
      (List.filter (fun c => negb (is_ascii_whitespace c)) data) /\
  base64ToUint8Array (List.map b64_char (sextets (char_codes b))) = Normal b.
Proof.
  split.
  - unfold base64ToUint8Array, atob. now rewrite filter_whitespace_idemp.
  - unfold base64ToUint8Array, atob. rewrite digits_not_whitespace.
    set (X := List.map b64_char (sextets (char_codes b))).
    assert (HX : strip_padding X = X).
    { unfold strip_padding. destruct (length X mod 4 =? 0)%nat; [|reflexivity].
      now rewrite !(drop_last_pad_digits X) by apply digits_not_pad. }
    rewrite HX.
    destruct (Nat.eqb_spec (length X mod 4) 1) as [E|_].
    + unfold X in E. rewrite List.length_map in E.
      now apply sextets_length_mod4 in E.
    + unfold X. rewrite indices_map_char by apply sextets_range.
      rewrite decode_sextets_sextets by apply char_codes_octets.
      change (Normal (Uint8Array_from (char_codes b)) = Normal b
              :> completion string _).
      now rewrite Uint8Array_from_char_codes.
Qed.

Lemma drop_last_pad_keeps (l : list Z) (c : Z) :
  c ∈ l -> c <> pad_char -> c ∈ drop_last_pad l.
Proof.
  intros Hc Hne. unfold drop_last_pad.
  destruct (rev l) as [|x r] eqn:E; [exact Hc|].
  destruct (Z.eqb_spec x pad_char) as [->|_]; [|exact Hc].
  apply list_elem_of_In, in_rev in Hc. rewrite E in Hc.
  destruct Hc as [Hc|Hc]; [congruence|].
  apply list_elem_of_In. rewrite <- in_rev. exact Hc.
Qed.

Lemma indices_foreign (l : list Z) (c : Z) :
  c ∈ l -> b64_index c = None -> indices l = None.
Proof.
  induction l as [|x l IH]; intros Hc Hi; [now apply elem_of_nil in Hc|].
  apply elem_of_cons in Hc as [<-|Hc]; cbn [indices].
  - now rewrite Hi.
  - rewrite (IH Hc Hi). now destruct (b64_index x).
Qed.

(** X15: a text with a character that is neither a base64 digit, nor [=],
    nor ASCII whitespace is refused as a whole: [base64ToUint8Array]
    throws and returns no bytes. *)
Theorem base64ToUint8Array_refuses (data : list Z) (c : Z) :
  c ∈ data -> foreign_char c ->
  base64ToUint8Array data = Throw "InvalidCharacterError"%string.
Proof.
  intros Hc (Hws & Hpad & Hidx). unfold base64ToUint8Array, atob.
  set (d := List.filter _ data).
  assert (Hd : c ∈ strip_padding d).
  { assert (c ∈ d).
    { apply list_elem_of_In, filter_In. split; [now apply list_elem_of_In|].
      now rewrite Hws. }
    unfold strip_padding. destruct (length d mod 4 =? 0)%nat; [|assumption].
    now apply drop_last_pad_keeps; [apply drop_last_pad_keeps|]. }
  destruct (length (strip_padding d) mod 4 =? 1)%nat; [reflexivity|].
  now rewrite (indices_foreign _ _ Hd Hidx).
Qed.

(** X15 on the text "dGV*dA==". *)
Lemma base64ToUint8Array_refuses_witness :
  base64ToUint8Array (code_units "dGV*dA==") = Throw "InvalidCharacterError"%string.
Proof.
  apply (base64ToUint8Array_refuses _ 42).
  - vm_compute. apply list_elem_of_In. cbn. tauto.
  - repeat split. discriminate.
Defined.

End Base64MoreFacts.

(** *** More facts about the service *)

Module ClubApiMoreFacts.

Import Js ApiModels ClubApiService WireFormat Outcomes.

Lemma base64_text_nonempty (b : list byte) : b <> [] -> base64_text b <> [].
Proof.
  destruct b as [|x [|y [|z b]]]; [congruence|discriminate..].
Qed.

Lemma decode_text (b : list byte) :
  ClubApiService.base64ToUint8Array (base64_text b) = Normal b.
Proof.
  unfold ClubApiService.base64ToUint8Array.
  now rewrite Base64MoreFacts.base64ToUint8Array_text.
Qed.

Lemma decode_optional_text (o : option (list byte)) :
  base64ToUint8Array_optional (base64_text <$> o) = Normal (without_empty o).
Proof.
  destruct o as [b|]; [|reflexivity]. cbn [fmap option_fmap option_map].
  destruct b as [|x b]; [reflexivity|].
  unfold base64ToUint8Array_optional.
  destruct (base64_text (x :: b)) as [|c t] eqn:E.
  - now apply base64_text_nonempty in E.
  - rewrite <- E, decode_text. reflexivity.
Qed.

(** X16: a club response whose byte arrays are written as the texts of
    [uint8ArrayToBase64] is converted back to the same response, except
    that an optional byte array that is empty comes back as [undefined]
    (its text is the empty string, which is falsy). *)
Theorem convert_club_on_wire (r : GetClubResponse.t (list byte)) :
  convert_club (club_on_wire r) = Normal (club_without_empty r) /\
  (GetClubResponse.encryptedDescription r <> Some [] ->
   GetClubResponse.encryptedProfilePicture r <> Some [] ->
   convert_club (club_on_wire r) = Normal r).
Proof.
  assert (H : convert_club (club_on_wire r) = Normal (club_without_empty r)).
  { unfold convert_club, club_on_wire. cbn [GetClubResponse.encryptedName
      GetClubResponse.encryptedDescription GetClubResponse.encryptedProfilePicture
      GetClubResponse.encryptionIv GetClubResponse.id GetClubResponse.ownerUserId
      GetClubResponse.created GetClubResponse.isPublic
      GetClubResponse.membersCanPost GetClubResponse.membersCanInvite
      GetClubResponse.maxMembers GetClubResponse.memberCount].
    rewrite !decode_text, !decode_optional_text. reflexivity. }
  split; [exact H|]. intros Hd Hp. rewrite H. f_equal.
  destruct r as [? ? ? ? d p ? ? ? ? ? ?]. unfold club_without_empty. cbn in *.
  destruct d as [[|]|], p as [[|]|]; cbn; congruence.
Qed.

Lemma mapM_convert {A B} (f : A -> completion Thrown B) (g : B -> A) (l : list B) :
  (forall x, f (g x) = Normal x) -> mapM f (List.map g l) = Normal l.
Proof.
  intros H. induction l as [|x l IH]; [reflexivity|].
  cbn [List.map mapM]. rewrite H. cbn [mbind completion_bind bind].
  rewrite IH. reflexivity.
Qed.

(** X17: member rows and events whose byte arrays are written as the
    texts of [uint8ArrayToBase64] are converted back unchanged, one by
    one and as the lists of a members or an events answer, in their
    order. *)
Theorem convert_members_and_events_on_wire
    (ms : list (ClubMemberResponse.t (list byte)))
    (es : list (ClubEventResponse.t (list byte))) :
  convert getClubMembers (GetClubMembersResponse.mk (List.map member_on_wire ms))
  = Normal (GetClubMembersResponse.mk ms) /\
  convert getClubEvents (GetClubEventsResponse.mk (List.map event_on_wire es))
  = Normal (GetClubEventsResponse.mk es).
Proof.
  cbn [convert GetClubMembersResponse.members GetClubEventsResponse.events].
  split.
  - rewrite mapM_convert; [reflexivity|].
    intros [? ? ? ? ? ?]. unfold convert_member, member_on_wire.
    cbn [ClubMemberResponse.encryptedAesKey ClubMemberResponse.id
         ClubMemberResponse.clubId ClubMemberResponse.userId
         ClubMemberResponse.joined ClubMemberResponse.role].
    now rewrite decode_text.
  - rewrite mapM_convert; [reflexivity|].
    intros [? ? ? ? ? ? ?]. unfold convert_event, event_on_wire.
    cbn [ClubEventResponse.encryptedEvent ClubEventResponse.encryptionIv
         ClubEventResponse.id ClubEventResponse.clubId ClubEventResponse.userId
         ClubEventResponse.timestamp ClubEventResponse.expiry].
    now rewrite !decode_text.
Qed.

Section Facts.

Variable baseUrl : string.
Variable ResponseError_message : ResponseInfo -> string.
Variable fetch : forall op : Operation, HttpRequest -> FetchOutcome (Wire op).
Variable max_arguments : Z.

Local Abbreviation run := (run baseUrl ResponseError_message fetch max_arguments).
Local Abbreviation action :=
  (action baseUrl ResponseError_message fetch max_arguments).
Local Abbreviation http_request := (http_request baseUrl).
Local Abbreviation serialisable := (serialisable max_arguments).

Lemma action_resolved op request h resp :
  http_request op request = Some h ->
  serialisable op request ->
  fetch op h = FetchResolved resp -> ok (info resp) = true ->
  action op request = on_success op resp.
Proof.
  intros Hh Hs Hf Hok. unfold ClubApiService.action. rewrite Hh.
  rewrite (ClubApiFacts.build_body_serialisable _ _ _ _ _ Hh Hs).
  cbn [mbind completion_bind bind].
  unfold await_fetch. rewrite Hf. cbn [mbind completion_bind bind].
  unfold ensureSuccessStatusCode. rewrite Hok. cbn [negb mbind completion_bind bind].
  destruct op; reflexivity.
Qed.

Lemma run_succeeds (op : Operation) (request : Request op) (d : Result op) :
  run op request = Normal (ApiResult_new d)
  <-> exists h resp,
        http_request op request = Some h /\
        serialisable op request /\
        fetch op h = FetchResolved resp /\
        ok (info resp) = true /\
        if reads_json op
        then exists j, json resp = Normal j /\ convert op j = Normal d
        else True.
Proof.
  unfold ClubApiService.run. split.
  - intros H.
    destruct (action op request) as [d'|e] eqn:Ha.
    2:{ destruct e as [re|m]; [|discriminate].
        unfold getApiResultAsync, await_text in H.
        destruct (text (response re)); cbn [mbind completion_bind bind] in H;
          repeat case_match; discriminate. }
    cbn in H. injection H as ->.
    destruct (ClubApiFacts.action_normal_ok _ _ _ _ _ _ _ Ha)
      as (h & resp & Hh & Hs & Hf & Hok).
    exists h, resp. repeat split; try assumption.
    rewrite (action_resolved _ _ _ _ Hh Hs Hf Hok) in Ha.
    destruct op; cbn [reads_json]; try exact I;
      cbn [on_success] in Ha; unfold await_json in Ha;
      (destruct (json resp) as [j|]; [|discriminate]); now exists j.
  - intros (h & resp & Hh & Hs & Hf & Hok & Hj).
    rewrite (action_resolved _ _ _ _ Hh Hs Hf Hok).
    destruct op; cbn [reads_json] in Hj; cbn [on_success];
      try (destruct d; reflexivity);
      destruct Hj as (j & Hj & Hc); unfold await_json; rewrite Hj;
      cbn [mbind completion_bind bind]; now rewrite Hc.
Qed.

(** X18: an operation returns a successful result with data [d] exactly
    when its request could be written (no byte array of it is longer than
    an argument list may be), the request was answered with a 2xx status
    and, for the six operations that return data, the body parsed and
    every base64 field of it decoded, [d] being the converted body; the
    other operations ignore the body of a 2xx response. *)
Theorem operation_succeeds_iff (op : Operation) (request : Request op)
    (d : Result op) :
  run op request = Normal (ApiResult_new d)
  <-> exists h resp,
        http_request op request = Some h /\
        serialisable op request /\
        fetch op h = FetchResolved resp /\
        ok (info resp) = true /\
        if reads_json op
        then exists j, json resp = Normal j /\ convert op j = Normal d
        else True.
Proof. apply run_succeeds. Qed.

Lemma message_or_default_nonempty (error : Thrown) :
  message_or_default error <> ""%string.
Proof.
  unfold message_or_default.
  destruct error as [e|[m|]]; try discriminate.
  - destruct (String.eqb_spec (error_message e) ""); [discriminate|assumption].
  - destruct (String.eqb_spec m ""); [discriminate|assumption].
Qed.

(** X19: when the request could be written and [fetch] itself rejects (no
    response at all), the operation returns an Unknown error that carries
    the thrown value; the message is the one of the thrown value, or 'An
    unknown error occurred' when that is missing or empty, so it is never
    empty.  When the request cannot be written, because a byte array of it
    is longer than an argument list may be, the operation returns an
    Unknown error that carries a thrown value other than a
    [ResponseError], whatever [fetch] would answer. *)
Theorem fetch_rejected_is_unknown (op : Operation) (request : Request op)
    (h : HttpRequest) (m : option string) :
  http_request op request = Some h ->
  (serialisable op request -> fetch op h = FetchRejected m ->
   run op request
   = Normal (fromError
               {| type := Unknown;
                  message := message_or_default (ThrownOther m);
                  exception := ThrownOther m |}) /\
   message_or_default (ThrownOther m) <> ""%string /\
   (m = None \/ m = Some ""%string ->
    message_or_default (ThrownOther m) = "An unknown error occurred"%string)) /\
  (~ serialisable op request ->
   exists e m, run op request = Normal (fromError e) /\ type e = Unknown /\
               exception e = ThrownOther m).
Proof.
  intros Hh. split.
  - intros Hs Hf. split; [|split].
    + unfold ClubApiService.run, ClubApiService.action. rewrite Hh.
      rewrite (ClubApiFacts.build_body_serialisable _ _ _ _ _ Hh Hs).
      cbn [mbind completion_bind bind]. unfold await_fetch. now rewrite Hf.
    + apply message_or_default_nonempty.
    + now intros [->| ->].
  - intros Hs. unfold ClubApiService.run.
    rewrite (ClubApiFacts.action_too_long _ _ _ _ _ _ _ Hh Hs).
    eexists _, _. split; [reflexivity|]. split; reflexivity.
Qed.

(** X20: the message of the error for a non-success status whose body
    can be read: the fixed text 'Forbidden: Insufficient permissions'
    for 403, whatever the status text; the status text of the response
    for 404, 401 and 429, which may be empty; and for any other status the
    message of the [ResponseError], or 'An unknown error occurred' when
    that is empty. *)
Theorem error_message_of_status (op : Operation) (request : Request op)
    (h : HttpRequest) (resp : FetchResponse (Wire op)) (t : string) :
  http_request op request = Some h ->
  serialisable op request ->
  fetch op h = FetchResolved resp ->
  ok (info resp) = false ->
  text (info resp) = Normal t ->
  exists e,
    run op request = Normal (fromError e) /\
    message e
    = let st := status (info resp) in
      if st =? 403 then "Forbidden: Insufficient permissions"%string
      else if (st =? 404) || (st =? 401) || (st =? 429)
           then statusText (info resp)
           else if String.eqb (ResponseError_message (info resp)) ""
                then "An unknown error occurred"%string
                else ResponseError_message (info resp).
Proof.
  intros Hh Hs Hf Hok Ht. unfold ClubApiService.run.
  rewrite (ClubApiFacts.action_not_ok _ _ _ _ _ _ _ _ Hh Hs Hf Hok).
  unfold getApiResultAsync, await_text. cbv zeta. cbn [response status].
  rewrite Ht. cbn [mbind completion_bind bind].
  destruct (Z.eqb_spec (status (info resp)) 404) as [E|N1].
  { rewrite E. eexists. split; reflexivity. }
  destruct (Z.eqb_spec (status (info resp)) 401) as [E|N2].
  { rewrite E. eexists. split; reflexivity. }
  destruct (Z.eqb_spec (status (info resp)) 403) as [E|N3].
  { eexists. split; reflexivity. }
  destruct (Z.eqb_spec (status (info resp)) 429) as [E|N4].
  { eexists. split; reflexivity. }
  eexists. split; reflexivity.
Qed.

Lemma mapM_throws {A B} (f : A -> completion Thrown B) (l : list A) (x : A) e :
  x ∈ l -> f x = Throw e -> exists e', mapM f l = Throw e'.
Proof.
  induction l as [|y l IH]; intros Hx Hf; [now apply elem_of_nil in Hx|].
  apply elem_of_cons in Hx as [<-|Hx]; cbn [mapM].
  - rewrite Hf. now eexists.
  - destruct (f y) as [b|e0]; [|now eexists].
    destruct (IH Hx Hf) as [e' ->]. now eexists.
Qed.

Lemma run_throws_other op request h resp j m :
  http_request op request = Some h ->
  serialisable op request ->
  fetch op h = FetchResolved resp -> ok (info resp) = true ->
  reads_json op = true -> json resp = Normal j ->
  convert op j = Throw (ThrownOther m) ->
  run op request
  = Normal (fromError {| type := Unknown;
                         message := message_or_default (ThrownOther m);
                         exception := ThrownOther m |}).
Proof.
  intros Hh Hs Hf Hok Hr Hj Hc. unfold ClubApiService.run.
  rewrite (action_resolved _ _ _ _ Hh Hs Hf Hok).
  destruct op; try discriminate; cbn [on_success]; unfold await_json;
    rewrite Hj; cbn [mbind completion_bind bind]; now rewrite Hc.
Qed.

(** X21: a response with one undecodable base64 field is refused as a
    whole.  If the list of a 2xx [my-clubs] response holds a club whose
    [encryptionIv] or [encryptedName] [atob] refuses, [getMyClubsAsync]
    returns an Unknown error and none of the clubs. *)
Theorem getMyClubsAsync_refuses_bad_base64 (request : GetMyClubsRequest.t)
    (h : HttpRequest) (resp : FetchResponse (Wire getMyClubs))
    (j : GetMyClubsResponse.t jsstring) (club : GetClubResponse.t jsstring) name :
  http_request getMyClubs request = Some h ->
  fetch getMyClubs h = FetchResolved resp -> ok (info resp) = true ->
  json resp = Normal j ->
  club ∈ GetMyClubsResponse.clubs j ->
  (Base64.atob (GetClubResponse.encryptedName club) = Throw name \/
   Base64.atob (GetClubResponse.encryptionIv club) = Throw name) ->
  exists e,
    getMyClubsAsync baseUrl ResponseError_message fetch max_arguments request
    = Normal (fromError e) /\ type e = Unknown.
Proof.
  intros Hh Hf Hok Hj Hin Hbad.
  assert (Hc : exists e, convert_club club = Throw e).
  { unfold convert_club, ClubApiService.base64ToUint8Array,
      Base64.base64ToUint8Array.
    destruct Hbad as [Hb|Hb].
    - rewrite Hb. cbn [mbind completion_bind bind]. eexists; reflexivity.
    - destruct (Base64.atob (GetClubResponse.encryptedName club));
        cbn [mbind completion_bind bind]; [|eexists; reflexivity].
      destruct (base64ToUint8Array_optional
                  (GetClubResponse.encryptedDescription club));
        cbn [mbind completion_bind bind]; [|eexists; reflexivity].
      destruct (base64ToUint8Array_optional
                  (GetClubResponse.encryptedProfilePicture club));
        cbn [mbind completion_bind bind]; [|eexists; reflexivity].
      rewrite Hb. cbn [mbind completion_bind bind]. eexists; reflexivity. }
  destruct Hc as [e Hc].
  destruct (mapM_throws convert_club _ _ _ Hin Hc) as [e' He'].
  destruct (ClubApiFacts.mapM_throws_other convert_club _ e'
              ClubApiFacts.convert_club_throws_other He') as [m ->].
  exists {| type := Unknown; message := message_or_default (ThrownOther m);
            exception := ThrownOther m |}.
  split; [|reflexivity]. unfold getMyClubsAsync.
  apply (run_throws_other getMyClubs request h resp j m Hh
           ltac:(constructor) Hf Hok eq_refl Hj).
  cbn [convert]. now rewrite He'.
Qed.

(** X22: ids are put into the URL as they are.  Deleting the club whose id
    is [c/member/m] is sent with the same method to the same URL as
    removing the member [m] from the club [c]. *)
Theorem deleteClub_url_collides (c m u p a q : string) :
  let hd := http_request deleteClub
              (DeleteClubRequest.mk (c +:+ "/member/" +:+ m) u p) in
  let hr := http_request removeClubMember (RemoveClubMemberRequest.mk c a q m) in
  url <$> hd = url <$> hr /\ method <$> hd = method <$> hr /\ is_Some hd.
Proof. cbv zeta. cbn. repeat split. eauto. Qed.

End Facts.

(** X19 on a connection that cannot be opened. *)
Lemma fetch_rejected_witness :
  leaveClubAsync "https://api.liftlog.online/v2/" (fun _ => "HTTP error"%string)
    (fun op _ => FetchRejected (Some "Network request failed"%string))
    engine_limit leave_request0
  = Normal (fromError {| type := Unknown; message := "Network request failed";
                         exception := ThrownOther (Some "Network request failed"%string) |}).
Proof.
  exact (proj1 (proj1 (fetch_rejected_is_unknown
                  "https://api.liftlog.online/v2/" (fun _ => "HTTP error"%string)
                  (fun op _ => FetchRejected (Some "Network request failed"%string))
                  engine_limit leaveClub leave_request0 _ _ eq_refl)
                  ltac:(constructor) eq_refl)).
Defined.

(** X20 on a 403 answer whose status text is "Forbidden". *)
Lemma error_message_of_status_witness :
  exists e,
    leaveClubAsync "https://api.liftlog.online/v2/" (fun _ => "HTTP error"%string)
      forbidden_fetch engine_limit leave_request0 = Normal (fromError e) /\
    message e = "Forbidden: Insufficient permissions"%string.
Proof.
  exact (error_message_of_status
           "https://api.liftlog.online/v2/" (fun _ => "HTTP error"%string)
           forbidden_fetch engine_limit leaveClub leave_request0 _
           (forbidden_response leaveClub) ""
           eq_refl ltac:(constructor) eq_refl eq_refl eq_refl).
Defined.

(** X21 on a [my-clubs] answer with one club whose name holds a [*]. *)
Lemma getMyClubsAsync_refuses_witness :
  exists e,
    getMyClubsAsync "https://api.liftlog.online/v2/" (fun _ => "HTTP error"%string)
      bad_name_fetch engine_limit (GetMyClubsRequest.mk "user-1" "secret")
    = Normal (fromError e) /\ type e = Unknown.
Proof.
  eapply (getMyClubsAsync_refuses_bad_base64
            "https://api.liftlog.online/v2/" (fun _ => "HTTP error"%string)
            bad_name_fetch engine_limit (GetMyClubsRequest.mk "user-1" "secret")
            _ _ _ club_with_bad_name "InvalidCharacterError");
    [reflexivity|reflexivity|reflexivity|reflexivity| |left; reflexivity].
  cbn. apply list_elem_of_In. now left.
Defined.

End ClubApiMoreFacts.

(** *** More facts about the effects *)

Module ClubEffectsMoreFacts.

Import Bytes Js ApiModels ClubApiService EncryptionService EncryptionFacts ClubEffects.
Import Outcomes ClubApiMoreFacts.

(** *** Text that survives [TextEncoder] and [TextDecoder] *)

Definition is_ascii (l : list byte) : Prop := Forall (fun b => byte_val b <= 127) l.

Lemma utf8_encode_ascii (l : list byte) : is_ascii l -> utf8_encode l = l.
Proof.
  induction 1 as [|b rest Hb _ IH]; [reflexivity|].
  cbn [utf8_encode]. rewrite IH.
  destruct (Z.eqb_spec (byte_val b) 237) as [E|_]; [lia|].
  now destruct rest as [|b1 [|b2 rest']].
Qed.

Lemma utf8_decode_ascii (l : list byte) :
  is_ascii l -> utf8_decode [] 0 128 191 l = l.
Proof.
  induction 1 as [|b rest Hb _ IH]; [reflexivity|].
  cbn [utf8_decode]. unfold classify.
  destruct (Z.leb_spec (byte_val b) 127) as [_|]; [|lia]. now rewrite IH.
Qed.

Lemma strip_bom_ascii (l : list byte) : is_ascii l -> strip_bom l = l.
Proof.
  intros H. destruct l as [|b1 [|b2 [|b3 rest]]]; try reflexivity.
  apply Forall_cons_1 in H as [H1 _]. cbn [strip_bom].
  destruct (Z.eqb_spec (byte_val b1) 239) as [E|_]; [lia|reflexivity].
Qed.

(** ASCII text is read back as it was written. *)
Lemma ascii_text_survives (s : string) :
  is_ascii (list_byte_of_string s) ->
  TextDecoder_decode (TextEncoder_encode s) = s.
Proof.
  intros H. unfold TextDecoder_decode, TextEncoder_encode.
  rewrite utf8_encode_ascii, strip_bom_ascii, utf8_decode_ascii by assumption.
  apply string_of_list_byte_of_string.
Qed.

(** Text that starts with a byte order mark is not: the mark is dropped. *)
Example bom_is_dropped :
  TextDecoder_decode (TextEncoder_encode (String "239" (String "187" (String "191" "Club"))))
  = "Club"%string.
Proof. reflexivity. Qed.

Section Facts.

Variable aes_encrypt_block : AesKey -> list byte -> list byte.
Variable aes_decrypt_block : AesKey -> list byte -> list byte.
Variable encryptRsaOaepSha256 : AesKey -> list byte -> Entropy -> list byte * Entropy.
Variable decryptRsaOaepSha256 : list byte -> list byte -> completion Thrown AesKey.
Variable Instant_parse : string -> completion Thrown Instant.
Variable baseUrl : string.
Variable ResponseError_message : ResponseInfo -> string.
Variable fetch : forall op : Operation, HttpRequest -> FetchOutcome (Wire op).
Variable max_arguments : Z.

Local Abbreviation prepare := (prepare_createClub aes_encrypt_block encryptRsaOaepSha256).
Local Abbreviation create_effect :=
  (createClubStarted_effect aes_encrypt_block encryptRsaOaepSha256 Instant_parse
     baseUrl ResponseError_message fetch max_arguments).
Local Abbreviation load_one :=
  (load_club aes_decrypt_block decryptRsaOaepSha256 Instant_parse
     baseUrl ResponseError_message fetch max_arguments).
Local Abbreviation load_effect :=
  (loadMyClubsStarted_effect aes_decrypt_block decryptRsaOaepSha256 Instant_parse
     baseUrl ResponseError_message fetch max_arguments).
Local Abbreviation run := (run baseUrl ResponseError_message fetch max_arguments).


(** X24: an empty description is falsy: it is not encrypted and not sent,
    and the request and the use of randomness are those of a club created
    without description. *)
Theorem empty_description_is_not_sent (n : string) (pub cp ci : bool) (mm : Z)
    (st : ClubSettings.t) (identity : Identity) (g : Entropy) :
  prepare {| name := n; description := Some ""%string; isPublic := pub;
             membersCanPost := cp; membersCanInvite := ci; maxMembers := mm;
             settings := st |} identity g
  = prepare {| name := n; description := None; isPublic := pub;
               membersCanPost := cp; membersCanInvite := ci; maxMembers := mm;
               settings := st |} identity g /\
  CreateClubRequest.encryptedDescription
    (request (prepare {| name := n; description := Some ""%string; isPublic := pub;
                         membersCanPost := cp; membersCanInvite := ci;
                         maxMembers := mm; settings := st |} identity g).1)
  = None.
Proof.
  split; [reflexivity|].
  unfold prepare_createClub, generateAesKey, encryptAesCbc. cbn.
  now destruct (encryptRsaOaepSha256 _ _ _).
Qed.

Lemma mapM_all_None {A B} (f : A -> completion Thrown (option B)) (l : list A) :
  (forall x, x ∈ l -> f x = Normal None) ->
  mapM f l = Normal (List.map (fun _ => None) l).
Proof.
  induction l as [|y l IH]; intros H; [reflexivity|].
  cbn [mapM List.map]. rewrite (H y) by now left.
  cbn [mbind completion_bind bind]. rewrite IH by (intros; apply H; now right).
  reflexivity.
Qed.

Lemma omap_all_None {A B} (l : list A) :
  omap (fun c : option B => c) (List.map (fun _ => None) l) = [].
Proof. induction l; [reflexivity|exact IHl]. Qed.

(** X25: the load effect treats its clubs unequally.  When loading one of
    the clubs of the answer throws (its key or its name cannot be
    decrypted, its creation time cannot be parsed), the whole load fails
    and no club is dispatched; when every club is merely skipped (its
    member list could not be fetched or has no row for the user), the
    load completes with no clubs. *)
Theorem loadMyClubsStarted_effect_all_or_nothing (identity : Identity)
    (data : GetMyClubsResponse.t (list byte)) :
  getMyClubsAsync baseUrl ResponseError_message fetch max_arguments
    (GetMyClubsRequest.mk (id identity) (password identity))
  = Normal (ApiResult_new data) ->
  ((exists club e, club ∈ GetMyClubsResponse.clubs data /\
                   load_one identity club = Throw e) ->
   load_effect (Some identity) = loadMyClubsFailed) /\
  ((forall club, club ∈ GetMyClubsResponse.clubs data ->
                 load_one identity club = Normal None) ->
   load_effect (Some identity) = loadMyClubsCompleted []).
Proof.
  intros Hr. unfold loadMyClubsStarted_effect. rewrite Hr.
  cbn [mbind completion_bind bind]. split.
  - intros (club & e & Hin & He).
    destruct (mapM_throws _ _ _ _ Hin He) as [e' ->]. reflexivity.
  - intros Hall. rewrite (mapM_all_None _ _ Hall).
    cbn [mbind completion_bind bind]. now rewrite omap_all_None.
Qed.

Hypothesis aes_block_length :
  forall k b, is_block b -> is_block (aes_encrypt_block k b).
Hypothesis aes_block_inverse :
  forall k b, is_block b -> aes_decrypt_block k (aes_encrypt_block k b) = b.

(** X26: a club created without a (non-empty) description is loaded back
    as it was created, when its name is text that [TextDecoder] reads
    back as [TextEncoder] wrote it (any ASCII name is; a name that starts
    with a byte order mark or holds a lone surrogate is not).  If the
    members answer has a row of the user that holds the wrapped key of
    the creation, that key unwraps to the club key and the creation time
    parses, then loading the stored fields of the create request gives a
    club with the name of the payload, no description, the club key and
    the stored flags. *)
Theorem load_club_recovers_name (payload : CreateClubPayload) (identity : Identity)
    (g : Entropy) (cid owner_id created : string) (t : Instant)
    (picture : option (list byte)) (count : Z)
    (members : GetClubMembersResponse.t (list byte))
    (mine : ClubMemberResponse.t (list byte)) :
  let p := (prepare payload identity g).1 in
  let r := request p in
  TextDecoder_decode (TextEncoder_encode (name payload)) = name payload ->
  ClubFeedItem.truthy_string (description payload) = false ->
  getClubMembersAsync baseUrl ResponseError_message fetch max_arguments
    (GetClubMembersRequest.mk cid (id identity) (password identity))
  = Normal (ApiResult_new members) ->
  List.find (fun m => bool_decide (ClubMemberResponse.userId m = id identity))
    (GetClubMembersResponse.members members) = Some mine ->
  decryptRsaOaepSha256 (ClubMemberResponse.encryptedAesKey mine) (privateKey identity)
  = Normal (clubAesKey p) ->
  Instant_parse created = Normal t ->
  load_one identity
    (GetClubResponse.mk cid owner_id created
       (CreateClubRequest.encryptedName r)
       (CreateClubRequest.encryptedDescription r) picture
       (CreateClubRequest.encryptionIv r)
       (CreateClubRequest.isPublic r) (CreateClubRequest.membersCanPost r)
       (CreateClubRequest.membersCanInvite r) (CreateClubRequest.maxMembers r)
       count)
  = Normal
      (Some (Club.mk cid owner_id t (name payload) None picture (clubAesKey p)
               (isPublic payload)
               (ClubSettings.mk (membersCanPost payload) (membersCanInvite payload)
                  (maxMembers payload))
               count)).
Proof.
  cbv zeta. intros Htext Hd Hm Hfind Hrsa Hparse.
  pose proof (ClubEffectsFacts.name_recovered aes_encrypt_block aes_decrypt_block
                encryptRsaOaepSha256 aes_block_length aes_block_inverse
                payload identity g) as [_ Hname].
  cbv zeta in Hname.
  assert (Hnone : CreateClubRequest.encryptedDescription
                    (request (prepare payload identity g).1) = None).
  { unfold prepare_createClub, generateAesKey, encryptAesCbc.
    cbn [getRandomValues fst snd].
    destruct (description payload) as [d|];
      [rewrite Hd|]; now destruct (encryptRsaOaepSha256 _ _ _). }
  assert (Hflags :
    CreateClubRequest.isPublic (request (prepare payload identity g).1)
      = isPublic payload /\
    CreateClubRequest.membersCanPost (request (prepare payload identity g).1)
      = membersCanPost payload /\
    CreateClubRequest.membersCanInvite (request (prepare payload identity g).1)
      = membersCanInvite payload /\
    CreateClubRequest.maxMembers (request (prepare payload identity g).1)
      = maxMembers payload).
  { unfold prepare_createClub, generateAesKey, encryptAesCbc.
    cbn [getRandomValues fst snd].
    destruct (description payload) as [d|];
      [destruct (ClubFeedItem.truthy_string (Some d))|];
      now destruct (encryptRsaOaepSha256 _ _ _). }
  destruct Hflags as (F1 & F2 & F3 & F4).
  unfold load_club.
  cbn [GetClubResponse.id GetClubResponse.encryptedName
       GetClubResponse.encryptionIv GetClubResponse.encryptedDescription
       GetClubResponse.created GetClubResponse.ownerUserId
       GetClubResponse.encryptedProfilePicture GetClubResponse.isPublic
       GetClubResponse.membersCanPost GetClubResponse.membersCanInvite
       GetClubResponse.maxMembers GetClubResponse.memberCount].
  rewrite Hm. cbn [mbind completion_bind bind]. rewrite Hfind, Hrsa.
  cbn [mbind completion_bind bind].
  unfold decryptAesCbcAsync. rewrite Hname, Hnone.
  cbn [mbind completion_bind bind]. rewrite Hparse.
  cbn [mbind completion_bind bind].
  rewrite Htext, F1, F2, F3, F4. reflexivity.
Qed.

End Facts.

(** X25 on a storage with one club whose stored name is not a ciphertext. *)
Lemma loadMyClubsStarted_effect_fails_witness :
  loadMyClubsStarted_effect toy_decrypt_block toy_decryptRsa toy_Instant_parse
    "https://api.liftlog.online/v2/" (fun _ => "HTTP error"%string)
    (server_fetch [broken_row]) engine_limit (Some owner1)
  = loadMyClubsFailed.
Proof.
  eassert (Hr : getMyClubsAsync "https://api.liftlog.online/v2/"
                  (fun _ => "HTTP error"%string) (server_fetch [broken_row])
                  engine_limit
                  (GetMyClubsRequest.mk (id owner1) (password owner1))
                = Normal (ApiResult_new _)) by (vm_compute; reflexivity).
  apply (proj1 (loadMyClubsStarted_effect_all_or_nothing
                  toy_decrypt_block toy_decryptRsa toy_Instant_parse
                  "https://api.liftlog.online/v2/" (fun _ => "HTTP error"%string)
                  (server_fetch [broken_row]) engine_limit owner1 _ Hr)).
  eexists _, _. split; [apply list_elem_of_In; left; reflexivity|].
  vm_compute. reflexivity.
Defined.

(** X26 on the club "Club" created without description and stored. *)
Lemma load_club_recovers_name_witness :
  load_club toy_decrypt_block toy_decryptRsa toy_Instant_parse
    "https://api.liftlog.online/v2/" (fun _ => "HTTP error"%string)
    (server_fetch (server_createClub [] prepared2)) engine_limit owner1
    (GetClubResponse.mk "club-1" "user-1" "2025-11-23T10:00:00Z"
       (CreateClubRequest.encryptedName (request prepared2))
       (CreateClubRequest.encryptedDescription (request prepared2)) None
       (CreateClubRequest.encryptionIv (request prepared2))
       (CreateClubRequest.isPublic (request prepared2))
       (CreateClubRequest.membersCanPost (request prepared2))
       (CreateClubRequest.membersCanInvite (request prepared2))
       (CreateClubRequest.maxMembers (request prepared2)) 1)
  = Normal
      (Some (Club.mk "club-1" "user-1" epoch "Club" None None
               (clubAesKey prepared2) false (ClubSettings.mk true false 50) 1)).
Proof.
  eapply (load_club_recovers_name
            toy_encrypt_block toy_decrypt_block toy_encryptRsa toy_decryptRsa
            toy_Instant_parse
            "https://api.liftlog.online/v2/" (fun _ => "HTTP error"%string)
            (server_fetch (server_createClub [] prepared2)) engine_limit
            toy_block_length toy_block_inverse
            payload2 owner1 entropy1 "club-1" "user-1" "2025-11-23T10:00:00Z"
            epoch None 1).
  - reflexivity.
  - reflexivity.
  - vm_compute. reflexivity.
  - vm_compute. reflexivity.
  - vm_compute. reflexivity.
  - reflexivity.
Defined.

End ClubEffectsMoreFacts.
